(** * sportsref: identity registry, call memoizer and the entities built on them

    A shallow embedding of the entity classes of [sportsref]
    ([nfl/teams.py], [nba/teams.py], [nfl/boxscores.py]) together with the
    caching layer they are decorated with.  Python objects live in a heap of
    attribute dictionaries, methods are computations in a state-and-exception
    monad, and the external collaborators (HTML fetcher, page parsers, the
    interpreter's [hash]) are the fields of a type class. *)

From Stdlib Require Import ZArith String Ascii List DecimalString DecimalPos.
From stdpp Require Import base option gmap strings list.

Local Open Scope string_scope.
Local Open Scope Z_scope.

(** ** Python values and exceptions *)

(** Exceptions that the modelled code can raise.  [FetchFailed],
    [ParseFailed] and [InvalidKey] are the error kinds of the caching layer;
    the others are Python's built-in exceptions. *)
Inductive error : Type :=
| AttributeError
| TypeError
| ValueError
| FetchFailed
| ParseFailed
| InvalidKey.

(** Plain data values: what attributes hold and what methods return.
    [VNaN] is [np.nan], [VDate] a [datetime.date], [VDict] a dictionary from
    strings to [int]-or-[None] (the shape of [BoxScore.weather]'s result),
    [VDoc] a parsed PyQuery document. *)
Inductive value : Type :=
| VNone
| VNaN
| VInt (n : Z)
| VStr (s : string)
| VDate (year month day : Z)
| VDict (d : gmap string (option Z))
| VDoc (html : string).

Inductive result (A : Type) : Type :=
| Ok (a : A)
| Raise (e : error).
Arguments Ok {A} a.
Arguments Raise {A} e.

#[global] Instance error_eq_dec : EqDecision error.
Proof. solve_decision. Defined.

#[global] Instance value_eq_dec : EqDecision value.
Proof. solve_decision. Defined.

Definition value_code (v : value)
  : unit + unit + Z + string + (Z * Z * Z) + gmap string (option Z) + string :=
  match v with
  | VNone => inl (inl (inl (inl (inl (inl tt)))))
  | VNaN => inl (inl (inl (inl (inl (inr tt)))))
  | VInt n => inl (inl (inl (inl (inr n))))
  | VStr s => inl (inl (inl (inr s)))
  | VDate y m d => inl (inl (inr (y, m, d)))
  | VDict d => inl (inr d)
  | VDoc h => inr h
  end.

Definition value_decode
  (c : unit + unit + Z + string + (Z * Z * Z) + gmap string (option Z) + string)
  : value :=
  match c with
  | inl (inl (inl (inl (inl (inl _))))) => VNone
  | inl (inl (inl (inl (inl (inr _))))) => VNaN
  | inl (inl (inl (inl (inr n)))) => VInt n
  | inl (inl (inl (inr s))) => VStr s
  | inl (inl (inr (y, m, d))) => VDate y m d
  | inl (inr d) => VDict d
  | inr h => VDoc h
  end.

#[global] Instance value_countable : Countable value.
Proof. apply (inj_countable' value_code value_decode). by intros []. Defined.

(** Python's [==] on data values.  [np.nan] differs from everything,
    itself included; the other values compare structurally. *)
Definition py_eq (v w : value) : bool :=
  match v, w with
  | VNaN, _ | _, VNaN => false
  | _, _ => bool_decide (v = w)
  end.

(** ** Entity kinds, heap and process state *)

(** The three entity classes of the source files. *)
Inductive kind : Type := NFL_Team | NBA_Team | NFL_BoxScore.

#[global] Instance kind_eq_dec : EqDecision kind.
Proof. solve_decision. Defined.

Definition kind_code (k : kind) : nat :=
  match k with NFL_Team => 0 | NBA_Team => 1 | NFL_BoxScore => 2 end%nat.

Definition kind_decode (n : nat) : kind :=
  match n with O => NFL_Team | S O => NBA_Team | _ => NFL_BoxScore end.

#[global] Instance kind_countable : Countable kind.
Proof. apply (inj_countable' kind_code kind_decode). by intros []. Defined.

(** The attribute that carries the natural key: [self.teamID] for both
    [Team] classes, [self.boxscore_id] for [BoxScore]. *)
Definition key_attr (k : kind) : string :=
  match k with
  | NFL_Team | NBA_Team => "teamID"
  | NFL_BoxScore => "boxscore_id"
  end.

Definition loc : Type := nat.

(** A Python object reference or a plain value: the operands of [==] and
    the arguments of memoized calls. *)
Inductive pyobj : Type :=
| Ref (l : loc)
| Val (v : value).

(** A call key: owner's natural key, operation identifier, reduced
    arguments. *)
Abbreviation callkey := (value * string * list value)%type.

Record entity : Type := Entity {
  e_cls : kind;
  e_attrs : gmap string value;
  e_cache : gmap callkey value
}.

Record state : Type := State {
  registry : gmap (kind * value) loc;
  heap : gmap loc entity;
  fcache : gmap callkey value;
  calls : list string;
  fetches : list string
}.

Definition init : state := State ∅ ∅ ∅ [] [].

(** ** The state-and-exception monad of Python computations *)

(** A computation transforms the process state and either returns a value
    or raises; state changes made before an exception are kept. *)
Definition M (A : Type) : Type := state → result A * state.

Definition ret {A} (a : A) : M A := λ st, (Ok a, st).

Definition raise {A} (e : error) : M A := λ st, (Raise e, st).

Definition bind {A B} (m : M A) (f : A → M B) : M B :=
  λ st, match m st with
        | (Ok a, st') => f a st'
        | (Raise e, st') => (Raise e, st')
        end.

Definition lift {A} (r : result A) : M A := λ st, (r, st).

Declare Scope py_scope.
Delimit Scope py_scope with py.
Notation "x <- m ;; k" := (bind m (λ x, k))
  (at level 100, m at next level, right associativity) : py_scope.
Notation "m ;;; k" := (bind m (λ _, k))
  (at level 100, right associativity) : py_scope.
Local Open Scope py_scope.

Fixpoint mapM {A B} (f : A → M B) (l : list A) : M (list B) :=
  match l with
  | [] => ret []
  | a :: l' => b <- f a ;; bs <- mapM f l' ;; ret (b :: bs)
  end.

(** Test instrumentation: a wrapped operation that starts with
    [count_call tag] leaves one [tag] in [calls] per invocation. *)
Definition count_call (tag : string) : M unit :=
  λ st,
    (Ok tt, State (registry st) (heap st) (fcache st) (tag :: calls st)
                  (fetches st)).

Definition call_count (tag : string) (st : state) : nat :=
  length (filter (λ t, t = tag) (calls st)).

(** Outcome and final state of a computation. *)
Definition outcome {A} (m : M A) (st : state) : result A := fst (m st).
Definition after {A} (m : M A) (st : state) : state := snd (m st).

(** ** Attribute access *)

(** Attributes of data values.  A [datetime.date] has [year], [month] and
    [day]; no data value has a natural-key attribute. *)
Definition value_attr (v : value) (name : string) : option value :=
  match v with
  | VDate y m d =>
      if bool_decide (name = "year") then Some (VInt y)
      else if bool_decide (name = "month") then Some (VInt m)
      else if bool_decide (name = "day") then Some (VInt d)
      else None
  | _ => None
  end.

(** [o.name]: looks the attribute up, raising [AttributeError] when the
    object does not have it. *)
Definition getattr (o : pyobj) (name : string) : M value :=
  λ st,
    match o with
    | Ref l =>
        match heap st !! l with
        | Some e =>
            match e_attrs e !! name with
            | Some v => (Ok v, st)
            | None => (Raise AttributeError, st)
            end
        | None => (Raise AttributeError, st)
        end
    | Val v =>
        match value_attr v name with
        | Some w => (Ok w, st)
        | None => (Raise AttributeError, st)
        end
    end.

Definition set_entity (l : loc) (e : entity) (st : state) : state :=
  State (registry st) (<[l := e]> (heap st)) (fcache st) (calls st) (fetches st).

(** [self.name = v] on a heap object. *)
Definition setattr (l : loc) (name : string) (v : value) : M unit :=
  λ st,
    match heap st !! l with
    | Some e =>
        (Ok tt,
         set_entity l (Entity (e_cls e) (<[name := v]> (e_attrs e)) (e_cache e)) st)
    | None => (Raise AttributeError, st)
    end.

(** ** Collaborators *)

(** Result of matching the weather regular expression and casting its four
    optional groups with [int]. *)
Record weather_match : Type := WeatherMatch {
  wm_temp : option Z;
  wm_relHumidity : option Z;
  wm_windMPH : option Z;
  wm_windChill : option Z
}.

(** What the entity classes consume from outside the three source files:
    the fetcher ([utils.get_html], answering the [n]-th request of the
    process or failing), the page parsers (PyQuery selections and the
    [utils] helpers), module constants, and the interpreter's [hash] and
    [str]. *)
Class Collaborators : Type := {
  get_html : nat → string → option string;
  nfl_BASE_URL : string;
  nba_BASE_URL : string;
  py_repr : value → string;
  hash_fn : value → Z;
  linescore_team : Z → string → result string;
  linescore_score : Z → string → result Z;
  parse_info_table : string → result (gmap string string);
  weather_regex : string → weather_match;
  header_words : string → string → result (list string)
}.

(** One more page selection, for [BoxScore.week]: the [href] of
    [doc('div#div_other_scores h2 a')], [None] when there is no such link. *)
Class LinkParsers : Type := {
  other_scores_href : string → option string
}.

Section Builtins.
Context `{C : Collaborators}.

(** [utils.get_html(url)]: one request to the fetch collaborator. *)
Definition fetch (url : string) : M string :=
  λ st,
    let st' := State (registry st) (heap st) (fcache st) (calls st)
                     (fetches st ++ [url]) in
    match get_html (length (fetches st)) url with
    | Some html => (Ok html, st')
    | None => (Raise FetchFailed, st')
    end.

(** [str(v)] as used by [str.format]. *)
Definition py_str (v : value) : string :=
  match v with
  | VStr s => s
  | _ => py_repr v
  end.

(** [hash(v)]: dictionaries and PyQuery documents (lists) are unhashable. *)
Definition py_hash (v : value) : result Z :=
  match v with
  | VDict _ | VDoc _ => Raise TypeError
  | _ => Ok (hash_fn v)
  end.

End Builtins.

(** Destructors for values whose Python type the callee fixes. *)
Definition as_doc (v : value) : M string :=
  match v with VDoc h => ret h | _ => raise TypeError end.

Definition as_int (v : value) : M Z :=
  match v with VInt n => ret n | _ => raise TypeError end.

(** ** The caching layer ([sportsref.decorators]) *)

Module decorators.

(** Modelled from the spec: the two steps of the registry on a miss,
    allocation of a fresh, attribute-less instance of class [k] and its
    registration under kind and key. *)
Definition alloc (k : kind) : M loc :=
  λ st,
    let l := fresh (dom (heap st)) in
    (Ok l, set_entity l (Entity k ∅ ∅) st).

Definition register (k : kind) (key : value) (l : loc) : M unit :=
  λ st,
    (Ok tt, State (<[(k, key) := l]> (registry st)) (heap st) (fcache st)
                  (calls st) (fetches st)).

(** Modelled from the spec: the identity registry of [sportsref.decorators]
    (the [Cached] metaclass and the class-level [memoized] decorator), which
    is not among the source files.  [get_or_create(kind, natural_key)]
    returns the registered entity when there is one; otherwise it constructs
    a new entity by invoking the kind's constructor [ctor] with the key,
    registers it and returns it.  A constructor that raises leaves nothing
    registered. *)
Definition get_or_create (k : kind) (ctor : loc → value → M unit)
    (key : value) : M loc :=
  λ st,
    match registry st !! (k, key) with
    | Some l => (Ok l, st)
    | None => (l <- alloc k ;; ctor l key ;;; register k key l ;;; ret l) st
    end.

(** Modelled from the spec: the natural key of a heap entity is the value
    of its key attribute. *)
Definition natural_key (l : loc) : M value :=
  λ st,
    match heap st !! l with
    | Some e => getattr (Ref l) (key_attr (e_cls e)) st
    | None => (Raise AttributeError, st)
    end.

(** Modelled from the spec: the shared key utilities of
    [sportsref.decorators].  An argument that is an entity contributes its
    natural key, any other argument contributes itself. *)
Definition reduce_arg (a : pyobj) : M value :=
  match a with
  | Val v => ret v
  | Ref l => natural_key l
  end.

(** Modelled from the spec: call-key derivation.  The key is the owner's
    identity by natural key ([None] for a free function), the operation
    identifier and the reduced arguments in order. *)
Definition call_key (owner : option loc) (op : string) (args : list pyobj)
    : M callkey :=
  id <- match owner with
        | Some l => natural_key l
        | None => ret VNone
        end ;;
  ks <- mapM reduce_arg args ;;
  ret (id, op, ks).

(** Modelled from the spec: the store a call is looked up in and stored
    to is the owner's [EntityCacheStore], or the free-function store. *)
Definition cache_lookup (owner : option loc) (k : callkey) : M (option value) :=
  λ st,
    match owner with
    | Some l =>
        match heap st !! l with
        | Some e => (Ok (e_cache e !! k), st)
        | None => (Raise AttributeError, st)
        end
    | None => (Ok (fcache st !! k), st)
    end.

Definition cache_store (owner : option loc) (k : callkey) (r : value) : M unit :=
  λ st,
    match owner with
    | Some l =>
        match heap st !! l with
        | Some e =>
            (Ok tt,
             set_entity l (Entity (e_cls e) (e_attrs e) (<[k := r]> (e_cache e))) st)
        | None => (Raise AttributeError, st)
        end
    | None =>
        (Ok tt, State (registry st) (heap st) (<[k := r]> (fcache st))
                      (calls st) (fetches st))
    end.

(** Modelled from the spec: the call memoizer of [sportsref.decorators]
    ([memoize], and [memoized] on functions and methods), which is not among
    the source files.  On a hit the stored result is returned and the
    wrapped operation is not invoked.  On a miss the operation is invoked
    once; a returned result is stored (sentinels included) and returned, an
    exception propagates and nothing is stored. *)
Definition memoize (owner : option loc) (op : string) (args : list pyobj)
    (body : M value) : M value :=
  k <- call_key owner op args ;;
  hit <- cache_lookup owner k ;;
  match hit with
  | Some r => ret r
  | None =>
      r <- body ;;
      cache_store owner k r ;;;
      ret r
  end.

End decorators.

(** ** Library functions used by the entity classes *)

Definition is_digit (a : ascii) : bool :=
  (48 <=? nat_of_ascii a)%nat && (nat_of_ascii a <=? 57)%nat.

(** [\d{n}] anchored at the start of [s]: the matched text and the rest. *)
Fixpoint take_digits (n : nat) (s : string) : option (string * string) :=
  match n with
  | O => Some (EmptyString, s)
  | S n' =>
      match s with
      | String a s' =>
          if is_digit a then
            match take_digits n' s' with
            | Some (g, r) => Some (String a g, r)
            | None => None
            end
          else None
      | EmptyString => None
      end
  end.

(** [re.match(r'(\d{4})(\d{2})(\d{2})', s)]: the three groups, or [None]. *)
Definition match_date (s : string) : option (string * string * string) :=
  match take_digits 4 s with
  | Some (y, r1) =>
      match take_digits 2 r1 with
      | Some (m, r2) =>
          match take_digits 2 r2 with
          | Some (d, _) => Some (y, m, d)
          | None => None
          end
      | None => None
      end
  | None => None
  end.

(** [int(s)] on a string of decimal digits. *)
Fixpoint int_digits (acc : Z) (s : string) : Z :=
  match s with
  | EmptyString => acc
  | String a s' => int_digits (10 * acc + (Z.of_nat (nat_of_ascii a) - 48)) s'
  end.

Definition py_int (s : string) : Z := int_digits 0 s.

(** Whether every character of [s] is a decimal digit. *)
Fixpoint all_digits (s : string) : bool :=
  match s with
  | EmptyString => true
  | String a s' => is_digit a && all_digits s'
  end.

Definition is_leap (y : Z) : bool :=
  (y mod 4 =? 0) && (negb (y mod 100 =? 0) || (y mod 400 =? 0)).

Definition days_in_month (y m : Z) : Z :=
  if m =? 2 then (if is_leap y then 29 else 28)
  else if (m =? 4) || (m =? 6) || (m =? 9) || (m =? 11) then 30
  else 31.

(** The proleptic Gregorian dates that [datetime.date] accepts. *)
Definition valid_date (y m d : Z) : bool :=
  (1 <=? y) && (y <=? 9999) && (1 <=? m) && (m <=? 12) &&
  (1 <=? d) && (d <=? days_in_month y m).

(** [datetime.date(year=y, month=m, day=d)]: [ValueError] outside the
    calendar. *)
Definition datetime_date (y m d : Z) : result value :=
  if valid_date y m d then Ok (VDate y m d) else Raise ValueError.

Definition as_str (v : value) : M string :=
  match v with VStr s => ret s | _ => raise TypeError end.

(** [words.index(w)]: position of the first occurrence. *)
Fixpoint list_index (w : string) (words : list string) : option nat :=
  match words with
  | [] => None
  | x :: rest =>
      if bool_decide (x = w) then Some O
      else match list_index w rest with
           | Some i => Some (S i)
           | None => None
           end
  end.

(** [sep.join(words)]. *)
Fixpoint str_join (sep : string) (words : list string) : string :=
  match words with
  | [] => ""
  | [x] => x
  | x :: rest => x ++ sep ++ str_join sep rest
  end.

(** [str(n)] for an [int]. *)
Definition str_int (n : Z) : string := NilZero.string_of_int (Z.to_int n).

(** A literal character of a pattern at the start of [s]: the rest. *)
Definition expect (c : ascii) (s : string) : option string :=
  match s with
  | String a r => if bool_decide (a = c) then Some r else None
  | EmptyString => None
  end.

(** A literal string of a pattern at the start of [s]: the rest. *)
Fixpoint expect_string (p s : string) : option string :=
  match p with
  | EmptyString => Some s
  | String c p' =>
      match expect c s with
      | Some r => expect_string p' r
      | None => None
      end
  end.

(** The longest run of digits at the start of [s], and the rest. *)
Fixpoint span_digits (s : string) : string * string :=
  match s with
  | String a r =>
      if is_digit a then
        let (ds, rest) := span_digits r in (String a ds, rest)
      else (EmptyString, s)
  | EmptyString => (EmptyString, EmptyString)
  end.

(** Whether [s] does not go on with a digit. *)
Definition starts_nondigit (s : string) : Prop :=
  match s with
  | String a _ => is_digit a = false
  | EmptyString => True
  end.

(** [(\d+)] followed by more of the pattern: greedy, and since what follows
    never starts with a digit, the run it takes is the longest one. *)
Definition digits1 (s : string) : option (string * string) :=
  let (ds, rest) := span_digits s in
  if bool_decide (ds = EmptyString) then None else Some (ds, rest).

(** [re.match(r'/years/{}/week_(\d+)\.htm'.format(season), raw)]: group 1,
    or [None]. *)
Definition match_week (season : Z) (raw : string) : option string :=
  match expect_string ("/years/" ++ str_int season ++ "/week_") raw with
  | Some r1 =>
      match digits1 r1 with
      | Some (ds, r2) =>
          match expect_string ".htm" r2 with
          | Some _ => Some ds
          | None => None
          end
      | None => None
      end
  | None => None
  end.

(** [\s] on byte strings: space, tab, newline, vertical tab, form feed,
    carriage return. *)
Definition is_space (a : ascii) : bool :=
  let n := nat_of_ascii a in
  (n =? 32)%nat || ((9 <=? n)%nat && (n <=? 13)%nat).

(** The longest run of [\S] at the start of [s], and the rest. *)
Fixpoint span_nonspace (s : string) : string * string :=
  match s with
  | String a r =>
      if is_space a then (EmptyString, s)
      else let (w, rest) := span_nonspace r in (String a w, rest)
  | EmptyString => (EmptyString, EmptyString)
  end.

(** The pattern [ \((\d+)-(\d+)-(\d+)\)] at the start of [s]: the three
    groups and what follows the closing parenthesis. *)
Definition match_record_tail (s : string)
    : option (string * string * string * string) :=
  match expect " " s with
  | Some s1 =>
      match expect "(" s1 with
      | Some s2 =>
          match digits1 s2 with
          | Some (wins, s3) =>
              match expect "-" s3 with
              | Some s4 =>
                  match digits1 s4 with
                  | Some (losses, s5) =>
                      match expect "-" s5 with
                      | Some s6 =>
                          match digits1 s6 with
                          | Some (ties, s7) =>
                              match expect ")" s7 with
                              | Some s8 => Some (wins, losses, ties, s8)
                              | None => None
                              end
                          | None => None
                          end
                      | None => None
                      end
                  | None => None
                  end
              | None => None
              end
          | None => None
          end
      | None => None
      end
  | None => None
  end.

(** [re.search(r'(\S+?) \((\d+)-(\d+)-(\d+)\)', s)]: the four groups of
    the leftmost match and the text after it ([s[m.end(4) + 1:]]), or
    [None].  At a start position the lazy [\S+?] can only stop at the first
    white-space character, which must be the space of the pattern; when the
    attempt fails the search moves one character on. *)
Fixpoint search_record (s : string)
    : option (string * string * string * string * string) :=
  match s with
  | String a r =>
      if is_space a then search_record r
      else
        let (coachID, rest) := span_nonspace s in
        match match_record_tail rest with
        | Some (wins, losses, ties, after) =>
            Some (coachID, wins, losses, ties, after)
        | None => search_record r
        end
  | EmptyString => None
  end.

(** [(\-?\d+)] followed by a literal of the pattern or by its end: an
    optional minus sign and the longest run of digits. *)
Definition signed_digits (s : string) : option (string * string) :=
  match expect "-" s with
  | Some r =>
      match digits1 r with
      | Some (ds, rest) => Some (String "-" ds, rest)
      | None => None
      end
  | None => digits1 s
  end.

(** [int(s)] on an optional minus sign followed by decimal digits. *)
Definition py_int_signed (s : string) : Z :=
  match expect "-" s with
  | Some r => - py_int r
  | None => py_int s
  end.

(** An optional group [(?:pre(num)post)?] at the start of [s]: the text of
    the inner group when the whole group matches, and the text that is
    left.  When the group does not match it is skipped and nothing is
    consumed. *)
Definition opt_group (pre : string) (num : string → option (string * string))
    (post : string) (s : string) : option string * string :=
  match expect_string pre s with
  | Some r1 =>
      match num r1 with
      | Some (g, r2) =>
          match expect_string post r2 with
          | Some r3 => (Some g, r3)
          | None => (None, s)
          end
      | None => (None, s)
      end
  | None => (None, s)
  end.

(** The regular expression of [weather] matched against the weather text,
    [m.groupdict()] and the cast of the groups that matched with [int]:
    four optional groups in a row, so that the match itself never fails.
    This is what the [weather_regex] field stands for. *)
Definition weather_groups (s : string) : weather_match :=
  let (temp, s1) := opt_group "" signed_digits " degrees " s in
  let (relHumidity, s2) := opt_group "relative humidity " digits1 "%, " s1 in
  let (windMPH, s3) := opt_group "wind " digits1 " mph, " s2 in
  let (windChill, _) := opt_group "wind chill " signed_digits "" s3 in
  WeatherMatch (py_int_signed <$> temp) (py_int <$> relHumidity)
               (py_int <$> windMPH) (py_int_signed <$> windChill).

(** ** [sportsref/nfl]: [teams.py] and [boxscores.py] *)

Module nfl.

(** The body of [team_ids] on the items of [team_names(year)], in the
    order the dictionary yields them: [{v: k for k, v in names.iteritems()}].
    A later item overwrites an earlier one with the same name. *)
Definition team_ids_of (items : list (string * string)) : gmap string string :=
  fold_left (λ acc kv, <[kv.2 := kv.1]> acc) items ∅.

Module Team.
Section Team.
Context `{C : Collaborators}.

Definition __init__ (self : loc) (teamID : value) : M unit :=
  setattr self "teamID" teamID.

(** [Team(teamID)]: the class is wrapped by [decorators.memoized]. *)
Definition new (teamID : value) : M loc :=
  decorators.get_or_create NFL_Team __init__ teamID.

Definition __eq__ (self : loc) (other : pyobj) : M bool :=
  a <- getattr (Ref self) "teamID" ;;
  b <- getattr other "teamID" ;;
  ret (py_eq a b).

Definition __hash__ (self : loc) : M Z :=
  a <- getattr (Ref self) "teamID" ;;
  lift (py_hash a).

Definition team_year_url (self : loc) (yr_str : value) : M value :=
  decorators.memoize (Some self) "team_year_url" [Val yr_str]
    (id <- getattr (Ref self) "teamID" ;;
     ret (VStr (nfl_BASE_URL ++ "/teams/" ++ py_str id ++ "/"
                ++ py_str yr_str ++ ".htm"))).

Definition get_main_doc (self : loc) : M value :=
  decorators.memoize (Some self) "get_main_doc" []
    (id <- getattr (Ref self) "teamID" ;;
     let relURL := "/teams/" ++ py_str id in
     let teamURL := nfl_BASE_URL ++ relURL in
     html <- fetch teamURL ;;
     ret (VDoc html)).

Definition get_year_doc (self : loc) (yr_str : value) : M value :=
  decorators.memoize (Some self) "get_year_doc" [Val yr_str]
    (url <- team_year_url self yr_str ;;
     u <- as_str url ;;
     html <- fetch u ;;
     ret (VDoc html)).

Definition name (self : loc) : M value :=
  decorators.memoize (Some self) "name" []
    (doc <- get_main_doc self ;;
     h <- as_doc doc ;;
     headerwords <- lift (header_words "div#meta h1" h) ;;
     match list_index "Franchise" headerwords with
     | Some lastIdx =>
         let teamwords := take lastIdx headerwords in
         ret (VStr (str_join " " teamwords))
     | None => raise ValueError
     end).

Definition __reduce__ (self : loc) : M (kind * list value) :=
  id <- getattr (Ref self) "teamID" ;;
  ret (NFL_Team, [id]).

(** The loop of [head_coaches_by_game] over the flattened coach text:
    search a record, keep the coach and [wins + losses + ties], go on with
    the text after the record until it is empty; a failed search on text
    that is left makes [m.groups()] raise [AttributeError].  The text gets
    shorter at every turn; [fuel] bounds the number of turns, and [None]
    means that it ran out. *)
Fixpoint coach_loop (fuel : nat) (coachStr : string)
    : option (result (list (string * Z))) :=
  match coachStr with
  | EmptyString => Some (Ok [])
  | String _ _ =>
      match fuel with
      | O => None
      | S fuel' =>
          match search_record coachStr with
          | None => Some (Raise AttributeError)
          | Some (coachID, wins, losses, ties, rest) =>
              let tenure := py_int wins + py_int losses + py_int ties in
              match coach_loop fuel' rest with
              | Some (Ok coachAndTenure) =>
                  Some (Ok ((coachID, tenure) :: coachAndTenure))
              | other => other
              end
          end
      end
  end.

(** The list that [head_coaches_by_game] puts in its array: every coach
    repeated once per game, flattened, in reverse order. *)
Definition coach_ids (coachAndTenure : list (string * Z)) : list string :=
  rev (concat (map (λ ct, replicate (Z.to_nat ct.2) ct.1) coachAndTenure)).

End Team.
End Team.

Module BoxScore.
Section BoxScore.
Context `{C : Collaborators}.

Definition __init__ (self : loc) (boxscore_id : value) : M unit :=
  setattr self "boxscore_id" boxscore_id.

(** [BoxScore(boxscore_id)]: the class has metaclass [decorators.Cached]. *)
Definition new (boxscore_id : value) : M loc :=
  decorators.get_or_create NFL_BoxScore __init__ boxscore_id.

Definition __eq__ (self : loc) (other : pyobj) : M bool :=
  a <- getattr (Ref self) "boxscore_id" ;;
  b <- getattr other "boxscore_id" ;;
  ret (py_eq a b).

Definition __hash__ (self : loc) : M Z :=
  a <- getattr (Ref self) "boxscore_id" ;;
  lift (py_hash a).

Definition get_doc (self : loc) : M value :=
  decorators.memoize (Some self) "get_doc" []
    (id <- getattr (Ref self) "boxscore_id" ;;
     let url := nfl_BASE_URL ++ "/boxscores/" ++ py_str id ++ ".htm" in
     html <- fetch url ;;
     ret (VDoc html)).

(** The body of [date]: [re.match] wants a string ([TypeError] otherwise),
    [match.groups()] on a failed match raises [AttributeError], and
    [datetime.date] raises [ValueError] on an impossible date. *)
Definition date_of_id (id : value) : result value :=
  match id with
  | VStr s =>
      match match_date s with
      | Some (year, month, day) =>
          datetime_date (py_int year) (py_int month) (py_int day)
      | None => Raise AttributeError
      end
  | _ => Raise TypeError
  end.

Definition date (self : loc) : M value :=
  decorators.memoize (Some self) "date" []
    (id <- getattr (Ref self) "boxscore_id" ;;
     lift (date_of_id id)).

Definition home (self : loc) : M value :=
  decorators.memoize (Some self) "home" []
    (doc <- get_doc self ;;
     h <- as_doc doc ;;
     home <- lift (linescore_team 2 h) ;;
     ret (VStr home)).

Definition away (self : loc) : M value :=
  decorators.memoize (Some self) "away" []
    (doc <- get_doc self ;;
     h <- as_doc doc ;;
     away <- lift (linescore_team 1 h) ;;
     ret (VStr away)).

Definition home_score (self : loc) : M value :=
  decorators.memoize (Some self) "home_score" []
    (doc <- get_doc self ;;
     h <- as_doc doc ;;
     home_score <- lift (linescore_score 2 h) ;;
     ret (VInt home_score)).

Definition away_score (self : loc) : M value :=
  decorators.memoize (Some self) "away_score" []
    (doc <- get_doc self ;;
     h <- as_doc doc ;;
     away_score <- lift (linescore_score 1 h) ;;
     ret (VInt away_score)).

Definition winner (self : loc) : M value :=
  decorators.memoize (Some self) "winner" []
    (hm <- home_score self ;;
     aw <- away_score self ;;
     hmScore <- as_int hm ;;
     awScore <- as_int aw ;;
     if hmScore >? awScore then home self
     else if hmScore <? awScore then away self
     else ret VNaN).

(** The [year] and [month] attributes of the object [date()] returned. *)
Definition season_of (date : value) : M value :=
  month <- getattr (Val date) "month" ;;
  m <- as_int month ;;
  year <- getattr (Val date) "year" ;;
  y <- as_int year ;;
  ret (VInt (if m <=? 3 then y - 1 else y)).

Definition season (self : loc) : M value :=
  decorators.memoize (Some self) "season" []
    (date <- date self ;;
     season_of date).

Definition surface (self : loc) : M value :=
  decorators.memoize (Some self) "surface" []
    (doc <- get_doc self ;;
     h <- as_doc doc ;;
     giTable <- lift (parse_info_table h) ;;
     ret (match giTable !! "surface" with
          | Some s => VStr s
          | None => VNaN
          end)).

Definition roof (self : loc) : M value :=
  decorators.memoize (Some self) "roof" []
    (doc <- get_doc self ;;
     h <- as_doc doc ;;
     giTable <- lift (parse_info_table h) ;;
     ret (match giTable !! "roof" with
          | Some s => VStr s
          | None => VNaN
          end)).

(** The dictionary [weather] returns for a dome game. *)
Definition dome_weather : gmap string (option Z) :=
  list_to_map [("temp", Some 70); ("windChill", Some 70);
               ("relHumidity", None); ("windMPH", Some 0)].

Definition weather (self : loc) : M value :=
  decorators.memoize (Some self) "weather" []
    (doc <- get_doc self ;;
     h <- as_doc doc ;;
     giTable <- lift (parse_info_table h) ;;
     match giTable !! "weather" with
     | Some w =>
         let d := weather_regex w in
         let windChill :=
           match wm_windChill d with
           | Some c => Some c
           | None => wm_temp d
           end in
         let windMPH :=
           match wm_windMPH d with
           | Some x => Some x
           | None => Some 0
           end in
         ret (VDict (list_to_map
                [("temp", wm_temp d); ("relHumidity", wm_relHumidity d);
                 ("windMPH", windMPH); ("windChill", windChill)]))
     | None => ret (VDict dome_weather)
     end).

Definition __reduce__ (self : loc) : M (kind * list value) :=
  id <- getattr (Ref self) "boxscore_id" ;;
  ret (NFL_BoxScore, [id]).

Context `{L : LinkParsers}.

Definition week (self : loc) : M value :=
  decorators.memoize (Some self) "week" []
    (doc <- get_doc self ;;
     h <- as_doc doc ;;
     let raw := other_scores_href h in
     s <- season self ;;
     y <- as_int s ;;
     match raw with
     | Some raw =>
         match match_week y raw with
         | Some g => ret (VInt (py_int g))
         | None => ret (VInt 21)
         end
     | None => raise TypeError
     end).

Definition coin_toss (self : loc) : M value :=
  decorators.memoize (Some self) "coin_toss" []
    (doc <- get_doc self ;;
     h <- as_doc doc ;;
     giTable <- lift (parse_info_table h) ;;
     match giTable !! "Won Toss" with
     | Some _ => ret VNone
     | None => ret VNaN
     end).

(** [str.format] on one argument: [str] of a string is the string, of an
    [int] its decimal digits. *)
Definition format_arg (v : value) : string :=
  match v with
  | VInt n => str_int n
  | _ => py_str v
  end.

Definition __str__ (self : loc) : M string :=
  s <- season self ;;
  w <- week self ;;
  a <- away self ;;
  h <- home self ;;
  ret (format_arg s ++ " Week " ++ format_arg w ++ ": " ++ format_arg a
         ++ " @ " ++ format_arg h).

End BoxScore.
End BoxScore.

End nfl.

(** ** [sportsref/nba/teams.py] *)

Module nba.

Module Team.
Section Team.
Context `{C : Collaborators}.

Definition __init__ (self : loc) (teamID : value) : M unit :=
  setattr self "teamID" teamID.

Definition new (teamID : value) : M loc :=
  decorators.get_or_create NBA_Team __init__ teamID.

Definition __eq__ (self : loc) (other : pyobj) : M bool :=
  a <- getattr (Ref self) "teamID" ;;
  b <- getattr other "teamID" ;;
  ret (py_eq a b).

Definition __hash__ (self : loc) : M Z :=
  a <- getattr (Ref self) "teamID" ;;
  lift (py_hash a).

Definition get_main_doc (self : loc) : M value :=
  decorators.memoize (Some self) "get_main_doc" []
    (id <- getattr (Ref self) "teamID" ;;
     let relURL := "/teams/" ++ py_str id in
     let teamURL := nba_BASE_URL ++ relURL in
     html <- fetch teamURL ;;
     ret (VDoc html)).

Definition name (self : loc) : M value :=
  decorators.memoize (Some self) "name" []
    (doc <- get_main_doc self ;;
     h <- as_doc doc ;;
     headerwords <- lift (header_words "div#info_box h1" h) ;;
     match list_index "Franchise" headerwords with
     | Some lastIdx =>
         let teamwords := take lastIdx headerwords in
         ret (VStr (str_join " " teamwords))
     | None => raise ValueError
     end).

End Team.
End Team.

End nba.

(** ** Dispatch: [a == b], [hash(a)], construction and method calls *)

(** The methods a client can call on an entity. *)
Inductive method : Type :=
| m_get_doc | m_date | m_season | m_home | m_away | m_home_score
| m_away_score | m_winner | m_surface | m_roof | m_weather
| m_get_main_doc | m_name
| m_team_year_url (yr_str : value)
| m_get_year_doc (yr_str : value).

(** What a client of the package can do to the process state. *)
Inductive action : Type :=
| New (k : kind) (key : value)
| SetAttr (l : loc) (attr : string) (v : value)
| Call (l : loc) (m : method).

Section Dispatch.
Context `{C : Collaborators}.

(** [a == b] runs the [__eq__] of [a]'s class. *)
Definition obj_eq (self : loc) (other : pyobj) : M bool :=
  λ st,
    match heap st !! self with
    | Some e =>
        match e_cls e with
        | NFL_Team => nfl.Team.__eq__ self other st
        | NBA_Team => nba.Team.__eq__ self other st
        | NFL_BoxScore => nfl.BoxScore.__eq__ self other st
        end
    | None => (Raise AttributeError, st)
    end.

(** [hash(a)] runs the [__hash__] of [a]'s class. *)
Definition obj_hash (self : loc) : M Z :=
  λ st,
    match heap st !! self with
    | Some e =>
        match e_cls e with
        | NFL_Team => nfl.Team.__hash__ self st
        | NBA_Team => nba.Team.__hash__ self st
        | NFL_BoxScore => nfl.BoxScore.__hash__ self st
        end
    | None => (Raise AttributeError, st)
    end.

(** [Team(key)] / [BoxScore(key)]. *)
Definition construct (k : kind) (key : value) : M loc :=
  match k with
  | NFL_Team => nfl.Team.new key
  | NBA_Team => nba.Team.new key
  | NFL_BoxScore => nfl.BoxScore.new key
  end.

(** What unpickling does with the pair that [__reduce__] returned: it
    calls the class on the arguments. *)
Definition rebuild (r : kind * list value) : M loc :=
  match r with
  | (k, [key]) => construct k key
  | _ => raise TypeError
  end.

(** [self.m(...)]: the method of [self]'s class, [AttributeError] when the
    class has none of that name. *)
Definition invoke (self : loc) (m : method) : M value :=
  λ st,
    match heap st !! self with
    | Some e =>
        match e_cls e, m with
        | NFL_BoxScore, m_get_doc => nfl.BoxScore.get_doc self st
        | NFL_BoxScore, m_date => nfl.BoxScore.date self st
        | NFL_BoxScore, m_season => nfl.BoxScore.season self st
        | NFL_BoxScore, m_home => nfl.BoxScore.home self st
        | NFL_BoxScore, m_away => nfl.BoxScore.away self st
        | NFL_BoxScore, m_home_score => nfl.BoxScore.home_score self st
        | NFL_BoxScore, m_away_score => nfl.BoxScore.away_score self st
        | NFL_BoxScore, m_winner => nfl.BoxScore.winner self st
        | NFL_BoxScore, m_surface => nfl.BoxScore.surface self st
        | NFL_BoxScore, m_roof => nfl.BoxScore.roof self st
        | NFL_BoxScore, m_weather => nfl.BoxScore.weather self st
        | NFL_Team, m_get_main_doc => nfl.Team.get_main_doc self st
        | NFL_Team, m_name => nfl.Team.name self st
        | NFL_Team, m_team_year_url y => nfl.Team.team_year_url self y st
        | NFL_Team, m_get_year_doc y => nfl.Team.get_year_doc self y st
        | NBA_Team, m_get_main_doc => nba.Team.get_main_doc self st
        | NBA_Team, m_name => nba.Team.name self st
        | _, _ => (Raise AttributeError, st)
        end
    | None => (Raise AttributeError, st)
    end.

Definition perform (a : action) (st : state) : state :=
  match a with
  | New k key => after (construct k key) st
  | SetAttr l attr v => after (setattr l attr v) st
  | Call l m => after (invoke l m) st
  end.

(** Clients do not reassign the natural key of an entity. *)
Definition action_ok (a : action) : Prop :=
  match a with
  | SetAttr _ attr _ => attr ≠ "teamID" ∧ attr ≠ "boxscore_id"
  | _ => True
  end.

(** One client action. *)
Definition step (st st' : state) : Prop :=
  ∃ a, action_ok a ∧ st' = perform a st.

(** The states a process can be in: [init] followed by client actions. *)
Definition reachable (st : state) : Prop := rtc step init st.

(** [n] successive calls of [m], collecting the results. *)
Fixpoint call_times {A} (n : nat) (m : M A) : M (list A) :=
  match n with
  | O => ret []
  | S n' => r <- m ;; rs <- call_times n' m ;; ret (r :: rs)
  end.

(** ** Invariants of the cache stores *)

(** What a stored entry means, for the operations whose value is determined
    by the key or by other entries of the same store. *)
Definition entry_ok (c : gmap callkey value) (k : callkey) (v : value) : Prop :=
  let '(id, op, args) := k in
  (op = "date" → nfl.BoxScore.date_of_id id = Ok v) ∧
  (op = "season" →
     ∃ y m d, nfl.BoxScore.date_of_id id = Ok (VDate y m d) ∧
              v = VInt (if m <=? 3 then y - 1 else y)) ∧
  (op = "winner" →
     args = [] ∧
     ∃ h a, c !! (id, "home_score", []) = Some (VInt h) ∧
            c !! (id, "away_score", []) = Some (VInt a) ∧
            (h > a → c !! (id, "home", []) = Some v) ∧
            (h < a → c !! (id, "away", []) = Some v) ∧
            (h = a → v = VNaN)) ∧
  (op = "surface" →
     args = [] ∧
     ∃ h gi, c !! (id, "get_doc", []) = Some (VDoc h) ∧
             parse_info_table h = Ok gi ∧
             v = match gi !! "surface" with
                 | Some s => VStr s
                 | None => VNaN
                 end) ∧
  (op = "weather" →
     args = [] ∧
     ∃ h gi, c !! (id, "get_doc", []) = Some (VDoc h) ∧
             parse_info_table h = Ok gi ∧
             (gi !! "weather" = None → v = VDict nfl.BoxScore.dome_weather)).

Definition cache_sound (st : state) : Prop :=
  ∀ l e k v,
    heap st !! l = Some e → e_cache e !! k = Some v → entry_ok (e_cache e) k v.

Definition has_class (st : state) (l : loc) (k : kind) : Prop :=
  ∃ e, heap st !! l = Some e ∧ e_cls e = k.

(** The invariant a method of class [k] relies on when called on [self]. *)
Definition sound_at (self : loc) (k : kind) (st : state) : Prop :=
  cache_sound st ∧ has_class st self k.

(** Operations whose entries other entries refer to. *)
Definition dep_op (op : string) : Prop :=
  op ∈ ["get_doc"; "home_score"; "away_score"; "home"; "away"].

(** [st'] differs from [st] only by new cache entries of operations in [P]
    (and possibly by fetches made). *)
Definition only_adds (P : string → Prop) (st st' : state) : Prop :=
  registry st' = registry st ∧
  fcache st' = fcache st ∧
  ∀ l,
    match heap st !! l with
    | Some e =>
        ∃ e', heap st' !! l = Some e' ∧ e_cls e' = e_cls e ∧
              e_attrs e' = e_attrs e ∧
              ∀ k, e_cache e' !! k = e_cache e !! k ∨
                   (e_cache e !! k = None ∧ P (k.1.2))
    | None => heap st' !! l = None
    end.

Definition adds (P : string → Prop) {A} (m : M A) : Prop :=
  ∀ st, only_adds P st (after m st).

Definition preserves (I : state → Prop) {A} (m : M A) : Prop :=
  ∀ st, I st → I (after m st).

(** [st'] keeps what calls made in [st] rely on: every entity is still
    there with its class and natural key, and no stored entry has been
    removed or changed. *)
Definition stable (st st' : state) : Prop :=
  fcache st ⊆ fcache st' ∧
  ∀ l e,
    heap st !! l = Some e →
    ∃ e', heap st' !! l = Some e' ∧ e_cls e' = e_cls e ∧
          e_attrs e' !! key_attr (e_cls e) = e_attrs e !! key_attr (e_cls e) ∧
          e_cache e ⊆ e_cache e'.

(** The registry holds exactly the live entities, each under its class and
    natural key. *)
Definition registry_ok (st : state) : Prop :=
  (∀ k key l, registry st !! (k, key) = Some l →
     ∃ e, heap st !! l = Some e ∧ e_cls e = k ∧
          e_attrs e !! key_attr k = Some key) ∧
  (∀ l e, heap st !! l = Some e →
     ∃ key, registry st !! (e_cls e, key) = Some l).

(** A memoized document fetch whose request fails: the call raises
    [FetchFailed] and stores nothing; the next call makes the request
    again, and if that one succeeds its document is returned and stored. *)
Definition fails_then_retries (m : M value) (url : string) (st : state) : Prop :=
  ∃ st1,
    m st = (Raise FetchFailed, st1) ∧
    heap st1 = heap st ∧
    fetches st1 = (fetches st ++ [url])%list ∧
    ∀ html,
      get_html (length (fetches st1)) url = Some html →
      ∃ st2,
        m st1 = (Ok (VDoc html), st2) ∧
        fetches st2 = (fetches st1 ++ [url])%list ∧
        m st2 = (Ok (VDoc html), st2).

(** How a memoized call runs: no call key, a hit, a miss whose body
    raises, or a miss whose body returns and whose result is stored. *)
Inductive memo_run (owner : option loc) (op : string) (args : list pyobj)
    (body : M value) (st : state) : result value * state → Prop :=
| memo_nokey e :
    decorators.call_key owner op args st = (Raise e, st) →
    memo_run owner op args body st (Raise e, st)
| memo_hit k r :
    decorators.call_key owner op args st = (Ok k, st) →
    decorators.cache_lookup owner k st = (Ok (Some r), st) →
    memo_run owner op args body st (Ok r, st)
| memo_raise k e st' :
    decorators.call_key owner op args st = (Ok k, st) →
    decorators.cache_lookup owner k st = (Ok None, st) →
    body st = (Raise e, st') →
    memo_run owner op args body st (Raise e, st')
| memo_miss k r st' out :
    decorators.call_key owner op args st = (Ok k, st) →
    decorators.cache_lookup owner k st = (Ok None, st) →
    body st = (Ok r, st') →
    out = (match decorators.cache_store owner k r st' with
           | (Ok _, st'') => (Ok r, st'')
           | (Raise e, st'') => (Raise e, st'')
           end) →
    memo_run owner op args body st out.

End Dispatch.

(** ** A sample site *)

(** Collaborators for concrete runs: the first request of the process
    fails, later ones succeed; the game was played in a dome (no game-info
    entries); the home team won 28-24. *)
Definition sample_site : Collaborators := {|
  get_html := λ n url, if (n =? 0)%nat then None else Some ("<html>" ++ url);
  nfl_BASE_URL := "http://nfl";
  nba_BASE_URL := "http://nba";
  py_repr := λ _, "?";
  hash_fn := λ v, match v with
                  | VInt n => n
                  | VStr s => Z.of_nat (String.length s)
                  | _ => 0
                  end;
  linescore_team := λ row _, Ok (if row =? 2 then "nwe" else "sea");
  linescore_score := λ row _, Ok (if row =? 2 then 28 else 24);
  parse_info_table := λ _, Ok ∅;
  weather_regex := λ _, WeatherMatch None None None None;
  header_words :=
    λ _ _, Ok ["New"; "England"; "Patriots"; "Franchise"; "Encyclopedia"]
|}.

(** A process on the sample site that has constructed the box score of
    game [201502010sea] and asked once for its document (the request that
    fails). *)
Definition sample_game : state :=
  @perform sample_site (Call 0%nat m_get_doc)
    (@perform sample_site (New NFL_BoxScore (VStr "201502010sea")) init).

(** A process that has constructed an NFL team and an NBA team with the
    same identifier. *)
Definition sample_teams : state :=
  @perform sample_site (New NBA_Team (VStr "phi"))
    (@perform sample_site (New NFL_Team (VStr "phi")) init).

(** On the sample site the link under the other scores is that of week 17
    of season 2014. *)
Definition sample_links : LinkParsers := {|
  other_scores_href := λ _, Some "/years/2014/week_17.htm"
|}.

(** Two more pages for the link under the other scores: a link into
    another season, and no link at all. *)
Definition sample_links_other_season : LinkParsers := {|
  other_scores_href := λ _, Some "/years/2013/week_17.htm"
|}.

Definition sample_no_link : LinkParsers := {|
  other_scores_href := λ _, None
|}.

(** A site whose requests all succeed and whose game was played outdoors:
    the game-info table has the surface, the roof, the weather and the
    toss; the weather text gives a temperature and a wind speed only and
    is read by the regular expression of the source.  The
    header of an NFL team page has the word [Franchise], that of an NBA
    team page has not. *)
Definition sample_outdoor_site : Collaborators := {|
  get_html := λ _ url, Some ("<html>" ++ url);
  nfl_BASE_URL := "http://nfl";
  nba_BASE_URL := "http://nba";
  py_repr := λ _, "?";
  hash_fn := λ _, 0;
  linescore_team := λ row _, Ok (if row =? 2 then "nwe" else "sea");
  linescore_score := λ row _, Ok (if row =? 2 then 28 else 24);
  parse_info_table :=
    λ _, Ok (list_to_map [("surface", "grass"); ("roof", "outdoors");
                          ("weather", "36 degrees wind 11 mph, ");
                          ("Won Toss", "Seahawks (deferred)")]);
  weather_regex := weather_groups;
  header_words :=
    λ sel _, if bool_decide (sel = "div#meta h1")
             then Ok ["New"; "England"; "Patriots"; "Franchise";
                      "Encyclopedia"]
             else Ok ["Boston"; "Celtics"]
|}.

(** A process that has constructed the box score of game [201502010sea]
    and nothing else, one that has constructed a second box score of the
    same day, and one that has constructed a box score whose identifier
    has no date. *)
Definition sample_new_game : state :=
  after (decorators.get_or_create NFL_BoxScore nfl.BoxScore.__init__
           (VStr "201502010sea")) init.

Definition sample_two_games : state :=
  after (decorators.get_or_create NFL_BoxScore nfl.BoxScore.__init__
           (VStr "201502010nwe")) sample_new_game.

Definition sample_undated_game : state :=
  after (decorators.get_or_create NFL_BoxScore nfl.BoxScore.__init__
           (VStr "next-sunday")) init.

(** * Properties *)

(** ** The library functions on small inputs *)

Example match_date_game :
  match_date "201502010sea" = Some ("2015", "02", "01").
Proof. reflexivity. Qed.

Example match_date_too_short : match_date "2015020" = None.
Proof. reflexivity. Qed.

Example match_date_not_anchored : match_date "x20150201" = None.
Proof. reflexivity. Qed.

Example datetime_date_leap_day : datetime_date 2016 2 29 = Ok (VDate 2016 2 29).
Proof. reflexivity. Qed.

Example datetime_date_no_leap_day : datetime_date 2015 2 29 = Raise ValueError.
Proof. reflexivity. Qed.

Example datetime_date_year_zero : datetime_date 0 1 1 = Raise ValueError.
Proof. reflexivity. Qed.

Example date_of_id_month_13 :
  nfl.BoxScore.date_of_id (VStr "20151301xyz") = Raise ValueError.
Proof. reflexivity. Qed.

Example date_of_id_not_a_string :
  nfl.BoxScore.date_of_id (VInt 20150201) = Raise TypeError.
Proof. reflexivity. Qed.

Example list_index_franchise :
  list_index "Franchise" ["New"; "England"; "Patriots"; "Franchise"; "Encyclopedia"]
    = Some 3%nat.
Proof. reflexivity. Qed.

Example str_join_words :
  str_join " " ["New"; "England"; "Patriots"] = "New England Patriots".
Proof. reflexivity. Qed.

Example py_eq_nan : py_eq VNaN VNaN = false.
Proof. reflexivity. Qed.

Example team_name_on_sample_site :
  outcome (t <- nfl.Team.new (VStr "nwe") ;;
           @nfl.Team.get_main_doc sample_site t ;;;
           @nfl.Team.name sample_site t)
          (State ∅ ∅ ∅ [] ["warm-up"])
    = Ok (VStr "New England Patriots").
Proof. vm_compute. reflexivity. Qed.

(** ** Running computations *)

Lemma bind_ok {A B} (m : M A) (f : A → M B) st a st' :
  m st = (Ok a, st') → bind m f st = f a st'.
Proof. unfold bind. by intros ->. Qed.

Lemma bind_raise {A B} (m : M A) (f : A → M B) st e st' :
  m st = (Raise e, st') → bind m f st = (Raise e, st').
Proof. unfold bind. by intros ->. Qed.

Lemma bind_inv_ok {A B} (m : M A) (f : A → M B) st b st2 :
  bind m f st = (Ok b, st2) →
  ∃ a st1, m st = (Ok a, st1) ∧ f a st1 = (Ok b, st2).
Proof.
  unfold bind. destruct (m st) as [[a|e] st1]; [eauto | discriminate].
Qed.

Lemma getattr_ref st l e name v :
  heap st !! l = Some e → e_attrs e !! name = Some v →
  getattr (Ref l) name st = (Ok v, st).
Proof. unfold getattr. by intros -> ->. Qed.

Lemma getattr_ref_missing st l e name :
  heap st !! l = Some e → e_attrs e !! name = None →
  getattr (Ref l) name st = (Raise AttributeError, st).
Proof. unfold getattr. by intros -> ->. Qed.

Lemma getattr_val_key st v k :
  getattr (Val v) (key_attr k) st = (Raise AttributeError, st).
Proof. by destruct v, k. Qed.

Lemma getattr_state o name st : (getattr o name st).2 = st.
Proof.
  unfold getattr. destruct o as [l|v].
  - destruct (heap st !! l) as [e|]; [|done]. by destruct (e_attrs e !! name).
  - by destruct (value_attr v name).
Qed.

Lemma py_eq_true v w : py_eq v w = true → v = w.
Proof.
  unfold py_eq. destruct v, w; try discriminate;
    intros H; by apply bool_decide_eq_true in H.
Qed.

Lemma py_eq_refl v : v ≠ VNaN → py_eq v v = true.
Proof. unfold py_eq. destruct v; try done; intros _; by apply bool_decide_eq_true. Qed.

(** ** Equality and hashing of entities *)

(** All three classes compare and hash through their key attribute. *)
Lemma obj_eq_unfold `{C : Collaborators} st a ea other :
  heap st !! a = Some ea →
  obj_eq a other st =
    (x <- getattr (Ref a) (key_attr (e_cls ea)) ;;
     y <- getattr other (key_attr (e_cls ea)) ;;
     ret (py_eq x y)) st.
Proof. unfold obj_eq. intros ->. by destruct (e_cls ea). Qed.

Lemma obj_hash_unfold `{C : Collaborators} st a ea :
  heap st !! a = Some ea →
  obj_hash a st =
    (x <- getattr (Ref a) (key_attr (e_cls ea)) ;; lift (py_hash x)) st.
Proof. unfold obj_hash. intros ->. by destruct (e_cls ea). Qed.

Lemma obj_eq_ref `{C : Collaborators} st a ea ka b eb kb :
  heap st !! a = Some ea →
  e_attrs ea !! key_attr (e_cls ea) = Some ka →
  heap st !! b = Some eb →
  e_attrs eb !! key_attr (e_cls ea) = Some kb →
  obj_eq a (Ref b) st = (Ok (py_eq ka kb), st).
Proof.
  intros Ha Hka Hb Hkb. rewrite (obj_eq_unfold _ _ _ _ Ha).
  erewrite bind_ok by by eapply getattr_ref.
  by erewrite bind_ok by by eapply getattr_ref.
Qed.

Lemma obj_hash_key `{C : Collaborators} st a ea ka :
  heap st !! a = Some ea →
  e_attrs ea !! key_attr (e_cls ea) = Some ka →
  obj_hash a st = (py_hash ka, st).
Proof.
  intros Ha Hka. rewrite (obj_hash_unfold _ _ _ Ha).
  by erewrite bind_ok by by eapply getattr_ref.
Qed.

(** C3: for two entities of the same kind, [a == b] is the equality of
    their natural keys (Python's [==] on the keys, which is plain equality
    for any key other than NaN), and equal entities have equal hashes. *)
Theorem entity_eq_hash_consistent `{C : Collaborators} st a b ea eb ka kb :
  heap st !! a = Some ea →
  heap st !! b = Some eb →
  e_cls ea = e_cls eb →
  e_attrs ea !! key_attr (e_cls ea) = Some ka →
  e_attrs eb !! key_attr (e_cls eb) = Some kb →
  obj_eq a (Ref b) st = (Ok (py_eq ka kb), st) ∧
  (ka ≠ VNaN → outcome (obj_eq a (Ref b)) st = Ok true ↔ ka = kb) ∧
  (outcome (obj_eq a (Ref b)) st = Ok true → obj_hash a st = obj_hash b st).
Proof.
  intros Ha Hb Hcls Hka Hkb.
  assert (Heq : obj_eq a (Ref b) st = (Ok (py_eq ka kb), st)).
  { eapply obj_eq_ref; eauto. by rewrite Hcls. }
  split; [done|]. unfold outcome. rewrite Heq. simpl. split.
  - intros Hnan. split.
    + intros [= H]. by apply py_eq_true.
    + intros <-. by rewrite py_eq_refl.
  - intros [= H]. apply py_eq_true in H as <-.
    rewrite (obj_hash_key _ _ _ _ Ha Hka).
    by rewrite (obj_hash_key _ _ _ _ Hb Hkb).
Qed.

(** C10: [==] on an entity reads the key attribute of the other operand
    without looking at its class: any heap object that has the attribute is
    compared by key (an NFL [Team] equals an NBA [Team] with the same
    [teamID]), and an operand without the attribute, heap object or plain
    value, makes the comparison raise [AttributeError]. *)
Theorem entity_eq_no_type_check `{C : Collaborators} st a ea ka :
  heap st !! a = Some ea →
  e_attrs ea !! key_attr (e_cls ea) = Some ka →
  (∀ b eb kb,
     heap st !! b = Some eb →
     e_attrs eb !! key_attr (e_cls ea) = Some kb →
     obj_eq a (Ref b) st = (Ok (py_eq ka kb), st)) ∧
  (∀ b eb s,
     e_cls ea = NFL_Team → ka = VStr s →
     heap st !! b = Some eb → e_cls eb = NBA_Team →
     e_attrs eb !! "teamID" = Some (VStr s) →
     obj_eq a (Ref b) st = (Ok true, st)) ∧
  (∀ b eb,
     heap st !! b = Some eb →
     e_attrs eb !! key_attr (e_cls ea) = None →
     obj_eq a (Ref b) st = (Raise AttributeError, st)) ∧
  (∀ b, heap st !! b = None →
     obj_eq a (Ref b) st = (Raise AttributeError, st)) ∧
  (∀ v, obj_eq a (Val v) st = (Raise AttributeError, st)).
Proof.
  intros Ha Hka. repeat split.
  - intros b eb kb Hb Hkb. by eapply obj_eq_ref.
  - intros b eb s Hcls -> Hb _ Hkb.
    erewrite obj_eq_ref; eauto.
    + by rewrite py_eq_refl.
    + by rewrite Hcls.
  - intros b eb Hb Hkb. rewrite (obj_eq_unfold _ _ _ _ Ha).
    erewrite bind_ok by by eapply getattr_ref.
    by erewrite bind_raise by by eapply getattr_ref_missing.
  - intros b Hb. rewrite (obj_eq_unfold _ _ _ _ Ha).
    erewrite bind_ok by by eapply getattr_ref.
    apply bind_raise. unfold getattr. by rewrite Hb.
  - intros v. rewrite (obj_eq_unfold _ _ _ _ Ha).
    erewrite bind_ok by by eapply getattr_ref.
    apply bind_raise, getattr_val_key.
Qed.

(** ** How memoized calls run *)

Lemma natural_key_state l st : (decorators.natural_key l st).2 = st.
Proof.
  unfold decorators.natural_key. destruct (heap st !! l); [|done].
  apply getattr_state.
Qed.

Lemma reduce_arg_state a st : (decorators.reduce_arg a st).2 = st.
Proof. destruct a; [apply natural_key_state | done]. Qed.

Lemma mapM_reduce_state args st :
  (mapM decorators.reduce_arg args st).2 = st.
Proof.
  revert st. induction args as [|a args IH]; intros st; [done|].
  simpl. unfold bind.
  pose proof (reduce_arg_state a st) as Ha.
  destruct (decorators.reduce_arg a st) as [[v|e] s1]; simpl in Ha; subst s1;
    [|done].
  specialize (IH st).
  by destruct (mapM decorators.reduce_arg args st) as [[vs|e] s2];
    simpl in IH; subst s2.
Qed.

Lemma call_key_state owner op args st :
  (decorators.call_key owner op args st).2 = st.
Proof.
  unfold decorators.call_key, bind.
  assert (Hid : ∀ m : M value, (∀ s, (m s).2 = s) →
    (match m st with
     | (Ok a, st') =>
         match mapM decorators.reduce_arg args st' with
         | (Ok ks, st'') => ret (a, op, ks) st''
         | (Raise e, st'') => (Raise e, st'')
         end
     | (Raise e, st') => (Raise e, st')
     end).2 = st).
  { intros m Hm. specialize (Hm st).
    destruct (m st) as [[v|e] s1]; simpl in Hm; subst s1; [|done].
    pose proof (mapM_reduce_state args st) as Hk.
    by destruct (mapM decorators.reduce_arg args st) as [[vs|e] s2];
      simpl in Hk; subst s2. }
  destruct owner as [l|]; apply Hid; [apply natural_key_state | done].
Qed.

Lemma call_key_op owner op args st k :
  decorators.call_key owner op args st = (Ok k, st) → k.1.2 = op.
Proof.
  unfold decorators.call_key. intros H.
  apply bind_inv_ok in H as (id & s1 & _ & H).
  apply bind_inv_ok in H as (ks & s2 & _ & H).
  by injection H as <- _.
Qed.

Lemma cache_lookup_state owner k st :
  (decorators.cache_lookup owner k st).2 = st.
Proof.
  unfold decorators.cache_lookup. destruct owner as [l|]; [|done].
  by destruct (heap st !! l).
Qed.

Lemma memoize_run owner op args body st :
  memo_run owner op args body st (decorators.memoize owner op args body st).
Proof.
  unfold decorators.memoize.
  pose proof (call_key_state owner op args st) as Hk.
  destruct (decorators.call_key owner op args st) as [[k|e] s1] eqn:Ek;
    simpl in Hk; subst s1.
  2:{ erewrite bind_raise by done. by apply memo_nokey. }
  erewrite bind_ok by done.
  pose proof (cache_lookup_state owner k st) as Hl.
  destruct (decorators.cache_lookup owner k st) as [[hit|e] s1] eqn:El;
    simpl in Hl; subst s1.
  2:{ exfalso. unfold decorators.cache_lookup in El.
      destruct owner as [l|]; [|done].
      unfold decorators.call_key in Ek.
      apply bind_inv_ok in Ek as (id & s1 & Hn & _).
      unfold decorators.natural_key in Hn.
      by destruct (heap st !! l). }
  erewrite bind_ok by done.
  destruct hit as [r|]; [by eapply memo_hit|].
  destruct (body st) as [[r|e] st'] eqn:Eb.
  - erewrite bind_ok by done. eapply memo_miss; [done..|].
    unfold bind. by destruct (decorators.cache_store owner k r st') as [[[]|e] s2].
  - erewrite bind_raise by done. by eapply memo_raise.
Qed.

Lemma memoize_hit owner op args body st k r :
  decorators.call_key owner op args st = (Ok k, st) →
  decorators.cache_lookup owner k st = (Ok (Some r), st) →
  decorators.memoize owner op args body st = (Ok r, st).
Proof.
  intros Hk Hl. unfold decorators.memoize.
  erewrite bind_ok by done. by erewrite bind_ok by done.
Qed.

Lemma cache_store_lookup owner k r st st' :
  decorators.cache_store owner k r st = (Ok tt, st') →
  decorators.cache_lookup owner k st' = (Ok (Some r), st').
Proof.
  unfold decorators.cache_store, decorators.cache_lookup.
  destruct owner as [l|].
  - destruct (heap st !! l) as [e|]; [|discriminate]. intros [= <-]. simpl.
    rewrite lookup_insert_eq. simpl. by rewrite lookup_insert_eq.
  - intros [= <-]. simpl. by rewrite lookup_insert_eq.
Qed.

(** A memoized call that returns leaves its result stored under its key. *)
Lemma memoize_ok_entry owner op args body st r st1 :
  decorators.memoize owner op args body st = (Ok r, st1) →
  ∃ k, decorators.call_key owner op args st = (Ok k, st) ∧
       decorators.cache_lookup owner k st1 = (Ok (Some r), st1).
Proof.
  intros Hrun. pose proof (memoize_run owner op args body st) as H.
  rewrite Hrun in H. inversion H as [| k r' Hk Hl | | k r' st' out Hk Hl Hb Hout];
    subst.
  - eauto.
  - exists k. split; [done|].
    destruct (decorators.cache_store owner k r' st') as [[[]|e] s2] eqn:Es;
      [|discriminate].
    injection Hout as -> ->. by eapply cache_store_lookup.
Qed.

(** ** Stability: what later calls rely on *)

Lemma stable_refl st : stable st st.
Proof. split; [done|]. intros l e He. by exists e. Qed.

Lemma stable_trans st1 st2 st3 :
  stable st1 st2 → stable st2 st3 → stable st1 st3.
Proof.
  intros [Hf1 H1] [Hf2 H2]. split; [by etrans|].
  intros l e He. destruct (H1 l e He) as (e' & He' & Hc & Hk & Hs).
  destruct (H2 l e' He') as (e'' & He'' & Hc' & Hk' & Hs').
  exists e''. split; [done|]. split; [congruence|]. split.
  - rewrite Hc in Hk'. by rewrite Hk'.
  - by etrans.
Qed.

Lemma natural_key_inv l st v s :
  decorators.natural_key l st = (Ok v, s) →
  s = st ∧ ∃ e, heap st !! l = Some e ∧
               e_attrs e !! key_attr (e_cls e) = Some v.
Proof.
  unfold decorators.natural_key, getattr.
  destruct (heap st !! l) as [e|] eqn:He; [|discriminate].
  destruct (e_attrs e !! key_attr (e_cls e)) as [w|] eqn:Hw; [|discriminate].
  intros [= -> ->]. eauto.
Qed.

Lemma natural_key_intro l st e v :
  heap st !! l = Some e → e_attrs e !! key_attr (e_cls e) = Some v →
  decorators.natural_key l st = (Ok v, st).
Proof.
  intros He Hv. unfold decorators.natural_key. rewrite He.
  by eapply getattr_ref.
Qed.

Lemma natural_key_stable l st st' v :
  stable st st' →
  decorators.natural_key l st = (Ok v, st) →
  decorators.natural_key l st' = (Ok v, st').
Proof.
  intros [_ Hst] (_ & e & He & Hv)%natural_key_inv.
  destruct (Hst l e He) as (e' & He' & Hc & Hk & _).
  eapply natural_key_intro; [done|]. rewrite Hc. congruence.
Qed.

Lemma reduce_arg_stable a st st' v :
  stable st st' →
  decorators.reduce_arg a st = (Ok v, st) →
  decorators.reduce_arg a st' = (Ok v, st').
Proof.
  destruct a as [l|w]; simpl.
  - apply natural_key_stable.
  - by intros _ [= ->].
Qed.

Lemma mapM_reduce_stable args st st' vs :
  stable st st' →
  mapM decorators.reduce_arg args st = (Ok vs, st) →
  mapM decorators.reduce_arg args st' = (Ok vs, st').
Proof.
  intros Hst. revert vs. induction args as [|a args IH]; intros vs; simpl.
  - by intros [= <-].
  - intros H. apply bind_inv_ok in H as (v & s1 & Ha & H).
    pose proof (reduce_arg_state a st) as E. rewrite Ha in E. simpl in E.
    subst s1. apply bind_inv_ok in H as (ws & s2 & Hm & H).
    pose proof (mapM_reduce_state args st) as E. rewrite Hm in E. simpl in E.
    subst s2. injection H as <-.
    erewrite bind_ok by by eapply reduce_arg_stable.
    by erewrite bind_ok by by apply IH.
Qed.

Lemma call_key_stable owner op args st st' k :
  stable st st' →
  decorators.call_key owner op args st = (Ok k, st) →
  decorators.call_key owner op args st' = (Ok k, st').
Proof.
  intros Hst H. unfold decorators.call_key in *.
  apply bind_inv_ok in H as (id & s1 & Hid & H).
  assert (s1 = st) as ->.
  { destruct owner as [l|]; [|by injection Hid].
    by apply natural_key_inv in Hid as [-> _]. }
  apply bind_inv_ok in H as (ks & s2 & Hks & H).
  pose proof (mapM_reduce_state args st) as E. rewrite Hks in E. simpl in E.
  subst s2. injection H as <-.
  erewrite bind_ok.
  2:{ destruct owner as [l|]; [by eapply natural_key_stable|].
      injection Hid as <-. done. }
  by erewrite bind_ok by by eapply mapM_reduce_stable.
Qed.

Lemma cache_lookup_stable owner k r st st' :
  stable st st' →
  decorators.cache_lookup owner k st = (Ok (Some r), st) →
  decorators.cache_lookup owner k st' = (Ok (Some r), st').
Proof.
  intros [Hf Hst]. unfold decorators.cache_lookup. destruct owner as [l|].
  - destruct (heap st !! l) as [e|] eqn:He; [|discriminate]. intros [= Hr].
    destruct (Hst l e He) as (e' & -> & _ & _ & Hs).
    by rewrite (lookup_weaken _ _ _ _ Hr Hs).
  - intros [= Hr]. by rewrite (lookup_weaken _ _ _ _ Hr Hf).
Qed.

Lemma cache_store_stable owner k r st0 st st' :
  decorators.cache_lookup owner k st0 = (Ok None, st0) →
  stable st0 st →
  decorators.cache_store owner k r st = (Ok tt, st') →
  stable st0 st'.
Proof.
  intros Hl [Hf Hst]. unfold decorators.cache_store, decorators.cache_lookup in *.
  destruct owner as [l|].
  - destruct (heap st !! l) as [e1|] eqn:He1; [|discriminate]. intros [= <-].
    split; [done|]. intros l' e He. simpl.
    destruct (Hst l' e He) as (e' & He' & Hc & Hk & Hs).
    destruct (decide (l' = l)) as [->|Hne].
    + rewrite lookup_insert_eq. eexists. split; [done|]. simpl.
      rewrite He1 in He'. injection He' as ->. repeat split; try done.
      apply insert_subseteq_r; [|done]. rewrite He in Hl. by injection Hl.
    + rewrite lookup_insert_ne by done. eauto.
  - intros [= <-]. split; [|done]. simpl.
    apply insert_subseteq_r; [|done]. by injection Hl.
Qed.

(** Memoizing a stable operation gives a stable operation. *)
Lemma memoize_stable owner op args body :
  (∀ s, stable s (after body s)) →
  ∀ st, stable st (after (decorators.memoize owner op args body) st).
Proof.
  intros Hb st. unfold after.
  destruct (memoize_run owner op args body st)
    as [| | k e st' Hk Hl Hr | k r st' out Hk Hl Hr ->]; simpl;
    try apply stable_refl.
  - specialize (Hb st). unfold after in Hb. by rewrite Hr in Hb.
  - specialize (Hb st). unfold after in Hb. rewrite Hr in Hb. simpl in Hb.
    destruct (decorators.cache_store owner k r st') as [[[]|e] s2] eqn:Es; simpl.
    + by eapply cache_store_stable.
    + unfold decorators.cache_store in Es. destruct owner as [l|]; [|done].
      destruct (heap st' !! l); [done|]. by injection Es as _ <-.
Qed.

Lemma bind_stable {A B} (m : M A) (f : A → M B) :
  (∀ s, stable s (after m s)) →
  (∀ a s, stable s (after (f a) s)) →
  ∀ s, stable s (after (bind m f) s).
Proof.
  intros Hm Hf s. unfold after, bind. specialize (Hm s). unfold after in Hm.
  destruct (m s) as [[a|e] s1]; simpl in *; [|done].
  eapply stable_trans; [done|]. apply Hf.
Qed.

Lemma count_call_stable tag s : stable s (after (count_call tag) s).
Proof. split; [done|]. intros l e He. by exists e. Qed.

Lemma count_call_count tag st :
  call_count tag (after (count_call tag) st) = S (call_count tag st).
Proof.
  unfold call_count, after, count_call. simpl.
  by rewrite filter_cons_True.
Qed.

Lemma cache_store_calls owner k r st :
  calls (after (decorators.cache_store owner k r) st) = calls st.
Proof.
  unfold after, decorators.cache_store. destruct owner as [l|]; [|done].
  by destruct (heap st !! l).
Qed.

Section Instrumented.
Context (owner : option loc) (op : string) (operation : M value) (tag : string).
Context (Hstable : ∀ s, stable s (after operation s)).
Context (Hcount : ∀ s, call_count tag (after operation s) = call_count tag s).

(** The wrapped operation, instrumented with a call counter. *)
Let wrapped : M value := count_call tag ;;; operation.

Lemma wrapped_stable s : stable s (after wrapped s).
Proof.
  apply bind_stable; [apply count_call_stable | intros _; apply Hstable].
Qed.

Lemma wrapped_count s :
  call_count tag (after wrapped s) = S (call_count tag s).
Proof.
  unfold wrapped, after, bind. simpl.
  rewrite <- (count_call_count tag s). apply Hcount.
Qed.

(** The counter moves by one on a miss and not at all on a hit. *)
Lemma memoize_count args st r st1 :
  decorators.memoize owner op args wrapped st = (Ok r, st1) →
  (call_count tag st1 ≤ S (call_count tag st))%nat ∧
  (∀ k, decorators.call_key owner op args st = (Ok k, st) →
        decorators.cache_lookup owner k st = (Ok None, st) →
        call_count tag st1 = S (call_count tag st)).
Proof.
  intros Hrun. pose proof (memoize_run owner op args wrapped st) as H.
  rewrite Hrun in H.
  inversion H as [| k r' Hk Hl | | k r' st' out Hk Hl Hb Hout]; subst.
  - split; [lia|]. intros k' Hk' Hl'. congruence.
  - pose proof (wrapped_count st) as Hw. unfold after in Hw.
    rewrite Hb in Hw. simpl in Hw.
    pose proof (cache_store_calls owner k r' st') as Hs. unfold after in Hs.
    destruct (decorators.cache_store owner k r' st') as [[[]|e] s2];
      [|discriminate].
    injection Hout as <- <-. simpl in Hs.
    assert (call_count tag st1 = S (call_count tag st)) as ->; [|by split].
    unfold call_count in *. by rewrite Hs.
Qed.

(** After a completed call, a call whose key is the same is a hit, whatever
    the wrapped operation and however the state has evolved in between. *)
Lemma memoize_later_hit args args' body' st r st1 st2 :
  decorators.memoize owner op args wrapped st = (Ok r, st1) →
  decorators.call_key owner op args' st = decorators.call_key owner op args st →
  stable st1 st2 →
  decorators.memoize owner op args' body' st2 = (Ok r, st2).
Proof.
  intros Hrun Hkey Hst.
  destruct (memoize_ok_entry _ _ _ _ _ _ _ Hrun) as (k & Hk & Hl).
  assert (Hst1 : stable st st1).
  { pose proof (memoize_stable owner op args wrapped wrapped_stable st) as H.
    unfold after in H. by rewrite Hrun in H. }
  eapply memoize_hit.
  - eapply call_key_stable; [by eapply stable_trans|]. by rewrite Hkey.
  - by eapply cache_lookup_stable.
Qed.

Lemma memoize_repeat args st r st1 n :
  decorators.memoize owner op args wrapped st = (Ok r, st1) →
  call_times n (decorators.memoize owner op args wrapped) st1
    = (Ok (replicate n r), st1).
Proof.
  intros Hrun. induction n as [|n IH]; [done|]. simpl.
  erewrite bind_ok.
  2:{ eapply memoize_later_hit; [done..|apply stable_refl]. }
  by erewrite bind_ok by done.
Qed.

End Instrumented.

(** C1: a memoized operation runs at most once per call key.  With the
    wrapped operation instrumented by a call counter: the first completed
    call moves the counter by at most one (exactly one when nothing was
    stored under the key); from then on every call with the same key returns
    the stored result and leaves the whole state, counter included, as it
    was, however the process has evolved in between; so [n] further
    identical calls all return that same result. *)
Theorem memoize_at_most_once owner op args (operation : M value) tag st r st1 :
  (∀ s, stable s (after operation s)) →
  (∀ s, call_count tag (after operation s) = call_count tag s) →
  decorators.memoize owner op args (count_call tag ;;; operation) st
    = (Ok r, st1) →
  (call_count tag st1 ≤ S (call_count tag st))%nat ∧
  (∀ k, decorators.call_key owner op args st = (Ok k, st) →
        decorators.cache_lookup owner k st = (Ok None, st) →
        call_count tag st1 = S (call_count tag st)) ∧
  (∀ st2, stable st1 st2 →
     decorators.memoize owner op args (count_call tag ;;; operation) st2
       = (Ok r, st2)) ∧
  (∀ n, call_times n
          (decorators.memoize owner op args (count_call tag ;;; operation)) st1
        = (Ok (replicate n r), st1)).
Proof.
  intros Hs Hc Hrun.
  destruct (memoize_count owner op operation tag Hc args st r st1 Hrun)
    as [Hle Heq].
  split; [done|]. split; [done|]. split.
  - intros st2 Hst. by eapply memoize_later_hit.
  - intros n. by eapply memoize_repeat.
Qed.


(** ** Entity-valued arguments *)

Lemma mapM_reduce_same_key pre post a b st key :
  decorators.natural_key a st = (Ok key, st) →
  decorators.natural_key b st = (Ok key, st) →
  mapM decorators.reduce_arg (pre ++ Ref b :: post) st
    = mapM decorators.reduce_arg (pre ++ Ref a :: post) st.
Proof.
  intros Ha Hb. induction pre as [|x pre IH]; simpl.
  - unfold bind. by rewrite Ha, Hb.
  - unfold bind. pose proof (reduce_arg_state x st) as Hx.
    destruct (decorators.reduce_arg x st) as [[v|e] s1]; simpl in Hx; subst s1;
      [|done].
    by rewrite IH.
Qed.

Lemma mapM_reduce_position pre post a st key ks :
  decorators.natural_key a st = (Ok key, st) →
  mapM decorators.reduce_arg (pre ++ Ref a :: post) st = (Ok ks, st) →
  ks !! length pre = Some key.
Proof.
  intros Ha. revert ks. induction pre as [|x pre IH]; intros ks; simpl.
  - intros H. apply bind_inv_ok in H as (v & s1 & Hv & H).
    rewrite Ha in Hv. injection Hv as <- <-.
    apply bind_inv_ok in H as (vs & s2 & _ & H). by injection H as <-.
  - intros H. apply bind_inv_ok in H as (v & s1 & Hv & H).
    pose proof (reduce_arg_state x st) as Hx. rewrite Hv in Hx. simpl in Hx.
    subst s1. apply bind_inv_ok in H as (vs & s2 & Hvs & H).
    pose proof (mapM_reduce_state (pre ++ Ref a :: post) st) as Hs.
    rewrite Hvs in Hs. simpl in Hs. subst s2. injection H as <-.
    simpl. by apply IH.
Qed.

Lemma call_key_same_natural_key owner op pre post a b st key :
  decorators.natural_key a st = (Ok key, st) →
  decorators.natural_key b st = (Ok key, st) →
  decorators.call_key owner op (pre ++ Ref b :: post) st
    = decorators.call_key owner op (pre ++ Ref a :: post) st.
Proof.
  intros Ha Hb. unfold decorators.call_key, bind.
  assert (Hown : (match owner with
                  | Some l => decorators.natural_key l
                  | None => ret VNone
                  end st).2 = st).
  { destruct owner; [apply natural_key_state | done]. }
  destruct (match owner with
            | Some l => decorators.natural_key l
            | None => ret VNone
            end st) as [[id|e] s1]; simpl in Hown; subst s1; [|done].
  by rewrite (mapM_reduce_same_key pre post a b st key Ha Hb).
Qed.

(** C4: an entity passed as an argument contributes its natural key to the
    call key.  Two different references with the same natural key give the
    same call key, whose component at the argument's position is that
    natural key; after a completed call with the first reference, the call
    with the second one is a hit: it returns the stored result and leaves
    the state, call counter included, unchanged, so that the counter has
    moved by at most one over the two calls (exactly one when nothing was
    stored before). *)
Theorem entity_argument_by_natural_key owner op pre post a b
    (operation : M value) tag st key r st1 :
  (∀ s, stable s (after operation s)) →
  (∀ s, call_count tag (after operation s) = call_count tag s) →
  a ≠ b →
  decorators.natural_key a st = (Ok key, st) →
  decorators.natural_key b st = (Ok key, st) →
  decorators.memoize owner op (pre ++ Ref a :: post)
    (count_call tag ;;; operation) st = (Ok r, st1) →
  (∀ k, decorators.call_key owner op (pre ++ Ref a :: post) st = (Ok k, st) →
        k.2 !! length pre = Some key ∧
        decorators.call_key owner op (pre ++ Ref b :: post) st = (Ok k, st)) ∧
  decorators.memoize owner op (pre ++ Ref b :: post)
    (count_call tag ;;; operation) st1 = (Ok r, st1) ∧
  (call_count tag st1 ≤ S (call_count tag st))%nat ∧
  (∀ k, decorators.call_key owner op (pre ++ Ref a :: post) st = (Ok k, st) →
        decorators.cache_lookup owner k st = (Ok None, st) →
        call_count tag st1 = S (call_count tag st)).
Proof.
  intros Hs Hc _ Ha Hb Hrun.
  pose proof (call_key_same_natural_key owner op pre post a b st key Ha Hb)
    as Hkey.
  destruct (memoize_count owner op operation tag Hc _ st r st1 Hrun)
    as [Hle Heq].
  split; [|split; [|by split]].
  - intros k Hk. split; [|by rewrite Hkey].
    unfold decorators.call_key in Hk.
    apply bind_inv_ok in Hk as (id & s1 & Hid & Hk).
    assert (s1 = st) as ->.
    { destruct owner as [l|]; [|by injection Hid].
      by apply natural_key_inv in Hid as [-> _]. }
    apply bind_inv_ok in Hk as (ks & s2 & Hks & Hk).
    pose proof (mapM_reduce_state (pre ++ Ref a :: post) st) as E.
    rewrite Hks in E. simpl in E. subst s2. injection Hk as <-. simpl.
    exact (mapM_reduce_position pre post a st key ks Ha Hks).
  - eapply memoize_later_hit; [done..|apply stable_refl].
Qed.

(** ** Footprints: which cache entries a computation can add *)

Lemma only_adds_refl P st : only_adds P st st.
Proof.
  split; [done|]. split; [done|]. intros l.
  destruct (heap st !! l) as [e|] eqn:He; [|done].
  exists e. repeat split; try done. intros k. by left.
Qed.

Lemma only_adds_trans P st1 st2 st3 :
  only_adds P st1 st2 → only_adds P st2 st3 → only_adds P st1 st3.
Proof.
  intros (Hr1 & Hf1 & H1) (Hr2 & Hf2 & H2).
  split; [congruence|]. split; [congruence|]. intros l.
  specialize (H1 l). specialize (H2 l).
  destruct (heap st1 !! l) as [e|] eqn:He.
  - destruct H1 as (e' & He' & Hc & Ha & Hk). rewrite He' in H2.
    destruct H2 as (e'' & He'' & Hc' & Ha' & Hk').
    exists e''. split; [done|]. split; [congruence|]. split; [congruence|].
    intros k. destruct (Hk k) as [E|[E HP]], (Hk' k) as [E'|[E' HP']].
    + left. congruence.
    + right. split; [congruence | done].
    + right. done.
    + right. done.
  - by rewrite H1 in H2.
Qed.

Lemma only_adds_fetches P st fs :
  only_adds P st (State (registry st) (heap st) (fcache st) (calls st) fs).
Proof.
  split; [done|]. split; [done|]. intros l. simpl.
  destruct (heap st !! l) as [e|] eqn:He; [|done].
  exists e. repeat split; try done. intros k. by left.
Qed.

Lemma only_adds_stable P st st' : only_adds P st st' → stable st st'.
Proof.
  intros (_ & Hf & H). split; [by rewrite Hf|]. intros l e He.
  specialize (H l). rewrite He in H.
  destruct H as (e' & He' & Hc & Ha & Hk). exists e'.
  split; [done|]. split; [done|]. split; [by rewrite Ha|].
  apply map_subseteq_spec. intros k v Hv.
  destruct (Hk k) as [E|[E _]].
  - by rewrite E.
  - by rewrite E in Hv.
Qed.

Lemma adds_unchanged P {A} (m : M A) : (∀ st, (m st).2 = st) → adds P m.
Proof. intros H st. unfold after. rewrite H. apply only_adds_refl. Qed.

Lemma adds_ret P {A} (a : A) : adds P (ret a).
Proof. by apply adds_unchanged. Qed.

Lemma adds_raise P {A} e : adds P (raise (A:=A) e).
Proof. by apply adds_unchanged. Qed.

Lemma adds_lift P {A} (r : result A) : adds P (lift r).
Proof. by apply adds_unchanged. Qed.

Lemma adds_getattr P o name : adds P (getattr o name).
Proof. apply adds_unchanged. intros st. apply getattr_state. Qed.

Lemma adds_as_doc P v : adds P (as_doc v).
Proof. apply adds_unchanged. by destruct v. Qed.

Lemma adds_as_int P v : adds P (as_int v).
Proof. apply adds_unchanged. by destruct v. Qed.

Lemma adds_as_str P v : adds P (as_str v).
Proof. apply adds_unchanged. by destruct v. Qed.

Lemma adds_fetch `{C : Collaborators} P url : adds P (fetch url).
Proof.
  intros st. unfold after, fetch.
  destruct (get_html (length (fetches st)) url); apply only_adds_fetches.
Qed.

Lemma adds_bind P {A B} (m : M A) (f : A → M B) :
  adds P m → (∀ a, adds P (f a)) → adds P (bind m f).
Proof.
  intros Hm Hf st. unfold after, bind. specialize (Hm st). unfold after in Hm.
  destruct (m st) as [[a|e] s1]; simpl in *; [|done].
  eapply only_adds_trans; [done|]. apply Hf.
Qed.

Lemma cache_lookup_some_inv l k hit st :
  decorators.cache_lookup (Some l) k st = (Ok hit, st) →
  ∃ e, heap st !! l = Some e ∧ e_cache e !! k = hit.
Proof.
  unfold decorators.cache_lookup.
  destruct (heap st !! l) as [e|]; [|discriminate]. intros [= <-]. eauto.
Qed.

Lemma adds_memoize P self op args body :
  P op → adds P body → adds P (decorators.memoize (Some self) op args body).
Proof.
  intros HP Hb st. unfold after.
  destruct (memoize_run (Some self) op args body st)
    as [| | k e st' Hk Hl Hr | k r st' out Hk Hl Hr ->]; simpl;
    try apply only_adds_refl.
  - specialize (Hb st). unfold after in Hb. by rewrite Hr in Hb.
  - specialize (Hb st). unfold after in Hb. rewrite Hr in Hb. simpl in Hb.
    apply call_key_op in Hk.
    apply cache_lookup_some_inv in Hl as (e0 & He0 & Hnone).
    unfold decorators.cache_store.
    destruct (heap st' !! self) as [e1|] eqn:He1; simpl; [|done].
    destruct Hb as (Hr' & Hf' & H). split; [done|]. split; [done|].
    intros l. specialize (H l). simpl.
    destruct (decide (l = self)) as [->|Hne].
    + rewrite He0 in *. rewrite lookup_insert_eq.
      destruct H as (e' & He' & Hc & Ha & Hks).
      rewrite He1 in He'. injection He' as <-.
      eexists. split; [done|]. simpl. repeat split; try done.
      intros k0. destruct (decide (k0 = k)) as [->|Hk0].
      * right. split; [done|]. by rewrite Hk.
      * rewrite lookup_insert_ne by done. apply Hks.
    + by rewrite lookup_insert_ne.
Qed.

Lemma adds_weaken (P Q : string → Prop) {A} (m : M A) :
  (∀ op, P op → Q op) → adds P m → adds Q m.
Proof.
  intros HPQ Hm st. destruct (Hm st) as (Hr & Hf & H).
  split; [done|]. split; [done|]. intros l. specialize (H l).
  destruct (heap st !! l) as [e|]; [|done].
  destruct H as (e' & He' & Hc & Ha & Hk). exists e'. repeat split; try done.
  intros k. destruct (Hk k) as [E|[E HP]]; [by left | right; eauto].
Qed.

Ltac adds_step :=
  first
    [ apply adds_memoize; [try done|]
    | apply adds_bind; [|intros ?]
    | apply adds_ret
    | apply adds_raise
    | apply adds_lift
    | apply adds_getattr
    | apply adds_as_doc
    | apply adds_as_int
    | apply adds_as_str
    | apply adds_fetch
    | match goal with
      | |- adds _ (match ?x with _ => _ end) => destruct x
      end ].

Section Footprints.
Context `{C : Collaborators}.
Context (P : string → Prop) (self : loc).

Lemma get_doc_adds : P "get_doc" → adds P (nfl.BoxScore.get_doc self).
Proof. intros. unfold nfl.BoxScore.get_doc. repeat adds_step. Qed.

Lemma date_adds : P "date" → adds P (nfl.BoxScore.date self).
Proof. intros. unfold nfl.BoxScore.date. repeat adds_step. Qed.

Lemma home_adds :
  P "home" → P "get_doc" → adds P (nfl.BoxScore.home self).
Proof.
  intros. unfold nfl.BoxScore.home.
  repeat first [by apply get_doc_adds | adds_step].
Qed.

Lemma away_adds :
  P "away" → P "get_doc" → adds P (nfl.BoxScore.away self).
Proof.
  intros. unfold nfl.BoxScore.away.
  repeat first [by apply get_doc_adds | adds_step].
Qed.

Lemma home_score_adds :
  P "home_score" → P "get_doc" → adds P (nfl.BoxScore.home_score self).
Proof.
  intros. unfold nfl.BoxScore.home_score.
  repeat first [by apply get_doc_adds | adds_step].
Qed.

Lemma away_score_adds :
  P "away_score" → P "get_doc" → adds P (nfl.BoxScore.away_score self).
Proof.
  intros. unfold nfl.BoxScore.away_score.
  repeat first [by apply get_doc_adds | adds_step].
Qed.

Lemma winner_adds :
  P "winner" → P "home_score" → P "away_score" → P "home" → P "away" →
  P "get_doc" → adds P (nfl.BoxScore.winner self).
Proof.
  intros. unfold nfl.BoxScore.winner.
  repeat first
    [ by apply home_score_adds | by apply away_score_adds
    | by apply home_adds | by apply away_adds | adds_step ].
Qed.

Lemma season_adds :
  P "season" → P "date" → adds P (nfl.BoxScore.season self).
Proof.
  intros. unfold nfl.BoxScore.season, nfl.BoxScore.season_of.
  repeat first [by apply date_adds | adds_step].
Qed.

Lemma surface_adds :
  P "surface" → P "get_doc" → adds P (nfl.BoxScore.surface self).
Proof.
  intros. unfold nfl.BoxScore.surface.
  repeat first [by apply get_doc_adds | adds_step].
Qed.

Lemma roof_adds :
  P "roof" → P "get_doc" → adds P (nfl.BoxScore.roof self).
Proof.
  intros. unfold nfl.BoxScore.roof.
  repeat first [by apply get_doc_adds | adds_step].
Qed.

Lemma weather_adds :
  P "weather" → P "get_doc" → adds P (nfl.BoxScore.weather self).
Proof.
  intros. unfold nfl.BoxScore.weather.
  repeat first [by apply get_doc_adds | adds_step].
Qed.

Lemma nfl_get_main_doc_adds :
  P "get_main_doc" → adds P (nfl.Team.get_main_doc self).
Proof. intros. unfold nfl.Team.get_main_doc. repeat adds_step. Qed.

Lemma nfl_name_adds :
  P "name" → P "get_main_doc" → adds P (nfl.Team.name self).
Proof.
  intros. unfold nfl.Team.name.
  repeat first [by apply nfl_get_main_doc_adds | adds_step].
Qed.

Lemma nfl_team_year_url_adds y :
  P "team_year_url" → adds P (nfl.Team.team_year_url self y).
Proof. intros. unfold nfl.Team.team_year_url. repeat adds_step. Qed.

Lemma nfl_get_year_doc_adds y :
  P "get_year_doc" → P "team_year_url" →
  adds P (nfl.Team.get_year_doc self y).
Proof.
  intros. unfold nfl.Team.get_year_doc.
  repeat first [by apply nfl_team_year_url_adds | adds_step].
Qed.

Lemma nba_get_main_doc_adds :
  P "get_main_doc" → adds P (nba.Team.get_main_doc self).
Proof. intros. unfold nba.Team.get_main_doc. repeat adds_step. Qed.

Lemma nba_name_adds :
  P "name" → P "get_main_doc" → adds P (nba.Team.name self).
Proof.
  intros. unfold nba.Team.name.
  repeat first [by apply nba_get_main_doc_adds | adds_step].
Qed.

End Footprints.

(** ** Soundness of the cache stores *)

Section Soundness.
Context `{C : Collaborators}.

Lemma lookup_insert_keep (c : gmap callkey value) k r key x :
  c !! k = None ∨ ¬ dep_op (k.1.2) →
  dep_op (key.1.2) →
  c !! key = Some x → <[k := r]> c !! key = Some x.
Proof.
  intros Hk Hdep Hx. destruct (decide (k = key)) as [->|Hne].
  - destruct Hk as [Hk|Hk]; [congruence | done].
  - by rewrite lookup_insert_ne.
Qed.

Lemma dep_get_doc : dep_op "get_doc".
Proof. unfold dep_op. set_solver. Qed.
Lemma dep_home_score : dep_op "home_score".
Proof. unfold dep_op. set_solver. Qed.
Lemma dep_away_score : dep_op "away_score".
Proof. unfold dep_op. set_solver. Qed.
Lemma dep_home : dep_op "home".
Proof. unfold dep_op. set_solver. Qed.
Lemma dep_away : dep_op "away".
Proof. unfold dep_op. set_solver. Qed.

(** Storing a result never invalidates what is already stored, as long as
    it does not overwrite an entry that others refer to. *)
Lemma entry_ok_insert c k r k0 v0 :
  c !! k = None ∨ ¬ dep_op (k.1.2) →
  entry_ok c k0 v0 → entry_ok (<[k := r]> c) k0 v0.
Proof.
  intros Hk. destruct k0 as [[id op] args]. unfold entry_ok.
  intros (Hd & Hs & Hw & Hsu & Hwe). repeat split; try done.
  - by apply Hw.
  - destruct (Hw H) as (_ & h & a & Hh & Ha & Hgt & Hlt & Heq).
    exists h, a. repeat split.
    + apply lookup_insert_keep; [done | apply dep_home_score | done].
    + apply lookup_insert_keep; [done | apply dep_away_score | done].
    + intros Hc. apply lookup_insert_keep; [done | apply dep_home | auto].
    + intros Hc. apply lookup_insert_keep; [done | apply dep_away | auto].
    + done.
  - by apply Hsu.
  - destruct (Hsu H) as (_ & h & gi & Hdoc & Hp & Hv).
    exists h, gi. repeat split; try done.
    apply lookup_insert_keep; [done | apply dep_get_doc | done].
  - by apply Hwe.
  - destruct (Hwe H) as (_ & h & gi & Hdoc & Hp & Hv).
    exists h, gi. repeat split; try done.
    apply lookup_insert_keep; [done | apply dep_get_doc | done].
Qed.

(** Entries of the other operations carry no obligation. *)
Lemma entry_ok_other c k v :
  k.1.2 ≠ "date" → k.1.2 ≠ "season" → k.1.2 ≠ "winner" →
  k.1.2 ≠ "surface" → k.1.2 ≠ "weather" → entry_ok c k v.
Proof. destruct k as [[id op] args]. simpl. intros. by repeat split. Qed.

Lemma has_class_adds P st st' self k :
  only_adds P st st' → has_class st self k → has_class st' self k.
Proof.
  intros (_ & _ & H) (e & He & Hc). specialize (H self). rewrite He in H.
  destruct H as (e' & He' & Hc' & _). exists e'. split; [done | congruence].
Qed.

Lemma preserves_unchanged (I : state → Prop) {A} (m : M A) :
  (∀ st, (m st).2 = st) → preserves I m.
Proof. intros H st HI. unfold after. by rewrite H. Qed.

Lemma preserves_bind (I : state → Prop) {A B} (m : M A) (f : A → M B) :
  preserves I m → (∀ a, preserves I (f a)) → preserves I (bind m f).
Proof.
  intros Hm Hf st HI. unfold after, bind. specialize (Hm st HI).
  unfold after in Hm. destruct (m st) as [[a|e] s1]; simpl in *; [|done].
  by apply Hf.
Qed.

Lemma preserves_fetch self k url : preserves (sound_at self k) (fetch url).
Proof.
  intros st [Hs Hc]. unfold after, fetch.
  by destruct (get_html (length (fetches st)) url).
Qed.

Lemma call_key_nil_inv self op st k :
  decorators.call_key (Some self) op [] st = (Ok k, st) →
  ∃ id, k = (id, op, []) ∧ decorators.natural_key self st = (Ok id, st).
Proof.
  unfold decorators.call_key. intros H.
  apply bind_inv_ok in H as (id & s1 & Hid & H).
  pose proof (natural_key_inv _ _ _ _ Hid) as [-> _].
  injection H as <-. eauto.
Qed.

(** The rule for memoized methods: the body keeps the stores sound, does
    not add entries of the method itself, and its result satisfies the
    meaning of the entry. *)
Lemma sound_memoize self cls op args body :
  preserves (sound_at self cls) body →
  adds (λ o, o ≠ op) body →
  (∀ st k r st' e',
     sound_at self cls st →
     decorators.call_key (Some self) op args st = (Ok k, st) →
     body st = (Ok r, st') →
     sound_at self cls st' →
     heap st' !! self = Some e' →
     entry_ok (<[k := r]> (e_cache e')) k r) →
  preserves (sound_at self cls) (decorators.memoize (Some self) op args body).
Proof.
  intros Hb Ha Hnew st HJ. unfold after.
  destruct (memoize_run (Some self) op args body st)
    as [| | k e st' Hk Hl Hr | k r st' out Hk Hl Hr ->]; simpl; try done.
  - specialize (Hb st HJ). unfold after in Hb. by rewrite Hr in Hb.
  - pose proof (Hb st HJ) as HJ'. unfold after in HJ'. rewrite Hr in HJ'.
    simpl in HJ'. pose proof (Ha st) as Hadd. unfold after in Hadd.
    rewrite Hr in Hadd. simpl in Hadd.
    destruct HJ' as [Hs' (e1 & He1 & Hc1)].
    unfold decorators.cache_store. rewrite He1. simpl.
    assert (Hnone : e_cache e1 !! k = None).
    { apply cache_lookup_some_inv in Hl as (e0 & He0 & Hnone).
      destruct Hadd as (_ & _ & H). specialize (H self). rewrite He0 in H.
      destruct H as (e' & He' & _ & _ & Hks). rewrite He1 in He'.
      injection He' as <-. destruct (Hks k) as [E|[_ E]]; [congruence|].
      by apply call_key_op in Hk. }
    split.
    + intros l e k0 v0 Hl0 Hk0. simpl in Hl0.
      destruct (decide (l = self)) as [->|Hne].
      * rewrite lookup_insert_eq in Hl0. injection Hl0 as <-. simpl in *.
        destruct (decide (k0 = k)) as [->|Hk0'].
        -- rewrite lookup_insert_eq in Hk0. injection Hk0 as <-.
           eapply Hnew; eauto. split; [done|]. by exists e1.
        -- rewrite lookup_insert_ne in Hk0 by done.
           apply entry_ok_insert; [by left|]. by eapply Hs'.
      * rewrite lookup_insert_ne in Hl0 by done. by eapply Hs'.
    + eexists. simpl. rewrite lookup_insert_eq. by split.
Qed.

End Soundness.

Ltac pres_step :=
  first
    [ apply preserves_bind; [|intros ?]
    | apply preserves_fetch
    | apply preserves_unchanged; intros ?;
      first [ apply getattr_state | done
            | match goal with |- (as_doc ?v _).2 = _ => by destruct v end
            | match goal with |- (as_int ?v _).2 = _ => by destruct v end
            | match goal with |- (as_str ?v _).2 = _ => by destruct v end ]
    | match goal with
      | |- preserves _ (match ?x with _ => _ end) => destruct x
      end ].

Ltac trivial_entry :=
  let Hk := fresh "Hk" in
  intros ? ? ? ? ? _ Hk _ _ _; apply call_key_op in Hk;
  apply entry_ok_other; rewrite Hk; discriminate.

Section MethodsSound.
Context `{C : Collaborators}.
Context (self : loc).

Lemma get_doc_sound :
  preserves (sound_at self NFL_BoxScore) (nfl.BoxScore.get_doc self).
Proof.
  apply sound_memoize.
  - repeat pres_step.
  - repeat adds_step.
  - trivial_entry.
Qed.

Lemma home_sound :
  preserves (sound_at self NFL_BoxScore) (nfl.BoxScore.home self).
Proof.
  apply sound_memoize.
  - repeat first [apply get_doc_sound | pres_step].
  - repeat first [by apply get_doc_adds | adds_step].
  - trivial_entry.
Qed.

Lemma away_sound :
  preserves (sound_at self NFL_BoxScore) (nfl.BoxScore.away self).
Proof.
  apply sound_memoize.
  - repeat first [apply get_doc_sound | pres_step].
  - repeat first [by apply get_doc_adds | adds_step].
  - trivial_entry.
Qed.

Lemma home_score_sound :
  preserves (sound_at self NFL_BoxScore) (nfl.BoxScore.home_score self).
Proof.
  apply sound_memoize.
  - repeat first [apply get_doc_sound | pres_step].
  - repeat first [by apply get_doc_adds | adds_step].
  - trivial_entry.
Qed.

Lemma away_score_sound :
  preserves (sound_at self NFL_BoxScore) (nfl.BoxScore.away_score self).
Proof.
  apply sound_memoize.
  - repeat first [apply get_doc_sound | pres_step].
  - repeat first [by apply get_doc_adds | adds_step].
  - trivial_entry.
Qed.

Lemma roof_sound :
  preserves (sound_at self NFL_BoxScore) (nfl.BoxScore.roof self).
Proof.
  apply sound_memoize.
  - repeat first [apply get_doc_sound | pres_step].
  - repeat first [by apply get_doc_adds | adds_step].
  - trivial_entry.
Qed.

Lemma nfl_get_main_doc_sound :
  preserves (sound_at self NFL_Team) (nfl.Team.get_main_doc self).
Proof.
  apply sound_memoize.
  - repeat pres_step.
  - repeat adds_step.
  - trivial_entry.
Qed.

Lemma nfl_name_sound :
  preserves (sound_at self NFL_Team) (nfl.Team.name self).
Proof.
  apply sound_memoize.
  - repeat first [apply nfl_get_main_doc_sound | pres_step].
  - repeat first [by apply nfl_get_main_doc_adds | adds_step].
  - trivial_entry.
Qed.

Lemma nfl_team_year_url_sound y :
  preserves (sound_at self NFL_Team) (nfl.Team.team_year_url self y).
Proof.
  apply sound_memoize.
  - repeat pres_step.
  - repeat adds_step.
  - trivial_entry.
Qed.

Lemma nfl_get_year_doc_sound y :
  preserves (sound_at self NFL_Team) (nfl.Team.get_year_doc self y).
Proof.
  apply sound_memoize.
  - repeat first [apply nfl_team_year_url_sound | pres_step].
  - repeat first [by apply nfl_team_year_url_adds | adds_step].
  - trivial_entry.
Qed.

Lemma nba_get_main_doc_sound :
  preserves (sound_at self NBA_Team) (nba.Team.get_main_doc self).
Proof.
  apply sound_memoize.
  - repeat pres_step.
  - repeat adds_step.
  - trivial_entry.
Qed.

Lemma nba_name_sound :
  preserves (sound_at self NBA_Team) (nba.Team.name self).
Proof.
  apply sound_memoize.
  - repeat first [apply nba_get_main_doc_sound | pres_step].
  - repeat first [by apply nba_get_main_doc_adds | adds_step].
  - trivial_entry.
Qed.

End MethodsSound.

Section KeyedMethods.
Context `{C : Collaborators}.

Lemma entry_persists st st' self e k v :
  stable st st' → heap st !! self = Some e → e_cache e !! k = Some v →
  ∃ e', heap st' !! self = Some e' ∧ e_cache e' !! k = Some v.
Proof.
  intros [_ H] He Hv. destruct (H self e He) as (e' & He' & _ & _ & Hs).
  exists e'. split; [done|]. by eapply lookup_weaken.
Qed.

(** What is known after a memoized method without arguments returned. *)
Lemma method_call_facts self op body st r st1 id :
  adds (λ _, True) body →
  decorators.memoize (Some self) op [] body st = (Ok r, st1) →
  decorators.natural_key self st = (Ok id, st) →
  stable st st1 ∧
  decorators.natural_key self st1 = (Ok id, st1) ∧
  ∃ e1, heap st1 !! self = Some e1 ∧ e_cache e1 !! (id, op, []) = Some r.
Proof.
  intros Hadds Hrun Hid.
  assert (Hst : stable st st1).
  { eapply (only_adds_stable (λ _, True)).
    pose proof (adds_memoize (λ _, True) self op [] body I Hadds st) as H.
    unfold after in H. by rewrite Hrun in H. }
  split; [done|]. split; [by eapply natural_key_stable|].
  destruct (memoize_ok_entry _ _ _ _ _ _ _ Hrun) as (k & Hk & Hl).
  apply call_key_nil_inv in Hk as (id' & -> & Hid').
  rewrite Hid in Hid'. injection Hid' as <-.
  by apply cache_lookup_some_inv in Hl.
Qed.

Lemma date_of_id_is_date id d :
  nfl.BoxScore.date_of_id id = Ok d → ∃ y m dd, d = VDate y m dd.
Proof.
  unfold nfl.BoxScore.date_of_id, datetime_date.
  destruct id; try discriminate.
  destruct (match_date s) as [[[y m] dd]|]; [|discriminate].
  destruct (valid_date _ _ _); [|discriminate]. intros [= <-]. eauto.
Qed.

Lemma boxscore_key st self id :
  has_class st self NFL_BoxScore →
  decorators.natural_key self st = (Ok id, st) →
  getattr (Ref self) "boxscore_id" st = (Ok id, st).
Proof.
  intros (e & He & Hc) (_ & e' & He' & Hv)%natural_key_inv.
  rewrite He in He'. injection He' as <-. rewrite Hc in Hv.
  by eapply getattr_ref.
Qed.

Lemma date_sound self :
  preserves (sound_at self NFL_BoxScore) (nfl.BoxScore.date self).
Proof.
  apply sound_memoize.
  - repeat pres_step.
  - repeat adds_step.
  - intros st k r st' e' [Hs Hc] Hk Hb _ _.
    apply call_key_nil_inv in Hk as (id & -> & Hid).
    erewrite bind_ok in Hb by by apply boxscore_key.
    injection Hb as Hb _.
    unfold entry_ok. repeat split; try discriminate. done.
Qed.

Lemma date_call_sound self st d st1 id :
  sound_at self NFL_BoxScore st →
  decorators.natural_key self st = (Ok id, st) →
  nfl.BoxScore.date self st = (Ok d, st1) →
  nfl.BoxScore.date_of_id id = Ok d.
Proof.
  intros HJ Hid Hrun.
  pose proof (date_sound self st HJ) as [Hs1 _]. unfold after in Hs1.
  rewrite Hrun in Hs1. simpl in Hs1.
  eapply method_call_facts in Hrun as (_ & _ & e1 & He1 & Hd); [|..|done].
  2:{ repeat adds_step. }
  by apply (Hs1 self e1 _ _ He1 Hd).
Qed.

Lemma season_sound self :
  preserves (sound_at self NFL_BoxScore) (nfl.BoxScore.season self).
Proof.
  apply sound_memoize.
  - unfold nfl.BoxScore.season_of. repeat first [apply date_sound | pres_step].
  - unfold nfl.BoxScore.season_of. repeat first [by apply date_adds | adds_step].
  - intros st k r st' e' HJ Hk Hb _ _.
    apply call_key_nil_inv in Hk as (id & -> & Hid).
    apply bind_inv_ok in Hb as (d & s1 & Hd & Hb).
    pose proof (date_call_sound self st d s1 id HJ Hid Hd) as Hdate.
    destruct (date_of_id_is_date _ _ Hdate) as (y & m & dd & ->).
    injection Hb as <- _.
    unfold entry_ok. repeat split; try discriminate.
    intros _. by exists y, m, dd.
Qed.

Lemma surface_sound self :
  preserves (sound_at self NFL_BoxScore) (nfl.BoxScore.surface self).
Proof.
  apply sound_memoize.
  - repeat first [apply get_doc_sound | pres_step].
  - repeat first [by apply get_doc_adds | adds_step].
  - intros st k r st' e' HJ Hk Hb _ He'.
    apply call_key_nil_inv in Hk as (id & -> & Hid).
    apply bind_inv_ok in Hb as (doc & s1 & Hdoc & Hb).
    apply bind_inv_ok in Hb as (h & s2 & Hh & Hb).
    destruct doc; try discriminate. injection Hh as <- <-.
    apply bind_inv_ok in Hb as (gi & s3 & Hgi & Hb).
    injection Hgi as Hgi <-. injection Hb as <- <-.
    eapply method_call_facts in Hdoc as (_ & _ & e1 & He1 & Hd); [|..|done].
    2:{ repeat adds_step. }
    rewrite He' in He1. injection He1 as <-.
    unfold entry_ok. repeat split; try discriminate.
    exists html, gi. by rewrite lookup_insert_ne.
Qed.

Lemma weather_sound self :
  preserves (sound_at self NFL_BoxScore) (nfl.BoxScore.weather self).
Proof.
  apply sound_memoize.
  - repeat first [apply get_doc_sound | pres_step].
  - repeat first [by apply get_doc_adds | adds_step].
  - intros st k r st' e' HJ Hk Hb _ He'.
    apply call_key_nil_inv in Hk as (id & -> & Hid).
    apply bind_inv_ok in Hb as (doc & s1 & Hdoc & Hb).
    apply bind_inv_ok in Hb as (h & s2 & Hh & Hb).
    destruct doc; try discriminate. injection Hh as <- <-.
    apply bind_inv_ok in Hb as (gi & s3 & Hgi & Hb).
    injection Hgi as Hgi <-.
    eapply method_call_facts in Hdoc as (_ & _ & e1 & He1 & Hd); [|..|done].
    2:{ repeat adds_step. }
    assert (st' = s1 ∧ (gi !! "weather" = None → r = VDict nfl.BoxScore.dome_weather))
      as [-> Hr].
    { destruct (gi !! "weather"); injection Hb as <- <-; by split. }
    rewrite He' in He1. injection He1 as <-.
    unfold entry_ok. repeat split; try discriminate.
    exists html, gi. by rewrite lookup_insert_ne.
Qed.

End KeyedMethods.

Section Winner.
Context `{C : Collaborators}.

Lemma winner_entry (c : gmap callkey value) id r h a :
  c !! (id, "home_score", []) = Some (VInt h) →
  c !! (id, "away_score", []) = Some (VInt a) →
  (h > a → c !! (id, "home", []) = Some r) →
  (h < a → c !! (id, "away", []) = Some r) →
  (h = a → r = VNaN) →
  entry_ok (<[(id, "winner", []) := r]> c) (id, "winner", []) r.
Proof.
  intros Hh Ha Hgt Hlt Heq.
  unfold entry_ok. repeat split; try discriminate.
  exists h, a. rewrite !lookup_insert_ne by discriminate. done.
Qed.

Lemma winner_sound self :
  preserves (sound_at self NFL_BoxScore) (nfl.BoxScore.winner self).
Proof.
  apply sound_memoize.
  - repeat first
      [ apply home_score_sound | apply away_score_sound
      | apply home_sound | apply away_sound | pres_step ].
  - repeat first
      [ by apply home_score_adds | by apply away_score_adds
      | by apply home_adds | by apply away_adds | adds_step ].
  - intros st k r st' e' HJ Hk Hb _ He'.
    apply call_key_nil_inv in Hk as (id & -> & Hid).
    apply bind_inv_ok in Hb as (hm & s1 & H1 & Hb).
    apply bind_inv_ok in Hb as (aw & s2 & H2 & Hb).
    apply bind_inv_ok in Hb as (h & s3 & Hh & Hb).
    destruct hm as [| |h'| | | |]; try discriminate. injection Hh as <- <-.
    apply bind_inv_ok in Hb as (a & s3 & Ha & Hb).
    destruct aw as [| |a'| | | |]; try discriminate. injection Ha as <- <-.
    eapply method_call_facts in H1 as (_ & Hid1 & e1 & He1 & Hs1); [|..|done].
    2:{ repeat first [by apply get_doc_adds | adds_step]. }
    eapply method_call_facts in H2 as (St2 & Hid2 & e2 & He2 & Hs2); [|..|done].
    2:{ repeat first [by apply get_doc_adds | adds_step]. }
    destruct (entry_persists _ _ _ _ _ _ St2 He1 Hs1) as (e2' & He2' & Hs1').
    rewrite He2 in He2'. injection He2' as <-.
    destruct (Z.gtb_spec h' a') as [Hgt|Hle].
    + eapply method_call_facts in Hb as (St3 & _ & e3 & He3 & Hs3); [|..|done].
      2:{ repeat first [by apply get_doc_adds | adds_step]. }
      destruct (entry_persists _ _ _ _ _ _ St3 He2 Hs1') as (x & Hx & Hs1'').
      rewrite He3 in Hx. injection Hx as <-.
      destruct (entry_persists _ _ _ _ _ _ St3 He2 Hs2) as (x & Hx & Hs2').
      rewrite He3 in Hx. injection Hx as <-.
      rewrite He' in He3. injection He3 as <-.
      eapply winner_entry; eauto; lia.
    + destruct (Z.ltb_spec h' a') as [Hlt|Hge].
      * eapply method_call_facts in Hb as (St3 & _ & e3 & He3 & Hs3);
          [|..|done].
        2:{ repeat first [by apply get_doc_adds | adds_step]. }
        destruct (entry_persists _ _ _ _ _ _ St3 He2 Hs1') as (x & Hx & Hs1'').
        rewrite He3 in Hx. injection Hx as <-.
        destruct (entry_persists _ _ _ _ _ _ St3 He2 Hs2) as (x & Hx & Hs2').
        rewrite He3 in Hx. injection Hx as <-.
        rewrite He' in He3. injection He3 as <-.
        eapply winner_entry; eauto; lia.
      * injection Hb as <- <-. rewrite He' in He2. injection He2 as <-.
        eapply winner_entry; eauto; lia.
Qed.

End Winner.

(** ** Construction through the registry *)

Lemma get_or_create_run k attr key st :
  decorators.get_or_create k (λ self v, setattr self attr v) key st =
    match registry st !! (k, key) with
    | Some l => (Ok l, st)
    | None =>
        let l := fresh (dom (heap st)) in
        (Ok l, State (<[(k, key) := l]> (registry st))
                     (<[l := Entity k {[attr := key]} ∅]> (heap st))
                     (fcache st) (calls st) (fetches st))
    end.
Proof.
  unfold decorators.get_or_create.
  destruct (registry st !! (k, key)); [done|].
  unfold bind, decorators.alloc, setattr, decorators.register, set_entity, ret.
  simpl. rewrite lookup_insert_eq. simpl.
  by rewrite insert_insert_eq, insert_empty.
Qed.

Section Construction.
Context `{C : Collaborators}.

Lemma construct_run k key st :
  construct k key st =
    match registry st !! (k, key) with
    | Some l => (Ok l, st)
    | None =>
        let l := fresh (dom (heap st)) in
        (Ok l, State (<[(k, key) := l]> (registry st))
                     (<[l := Entity k {[key_attr k := key]} ∅]> (heap st))
                     (fcache st) (calls st) (fetches st))
    end.
Proof. destruct k; apply get_or_create_run. Qed.

Lemma fresh_loc_unused st : heap st !! fresh (dom (heap st)) = None.
Proof. apply not_elem_of_dom, is_fresh. Qed.

Lemma construct_sound k key st :
  cache_sound st → cache_sound (after (construct k key) st).
Proof.
  intros Hs. unfold after. rewrite construct_run.
  destruct (registry st !! (k, key)); [done|]. simpl.
  intros l e k0 v0 Hl Hk0. simpl in Hl.
  destruct (decide (l = fresh (dom (heap st)))) as [->|Hne].
  - rewrite lookup_insert_eq in Hl. injection Hl as <-. done.
  - rewrite lookup_insert_ne in Hl by done. by eapply Hs.
Qed.

Lemma construct_registry_ok k key st :
  registry_ok st → registry_ok (after (construct k key) st).
Proof.
  intros [Ha Hb]. unfold after. rewrite construct_run.
  destruct (registry st !! (k, key)) eqn:Hreg; [done|]. simpl.
  pose proof (fresh_loc_unused st) as Hfresh.
  split; simpl.
  - intros k' key' l Hl. destruct (decide ((k, key) = (k', key'))) as [[= <- <-]|Hne].
    + rewrite lookup_insert_eq in Hl. injection Hl as <-.
      rewrite lookup_insert_eq. eexists. split; [done|]. simpl.
      by rewrite lookup_singleton_eq.
    + rewrite lookup_insert_ne in Hl by done.
      destruct (Ha _ _ _ Hl) as (e & He & Hc & Hk).
      exists e. rewrite lookup_insert_ne; [done|]. congruence.
  - intros l e Hl.
    destruct (decide (l = fresh (dom (heap st)))) as [->|Hne].
    + rewrite lookup_insert_eq in Hl. injection Hl as <-. simpl.
      exists key. by rewrite lookup_insert_eq.
    + rewrite lookup_insert_ne in Hl by done.
      destruct (Hb _ _ Hl) as (key0 & Hk0). exists key0.
      rewrite lookup_insert_ne; [done|]. congruence.
Qed.

Lemma setattr_sound l attr v st :
  cache_sound st → cache_sound (after (setattr l attr v) st).
Proof.
  intros Hs. unfold after, setattr.
  destruct (heap st !! l) as [e|] eqn:He; [|done]. simpl.
  intros l' e' k0 v0 Hl Hk0. simpl in Hl.
  destruct (decide (l' = l)) as [->|Hne].
  - rewrite lookup_insert_eq in Hl. injection Hl as <-. simpl in *.
    by eapply Hs.
  - rewrite lookup_insert_ne in Hl by done. by eapply Hs.
Qed.

Lemma setattr_registry_ok l attr v st :
  attr ≠ "teamID" → attr ≠ "boxscore_id" →
  registry_ok st → registry_ok (after (setattr l attr v) st).
Proof.
  intros Hn1 Hn2 [Ha Hb]. unfold after, setattr.
  destruct (heap st !! l) as [e|] eqn:He; [|done]. simpl.
  split; simpl.
  - intros k key l' Hl. destruct (Ha _ _ _ Hl) as (e' & He' & Hc & Hk).
    destruct (decide (l' = l)) as [->|Hne].
    + rewrite lookup_insert_eq. eexists. split; [done|]. simpl.
      rewrite He in He'. injection He' as <-. split; [done|].
      rewrite lookup_insert_ne; [done|]. by destruct k.
    + rewrite lookup_insert_ne by done. eauto.
  - intros l' e' Hl. destruct (decide (l' = l)) as [->|Hne].
    + rewrite lookup_insert_eq in Hl. injection Hl as <-. simpl. eauto.
    + rewrite lookup_insert_ne in Hl by done. eauto.
Qed.

Lemma invoke_adds l m : adds (λ _, True) (invoke l m).
Proof.
  intros st. unfold after, invoke.
  destruct (heap st !! l) as [e|]; [|apply only_adds_refl].
  destruct (e_cls e), m; try apply only_adds_refl.
  - by apply nfl_get_main_doc_adds.
  - by apply nfl_name_adds.
  - by apply nfl_team_year_url_adds.
  - by apply nfl_get_year_doc_adds.
  - by apply nba_get_main_doc_adds.
  - by apply nba_name_adds.
  - by apply get_doc_adds.
  - by apply date_adds.
  - by apply season_adds.
  - by apply home_adds.
  - by apply away_adds.
  - by apply home_score_adds.
  - by apply away_score_adds.
  - by apply winner_adds.
  - by apply surface_adds.
  - by apply roof_adds.
  - by apply weather_adds.
Qed.

Lemma invoke_sound l m st :
  cache_sound st → cache_sound (after (invoke l m) st).
Proof.
  intros Hs. unfold after, invoke.
  destruct (heap st !! l) as [e|] eqn:He; [|done].
  assert (HJ : sound_at l (e_cls e) st) by (split; [done | by exists e]).
  destruct (e_cls e), m; try done.
  - by apply nfl_get_main_doc_sound.
  - by apply nfl_name_sound.
  - by apply nfl_team_year_url_sound.
  - by apply nfl_get_year_doc_sound.
  - by apply nba_get_main_doc_sound.
  - by apply nba_name_sound.
  - by apply get_doc_sound.
  - by apply date_sound.
  - by apply season_sound.
  - by apply home_sound.
  - by apply away_sound.
  - by apply home_score_sound.
  - by apply away_score_sound.
  - by apply winner_sound.
  - by apply surface_sound.
  - by apply roof_sound.
  - by apply weather_sound.
Qed.

Lemma registry_ok_only_adds P st st' :
  only_adds P st st' → registry_ok st → registry_ok st'.
Proof.
  intros (Hr & _ & H) [Ha Hb]. split.
  - intros k key l Hl. rewrite Hr in Hl.
    destruct (Ha _ _ _ Hl) as (e & He & Hc & Hk).
    specialize (H l). rewrite He in H.
    destruct H as (e' & He' & Hc' & Ha' & _). exists e'.
    split; [done|]. split; [congruence|]. by rewrite Ha'.
  - intros l e' He'. specialize (H l).
    destruct (heap st !! l) as [e|] eqn:He; [|congruence].
    destruct H as (e'' & He'' & Hc' & _). rewrite He' in He''.
    injection He'' as <-. destruct (Hb _ _ He) as (key & Hk).
    exists key. by rewrite Hr, Hc'.
Qed.

(** Every client action keeps the stores sound and the registry exact. *)
Lemma perform_invariant a st :
  action_ok a →
  cache_sound st ∧ registry_ok st →
  cache_sound (perform a st) ∧ registry_ok (perform a st).
Proof.
  intros Hok [Hs Hr]. destruct a as [k key | l attr v | l m]; simpl.
  - split; [by apply construct_sound | by apply construct_registry_ok].
  - destruct Hok. split; [by apply setattr_sound | by apply setattr_registry_ok].
  - split; [by apply invoke_sound|].
    eapply registry_ok_only_adds; [apply invoke_adds | done].
Qed.

Lemma init_invariant : cache_sound init ∧ registry_ok init.
Proof.
  split; [done|]. split; intros *; simpl; rewrite lookup_empty; discriminate.
Qed.

Lemma reachable_invariant st :
  reachable st → cache_sound st ∧ registry_ok st.
Proof.
  unfold reachable. intros H.
  eapply (rtc_ind_r (λ s, cache_sound s ∧ registry_ok s));
    [apply init_invariant | | exact H].
  intros y z _ (a & Hok & ->) IH. by apply perform_invariant.
Qed.

End Construction.

(** ** Calling a method on an entity *)

Section Calls.
Context `{C : Collaborators}.

Lemma cache_store_ok self k r st e :
  heap st !! self = Some e →
  decorators.cache_store (Some self) k r st =
    (Ok tt, set_entity self
              (Entity (e_cls e) (e_attrs e) (<[k := r]> (e_cache e))) st).
Proof. unfold decorators.cache_store. by intros ->. Qed.

Lemma call_key_nil self op st id :
  decorators.natural_key self st = (Ok id, st) →
  decorators.call_key (Some self) op [] st = (Ok (id, op, []), st).
Proof.
  intros Hid. unfold decorators.call_key. by erewrite bind_ok by done.
Qed.

Lemma cache_lookup_self self k st e :
  heap st !! self = Some e →
  decorators.cache_lookup (Some self) k st = (Ok (e_cache e !! k), st).
Proof. unfold decorators.cache_lookup. by intros ->. Qed.

(** A method without arguments, called on an entity that has its key:
    either its entry is there and is returned, or the body runs, and its
    result, if any, is returned. *)
Lemma method_run self op body st e id :
  adds (λ _, True) body →
  heap st !! self = Some e →
  e_attrs e !! key_attr (e_cls e) = Some id →
  match e_cache e !! (id, op, []) with
  | Some r => decorators.memoize (Some self) op [] body st = (Ok r, st)
  | None =>
      match body st with
      | (Ok r, st') =>
          ∃ e', heap st' !! self = Some e' ∧
                decorators.memoize (Some self) op [] body st =
                  (Ok r, set_entity self
                           (Entity (e_cls e') (e_attrs e')
                                   (<[(id, op, []) := r]> (e_cache e'))) st')
      | (Raise err, st') =>
          decorators.memoize (Some self) op [] body st = (Raise err, st')
      end
  end.
Proof.
  intros Hadds He Hid.
  pose proof (natural_key_intro _ _ _ _ He Hid) as Hnk.
  pose proof (call_key_nil self op st id Hnk) as Hk.
  pose proof (cache_lookup_self self (id, op, []) st e He) as Hl.
  unfold decorators.memoize.
  erewrite bind_ok by done. erewrite bind_ok by done.
  destruct (e_cache e !! (id, op, [])) as [r|]; [done|].
  pose proof (Hadds st) as (_ & _ & H). specialize (H self). rewrite He in H.
  unfold after in H.
  destruct (body st) as [[r|err] st'] eqn:Hb; simpl in H.
  - destruct H as (e' & He' & _). erewrite bind_ok by done.
    erewrite bind_ok by by apply cache_store_ok. by exists e'.
  - by erewrite bind_raise by done.
Qed.

Lemma method_hit self op body st e id r :
  heap st !! self = Some e →
  e_attrs e !! key_attr (e_cls e) = Some id →
  e_cache e !! (id, op, []) = Some r →
  decorators.memoize (Some self) op [] body st = (Ok r, st).
Proof.
  intros He Hid Hr. eapply memoize_hit.
  - apply call_key_nil. by eapply natural_key_intro.
  - erewrite cache_lookup_self by done. by rewrite Hr.
Qed.

(** After a method returned, calling it again is a hit. *)
Lemma method_again self op body body' st r st1 :
  adds (λ _, True) body →
  decorators.memoize (Some self) op [] body st = (Ok r, st1) →
  decorators.memoize (Some self) op [] body' st1 = (Ok r, st1).
Proof.
  intros Hadds Hrun.
  destruct (memoize_ok_entry _ _ _ _ _ _ _ Hrun) as (k & Hk & Hl).
  pose proof (call_key_nil_inv _ _ _ _ Hk) as (id & -> & Hid).
  destruct (method_call_facts _ _ _ _ _ _ _ Hadds Hrun Hid)
    as (_ & Hid1 & e1 & He1 & Hr1).
  apply natural_key_inv in Hid1 as (_ & e1' & He1' & Hk1).
  rewrite He1 in He1'. injection He1' as <-.
  by eapply method_hit.
Qed.

End Calls.

(** ** The date prefix of a box score identifier *)

Lemma string_app_cons x (a b : string) : String x a ++ b = String x (a ++ b).
Proof. reflexivity. Qed.

Lemma string_app_nil (b : string) : "" ++ b = b.
Proof. reflexivity. Qed.

Lemma string_app_assoc (a b c : string) : (a ++ b) ++ c = a ++ b ++ c.
Proof.
  induction a as [|x a IH]; [done|]. rewrite !string_app_cons. by f_equal.
Qed.

Lemma string_app_length (a b : string) :
  String.length (a ++ b) = (String.length a + String.length b)%nat.
Proof.
  induction a as [|x a IH]; [done|]. rewrite string_app_cons. simpl.
  by f_equal.
Qed.

Lemma all_digits_app (a b : string) :
  all_digits (a ++ b) = all_digits a && all_digits b.
Proof.
  induction a as [|x a IH]; [done|]. rewrite string_app_cons. simpl.
  by rewrite IH, andb_assoc.
Qed.

Lemma take_digits_app n g r :
  String.length g = n → all_digits g = true →
  take_digits n (g ++ r) = Some (g, r).
Proof.
  revert g. induction n as [|n IH]; intros [|x g]; simpl; try done.
  intros [= Hlen] [Hx Hg]%andb_prop. rewrite Hx. by rewrite IH.
Qed.

Lemma take_digits_inv n s g r :
  take_digits n s = Some (g, r) →
  s = g ++ r ∧ String.length g = n ∧ all_digits g = true.
Proof.
  revert s g. induction n as [|n IH]; intros s g; simpl.
  - by intros [= <- <-].
  - destruct s as [|x s]; [discriminate|].
    destruct (is_digit x) eqn:Hx; [|discriminate].
    destruct (take_digits n s) as [[g' r']|] eqn:Ht; [|discriminate].
    intros [= <- <-]. destruct (IH _ _ Ht) as (-> & <- & Hg).
    rewrite string_app_cons. simpl. by rewrite Hx, Hg.
Qed.

(** The regular expression matches exactly the strings that start with
    eight digits, and its groups are the first four, next two and next two
    of them. *)
Lemma match_date_intro y m d rest :
  String.length y = 4%nat → String.length m = 2%nat →
  String.length d = 2%nat → all_digits (y ++ m ++ d) = true →
  match_date (y ++ m ++ d ++ rest) = Some (y, m, d).
Proof.
  intros Hy Hm Hd Hall. rewrite !all_digits_app in Hall.
  apply andb_prop in Hall as [Hdy Hall]. apply andb_prop in Hall as [Hdm Hdd].
  unfold match_date.
  rewrite (take_digits_app 4 y _ Hy Hdy).
  rewrite (take_digits_app 2 m _ Hm Hdm).
  by rewrite (take_digits_app 2 d _ Hd Hdd).
Qed.

Lemma match_date_inv s y m d :
  match_date s = Some (y, m, d) →
  ∃ rest, s = (y ++ m ++ d) ++ rest ∧
          String.length (y ++ m ++ d) = 8%nat ∧
          all_digits (y ++ m ++ d) = true.
Proof.
  unfold match_date.
  destruct (take_digits 4 s) as [[y' r1]|] eqn:H1; [|discriminate].
  destruct (take_digits 2 r1) as [[m' r2]|] eqn:H2; [|discriminate].
  destruct (take_digits 2 r2) as [[d' r3]|] eqn:H3; [|discriminate].
  intros [= <- <- <-].
  apply take_digits_inv in H1 as (-> & Hy & Hdy).
  apply take_digits_inv in H2 as (-> & Hm & Hdm).
  apply take_digits_inv in H3 as (-> & Hd & Hdd).
  exists r3. split; [|split].
  - by rewrite !string_app_assoc.
  - rewrite !string_app_length. lia.
  - rewrite !all_digits_app. by rewrite Hdy, Hdm, Hdd.
Qed.

Lemma match_date_none s :
  (∀ ds rest, s = ds ++ rest → String.length ds = 8%nat →
              all_digits ds = false) →
  match_date s = None.
Proof.
  intros Hno. destruct (match_date s) as [[[y m] d]|] eqn:Hm; [|done].
  apply match_date_inv in Hm as (rest & Hs & Hlen & Hall).
  by rewrite (Hno _ _ Hs Hlen) in Hall.
Qed.

Section DateSeason.
Context `{C : Collaborators}.

(** In a sound state [date()] returns, or raises, what its body computes
    from the identifier; a call that raises leaves the state as it was. *)
Lemma date_run self st e id :
  cache_sound st →
  heap st !! self = Some e → e_cls e = NFL_BoxScore →
  e_attrs e !! "boxscore_id" = Some id →
  outcome (nfl.BoxScore.date self) st = nfl.BoxScore.date_of_id id ∧
  (∀ err, nfl.BoxScore.date_of_id id = Raise err →
          nfl.BoxScore.date self st = (Raise err, st)).
Proof.
  intros Hs He Hc Hid.
  assert (Hid' : e_attrs e !! key_attr (e_cls e) = Some id) by by rewrite Hc.
  pose proof (method_run self "date"
    (id <- getattr (Ref self) "boxscore_id" ;;
     lift (nfl.BoxScore.date_of_id id)) st e id) as Hrun.
  assert (Hbody : (id <- getattr (Ref self) "boxscore_id" ;;
                   lift (nfl.BoxScore.date_of_id id)) st
                  = (nfl.BoxScore.date_of_id id, st)).
  { by erewrite bind_ok by by eapply getattr_ref. }
  rewrite Hbody in Hrun.
  specialize (Hrun ltac:(repeat adds_step) He Hid').
  unfold outcome, nfl.BoxScore.date.
  destruct (e_cache e !! (id, "date", [])) as [r|] eqn:Hr.
  - pose proof (Hs self e _ _ He Hr) as (Hd & _). specialize (Hd eq_refl).
    rewrite Hrun. simpl. split; [done|]. intros err Herr. congruence.
  - destruct (nfl.BoxScore.date_of_id id) as [r|err].
    + destruct Hrun as (? & ? & ->). split; [done|]. discriminate.
    + rewrite Hrun. split; [done|]. by intros ? [= <-].
Qed.

Lemma season_run self st e id y m d :
  cache_sound st →
  heap st !! self = Some e → e_cls e = NFL_BoxScore →
  e_attrs e !! "boxscore_id" = Some id →
  nfl.BoxScore.date_of_id id = Ok (VDate y m d) →
  outcome (nfl.BoxScore.season self) st
    = Ok (VInt (if m <=? 3 then y - 1 else y)).
Proof.
  intros Hs He Hc Hid Hdate.
  assert (Hid' : e_attrs e !! key_attr (e_cls e) = Some id) by by rewrite Hc.
  pose proof (method_run self "season"
    (date <- nfl.BoxScore.date self ;; nfl.BoxScore.season_of date)
    st e id) as Hrun.
  specialize (Hrun ltac:(unfold nfl.BoxScore.season_of;
                         repeat first [by apply date_adds | adds_step])
                   He Hid').
  unfold outcome, nfl.BoxScore.season, nfl.BoxScore.season_of in *.
  destruct (e_cache e !! (id, "season", [])) as [r|] eqn:Hr.
  - pose proof (Hs self e _ _ He Hr) as (_ & Hse & _).
    destruct (Hse eq_refl) as (y' & m' & d' & Hd' & ->).
    rewrite Hrun. simpl. rewrite Hdate in Hd'. by injection Hd' as <- <- <-.
  - destruct (date_run self st e id Hs He Hc Hid) as [Hout _].
    unfold outcome in Hout. rewrite Hdate in Hout.
    destruct (nfl.BoxScore.date self st) as [res s1] eqn:Hd. simpl in Hout.
    subst res. erewrite bind_ok in Hrun by done. simpl in Hrun.
    by destruct Hrun as (? & ? & ->).
Qed.

(** C9: in every reachable state, for a [BoxScore] whose identifier starts
    with eight decimal digits YYYYMMDD that form a calendar date, [date()]
    returns that date and [season()] returns the year before it for the
    months January to March and its year otherwise; for an identifier
    without eight leading digits, [date()] raises ([AttributeError]) and
    returns nothing, and so it does ([ValueError]) when the eight digits
    are not a calendar date. *)
Theorem date_and_season st self e s :
  reachable st →
  heap st !! self = Some e → e_cls e = NFL_BoxScore →
  e_attrs e !! "boxscore_id" = Some (VStr s) →
  (∀ y m d rest,
     s = y ++ m ++ d ++ rest →
     String.length y = 4%nat → String.length m = 2%nat →
     String.length d = 2%nat → all_digits (y ++ m ++ d) = true →
     valid_date (py_int y) (py_int m) (py_int d) = true →
     outcome (nfl.BoxScore.date self) st
       = Ok (VDate (py_int y) (py_int m) (py_int d)) ∧
     outcome (nfl.BoxScore.season self) st
       = Ok (VInt (if py_int m <=? 3 then py_int y - 1 else py_int y))) ∧
  ((∀ ds rest, s = ds ++ rest → String.length ds = 8%nat →
               all_digits ds = false) →
   nfl.BoxScore.date self st = (Raise AttributeError, st)) ∧
  (∀ y m d rest,
     s = y ++ m ++ d ++ rest →
     String.length y = 4%nat → String.length m = 2%nat →
     String.length d = 2%nat → all_digits (y ++ m ++ d) = true →
     valid_date (py_int y) (py_int m) (py_int d) = false →
     nfl.BoxScore.date self st = (Raise ValueError, st)).
Proof.
  intros [Hs _]%reachable_invariant He Hc Hid.
  destruct (date_run self st e (VStr s) Hs He Hc Hid) as [Hout Hraise].
  split.
  - intros y m d rest -> Hy Hm Hd Hall Hvalid.
    assert (Hdate : nfl.BoxScore.date_of_id (VStr (y ++ m ++ d ++ rest))
                    = Ok (VDate (py_int y) (py_int m) (py_int d))).
    { unfold nfl.BoxScore.date_of_id, datetime_date.
      rewrite (match_date_intro y m d rest Hy Hm Hd Hall). by rewrite Hvalid. }
    split; [by rewrite Hout|]. by eapply season_run.
  - split.
    + intros Hno. apply Hraise. unfold nfl.BoxScore.date_of_id.
      by rewrite (match_date_none s Hno).
    + intros y m d rest -> Hy Hm Hd Hall Hinvalid. apply Hraise.
      unfold nfl.BoxScore.date_of_id, datetime_date.
      rewrite (match_date_intro y m d rest Hy Hm Hd Hall).
      by rewrite Hinvalid.
Qed.

End DateSeason.

(** ** The winner of a game *)

Section WinnerClaim.
Context `{C : Collaborators}.

(** Once the two scores have been returned, [winner()] has the outcome of
    the branch they select. *)
Lemma winner_after_scores st self e h a st1 st2 :
  reachable st →
  heap st !! self = Some e → e_cls e = NFL_BoxScore →
  nfl.BoxScore.home_score self st = (Ok (VInt h), st1) →
  nfl.BoxScore.away_score self st1 = (Ok (VInt a), st2) →
  (h > a → outcome (nfl.BoxScore.winner self) st2
           = outcome (nfl.BoxScore.home self) st2) ∧
  (h < a → outcome (nfl.BoxScore.winner self) st2
           = outcome (nfl.BoxScore.away self) st2) ∧
  (h = a → outcome (nfl.BoxScore.winner self) st2 = Ok VNaN).
Proof.
  intros [Hs _]%reachable_invariant He Hc H1 H2.
  assert (HJ : sound_at self NFL_BoxScore st) by (split; [done | by exists e]).
  pose proof (home_score_sound self st HJ) as HJ1. unfold after in HJ1.
  rewrite H1 in HJ1. simpl in HJ1.
  pose proof (away_score_sound self st1 HJ1) as [Hs2 _]. unfold after in Hs2.
  rewrite H2 in Hs2. simpl in Hs2.
  destruct (memoize_ok_entry _ _ _ _ _ _ _ H1) as (k & Hk & _).
  apply call_key_nil_inv in Hk as (id & _ & Hid).
  eapply method_call_facts in H1 as (_ & Hid1 & e1 & He1 & Hh1); [|..|done].
  2:{ repeat first [by apply get_doc_adds | adds_step]. }
  eapply method_call_facts in H2 as (St2 & Hid2 & e2 & He2 & Ha2); [|..|done].
  2:{ repeat first [by apply get_doc_adds | adds_step]. }
  destruct (entry_persists _ _ _ _ _ _ St2 He1 Hh1) as (x & Hx & Hh2).
  rewrite He2 in Hx. injection Hx as <-.
  apply natural_key_inv in Hid2 as (_ & x & Hx & Hk2).
  rewrite He2 in Hx. injection Hx as <-.
  assert (Hhome : ∀ w, e_cache e2 !! (id, "home", []) = Some w →
                       outcome (nfl.BoxScore.home self) st2 = Ok w).
  { intros w Hw. unfold outcome, nfl.BoxScore.home.
    by erewrite method_hit by done. }
  assert (Haway : ∀ w, e_cache e2 !! (id, "away", []) = Some w →
                       outcome (nfl.BoxScore.away self) st2 = Ok w).
  { intros w Hw. unfold outcome, nfl.BoxScore.away.
    by erewrite method_hit by done. }
  unfold outcome at 1 3 5. unfold nfl.BoxScore.winner.
  match goal with
  | |- context [decorators.memoize (Some self) "winner" [] ?b] =>
      pose proof (method_run self "winner" b st2 e2 id) as Hrun;
      assert (Hbody : b st2 =
                (if h >? a then nfl.BoxScore.home self
                 else if h <? a then nfl.BoxScore.away self
                 else ret VNaN) st2)
  end.
  { erewrite bind_ok by (unfold nfl.BoxScore.home_score; by eapply method_hit).
    erewrite bind_ok by (unfold nfl.BoxScore.away_score; by eapply method_hit).
    done. }
  rewrite Hbody in Hrun. clear Hbody.
  specialize (Hrun ltac:(repeat first
      [ by apply home_score_adds | by apply away_score_adds
      | by apply home_adds | by apply away_adds | adds_step ]) He2 Hk2).
  destruct (e_cache e2 !! (id, "winner", [])) as [w|] eqn:Hw.
  - rewrite Hrun. simpl.
    pose proof (Hs2 self e2 _ _ He2 Hw) as (_ & _ & Hwin & _).
    destruct (Hwin eq_refl) as (_ & h' & a' & Hh' & Ha' & Hgt & Hlt & Heq).
    rewrite Hh2 in Hh'. injection Hh' as <-.
    rewrite Ha2 in Ha'. injection Ha' as <-.
    repeat split.
    + intros Hc'. symmetry. by apply Hhome, Hgt.
    + intros Hc'. symmetry. by apply Haway, Hlt.
    + intros Hc'. by rewrite (Heq Hc').
  - repeat split; intros Hcmp.
    + assert ((h >? a) = true) as Hb by lia. rewrite Hb in Hrun.
      unfold outcome.
      destruct (nfl.BoxScore.home self st2) as [[r|err] st'].
      * by destruct Hrun as (? & ? & ->).
      * by rewrite Hrun.
    + assert ((h >? a) = false) as Hb by lia.
      assert ((h <? a) = true) as Hb' by lia. rewrite Hb, Hb' in Hrun.
      unfold outcome.
      destruct (nfl.BoxScore.away self st2) as [[r|err] st'].
      * by destruct Hrun as (? & ? & ->).
      * by rewrite Hrun.
    + assert ((h >? a) = false) as Hb by lia.
      assert ((h <? a) = false) as Hb' by lia. rewrite Hb, Hb' in Hrun.
      simpl in Hrun. by destruct Hrun as (? & ? & ->).
Qed.

(** A winner that has been returned agrees with the scores and team
    identifiers that the other methods return from then on. *)
Lemma winner_result st self e w st' :
  reachable st →
  heap st !! self = Some e → e_cls e = NFL_BoxScore →
  nfl.BoxScore.winner self st = (Ok w, st') →
  ∃ h a,
    nfl.BoxScore.home_score self st' = (Ok (VInt h), st') ∧
    nfl.BoxScore.away_score self st' = (Ok (VInt a), st') ∧
    (h > a → nfl.BoxScore.home self st' = (Ok w, st')) ∧
    (h < a → nfl.BoxScore.away self st' = (Ok w, st')) ∧
    (h = a → w = VNaN).
Proof.
  intros [Hs _]%reachable_invariant He Hc Hrun.
  assert (HJ : sound_at self NFL_BoxScore st) by (split; [done | by exists e]).
  pose proof (winner_sound self st HJ) as [Hs' _]. unfold after in Hs'.
  rewrite Hrun in Hs'. simpl in Hs'.
  destruct (memoize_ok_entry _ _ _ _ _ _ _ Hrun) as (k & Hk & _).
  apply call_key_nil_inv in Hk as (id & _ & Hid).
  eapply method_call_facts in Hrun as (_ & Hid' & e' & He' & Hw); [|..|done].
  2:{ repeat first
        [ by apply home_score_adds | by apply away_score_adds
        | by apply home_adds | by apply away_adds | adds_step ]. }
  apply natural_key_inv in Hid' as (_ & x & Hx & Hk').
  rewrite He' in Hx. injection Hx as <-.
  pose proof (Hs' self e' _ _ He' Hw) as (_ & _ & Hwin & _).
  destruct (Hwin eq_refl) as (_ & h & a & Hh & Ha & Hgt & Hlt & Heq).
  exists h, a. repeat split.
  - unfold nfl.BoxScore.home_score. by eapply method_hit.
  - unfold nfl.BoxScore.away_score. by eapply method_hit.
  - intros Hcmp. unfold nfl.BoxScore.home. eapply method_hit; eauto.
  - intros Hcmp. unfold nfl.BoxScore.away. eapply method_hit; eauto.
  - done.
Qed.

(** C8: in every reachable state, for every [BoxScore]: once
    [home_score()] and [away_score()] have returned the two scores,
    [winner()] gives what [home()] gives when the home score is strictly
    greater, what [away()] gives when it is strictly smaller, and NaN when
    the scores are equal; and a winner that [winner()] has returned is what
    [home()] returns from then on when the home score is strictly greater,
    what [away()] returns when it is strictly smaller, and NaN on a tie. *)
Theorem winner_follows_scores st self e :
  reachable st →
  heap st !! self = Some e → e_cls e = NFL_BoxScore →
  (∀ h a st1 st2,
     nfl.BoxScore.home_score self st = (Ok (VInt h), st1) →
     nfl.BoxScore.away_score self st1 = (Ok (VInt a), st2) →
     (h > a → outcome (nfl.BoxScore.winner self) st2
              = outcome (nfl.BoxScore.home self) st2) ∧
     (h < a → outcome (nfl.BoxScore.winner self) st2
              = outcome (nfl.BoxScore.away self) st2) ∧
     (h = a → outcome (nfl.BoxScore.winner self) st2 = Ok VNaN)) ∧
  (∀ w st',
     nfl.BoxScore.winner self st = (Ok w, st') →
     ∃ h a,
       nfl.BoxScore.home_score self st' = (Ok (VInt h), st') ∧
       nfl.BoxScore.away_score self st' = (Ok (VInt a), st') ∧
       (h > a → nfl.BoxScore.home self st' = (Ok w, st')) ∧
       (h < a → nfl.BoxScore.away self st' = (Ok w, st')) ∧
       (h = a → w = VNaN)).
Proof.
  intros Hreach He Hc. split.
  - intros h a st1 st2. by eapply winner_after_scores.
  - intros w st'. by eapply winner_result.
Qed.

End WinnerClaim.

(** ** Fetch failures are not cached *)

Section FetchFailure.
Context `{C : Collaborators}.

Lemma memoized_fetch_retry self op attr (mkurl : value → string) st e id :
  heap st !! self = Some e →
  key_attr (e_cls e) = attr →
  e_attrs e !! attr = Some id →
  e_cache e !! (id, op, []) = None →
  get_html (length (fetches st)) (mkurl id) = None →
  fails_then_retries
    (decorators.memoize (Some self) op []
       (id <- getattr (Ref self) attr ;;
        html <- fetch (mkurl id) ;;
        ret (VDoc html)))
    (mkurl id) st.
Proof.
  intros He Hattr Hid Hnone Hfail.
  set (body := (id <- getattr (Ref self) attr ;;
                html <- fetch (mkurl id) ;; ret (VDoc html))).
  assert (Hadds : adds (λ _, True) body) by (unfold body; repeat adds_step).
  assert (Hk : e_attrs e !! key_attr (e_cls e) = Some id) by by rewrite Hattr.
  set (st1 := State (registry st) (heap st) (fcache st) (calls st)
                    (fetches st ++ [mkurl id])%list).
  assert (Hb : body st = (Raise FetchFailed, st1)).
  { unfold body. erewrite bind_ok by by eapply getattr_ref.
    unfold bind, fetch. by rewrite Hfail. }
  pose proof (method_run self op body st e id Hadds He Hk) as Hrun.
  rewrite Hnone, Hb in Hrun.
  exists st1. split; [done|]. split; [done|]. split; [done|].
  intros html Hok.
  set (st1' := State (registry st) (heap st) (fcache st) (calls st)
                     (fetches st1 ++ [mkurl id])%list).
  assert (Hb1 : body st1 = (Ok (VDoc html), st1')).
  { unfold body. erewrite bind_ok by by eapply getattr_ref.
    unfold bind, fetch. by rewrite Hok. }
  pose proof (method_run self op body st1 e id Hadds He Hk) as Hrun1.
  rewrite Hnone, Hb1 in Hrun1. destruct Hrun1 as (e' & He' & Hrun1).
  eexists. split; [exact Hrun1|]. split; [done|].
  by eapply method_again.
Qed.

(** C6: a [FetchFailed] raised while a memoized document fetch runs is not
    stored.  For [BoxScore.get_doc] and [Team.get_main_doc] on an entity
    whose document is not stored yet: when the request fails the call
    raises [FetchFailed] and leaves the stores as they were; the next call
    makes the request again, and when that one succeeds the document is
    returned and stored, so that the call after it is a hit. *)
Theorem fetch_failure_not_cached st self e id :
  heap st !! self = Some e →
  e_attrs e !! key_attr (e_cls e) = Some id →
  (e_cls e = NFL_BoxScore →
   e_cache e !! (id, "get_doc", []) = None →
   get_html (length (fetches st))
     (nfl_BASE_URL ++ "/boxscores/" ++ py_str id ++ ".htm") = None →
   fails_then_retries (nfl.BoxScore.get_doc self)
     (nfl_BASE_URL ++ "/boxscores/" ++ py_str id ++ ".htm") st) ∧
  (e_cls e = NFL_Team →
   e_cache e !! (id, "get_main_doc", []) = None →
   get_html (length (fetches st))
     (nfl_BASE_URL ++ "/teams/" ++ py_str id) = None →
   fails_then_retries (nfl.Team.get_main_doc self)
     (nfl_BASE_URL ++ "/teams/" ++ py_str id) st).
Proof.
  intros He Hid. split; intros Hc Hnone Hfail; rewrite Hc in Hid.
  - by apply (memoized_fetch_retry self "get_doc" "boxscore_id"
      (λ id, nfl_BASE_URL ++ "/boxscores/" ++ py_str id ++ ".htm") st e id
      He ltac:(by rewrite Hc) Hid Hnone Hfail).
  - by apply (memoized_fetch_retry self "get_main_doc" "teamID"
      (λ id, nfl_BASE_URL ++ "/teams/" ++ py_str id) st e id
      He ltac:(by rewrite Hc) Hid Hnone Hfail).
Qed.

End FetchFailure.

(** ** Fields that a page does not have *)

Section AbsentFields.
Context `{C : Collaborators}.

(** C5, as the code has it: when the game-info table has no entry for the
    field, [surface()] returns the NaN sentinel, while [weather()] returns
    the fixed dome dictionary (70 degrees, no wind) and not a sentinel;
    either result is stored, and the next call returns it from the store
    without touching the state. *)
Theorem absent_field_results st self e h gi st1 :
  reachable st →
  heap st !! self = Some e → e_cls e = NFL_BoxScore →
  nfl.BoxScore.get_doc self st = (Ok (VDoc h), st1) →
  parse_info_table h = Ok gi →
  (gi !! "surface" = None →
   ∃ st2, nfl.BoxScore.surface self st1 = (Ok VNaN, st2) ∧
          nfl.BoxScore.surface self st2 = (Ok VNaN, st2)) ∧
  (gi !! "weather" = None →
   ∃ st2, nfl.BoxScore.weather self st1
            = (Ok (VDict nfl.BoxScore.dome_weather), st2) ∧
          nfl.BoxScore.weather self st2
            = (Ok (VDict nfl.BoxScore.dome_weather), st2)).
Proof.
  intros [Hs _]%reachable_invariant He Hc Hdoc Hgi.
  assert (HJ : sound_at self NFL_BoxScore st) by (split; [done | by exists e]).
  pose proof (get_doc_sound self st HJ) as [Hs1 _]. unfold after in Hs1.
  rewrite Hdoc in Hs1. simpl in Hs1.
  destruct (memoize_ok_entry _ _ _ _ _ _ _ Hdoc) as (k & Hk & _).
  apply call_key_nil_inv in Hk as (id & _ & Hid).
  eapply method_call_facts in Hdoc as (_ & Hid1 & e1 & He1 & Hd1); [|..|done].
  2:{ repeat adds_step. }
  apply natural_key_inv in Hid1 as (_ & x & Hx & Hk1).
  rewrite He1 in Hx. injection Hx as <-.
  assert (Hget : nfl.BoxScore.get_doc self st1 = (Ok (VDoc h), st1)).
  { unfold nfl.BoxScore.get_doc. by eapply method_hit. }
  split; intros Hnone.
  - unfold nfl.BoxScore.surface.
    match goal with
    | |- context [decorators.memoize (Some self) "surface" [] ?b] =>
        pose proof (method_run self "surface" b st1 e1 id) as Hrun;
        assert (Hbody : b st1 = (Ok VNaN, st1));
        [|assert (Hadds : adds (λ _, True) b)]
    end.
    { erewrite bind_ok by done. erewrite bind_ok by done.
      unfold bind, lift, ret. by rewrite Hgi, Hnone. }
    { repeat first [by apply get_doc_adds | adds_step]. }
    rewrite Hbody in Hrun. specialize (Hrun Hadds He1 Hk1).
    destruct (e_cache e1 !! (id, "surface", [])) as [r|] eqn:Hr.
    + pose proof (Hs1 self e1 _ _ He1 Hr) as (_ & _ & _ & Hsu & _).
      destruct (Hsu eq_refl) as (_ & h' & gi' & Hd' & Hgi' & ->).
      rewrite Hd1 in Hd'. injection Hd' as <-.
      rewrite Hgi in Hgi'. injection Hgi' as <-. rewrite Hnone in Hrun.
      by exists st1.
    + destruct Hrun as (e' & He' & Hrun). eexists. split; [exact Hrun|].
      by eapply method_again.
  - unfold nfl.BoxScore.weather.
    match goal with
    | |- context [decorators.memoize (Some self) "weather" [] ?b] =>
        pose proof (method_run self "weather" b st1 e1 id) as Hrun;
        assert (Hbody : b st1 = (Ok (VDict nfl.BoxScore.dome_weather), st1));
        [|assert (Hadds : adds (λ _, True) b)]
    end.
    { erewrite bind_ok by done. erewrite bind_ok by done.
      unfold bind, lift, ret. by rewrite Hgi, Hnone. }
    { repeat first [by apply get_doc_adds | adds_step]. }
    rewrite Hbody in Hrun. specialize (Hrun Hadds He1 Hk1).
    destruct (e_cache e1 !! (id, "weather", [])) as [r|] eqn:Hr.
    + pose proof (Hs1 self e1 _ _ He1 Hr) as (_ & _ & _ & _ & Hwe).
      destruct (Hwe eq_refl) as (_ & h' & gi' & Hd' & Hgi' & Hv).
      rewrite Hd1 in Hd'. injection Hd' as <-.
      rewrite Hgi in Hgi'. injection Hgi' as <-. rewrite (Hv Hnone) in Hrun.
      by exists st1.
    + destruct Hrun as (e' & He' & Hrun). eexists. split; [exact Hrun|].
      by eapply method_again.
Qed.

End AbsentFields.

(** ** One instance per kind and key *)

Section Registry.
Context `{C : Collaborators}.

Lemma construct_registered k key st l st1 :
  construct k key st = (Ok l, st1) → registry st1 !! (k, key) = Some l.
Proof.
  rewrite construct_run.
  destruct (registry st !! (k, key)) as [l'|] eqn:Hr.
  - by intros [= <- <-].
  - intros [= <- <-]. simpl. by rewrite lookup_insert_eq.
Qed.

Lemma construct_again k key st l st1 :
  construct k key st = (Ok l, st1) → construct k key st1 = (Ok l, st1).
Proof.
  intros H%construct_registered. rewrite construct_run. by rewrite H.
Qed.

Lemma construct_total k key st :
  ∃ l st1, construct k key st = (Ok l, st1).
Proof.
  rewrite construct_run. destruct (registry st !! (k, key)); eauto.
Qed.

(** C2: in every reachable state, two construction requests for the same
    kind and key return the same reference (the second one changes
    nothing), an attribute written through one reference is read back
    through the other, and no two live instances have the same class and
    natural key. *)
Theorem registry_identity st k key :
  reachable st →
  (∃ l st1,
     construct k key st = (Ok l, st1) ∧
     construct k key st1 = (Ok l, st1) ∧
     ∀ attr v,
       outcome (r1 <- construct k key ;;
                r2 <- construct k key ;;
                setattr r1 attr v ;;;
                getattr (Ref r2) attr) st = Ok v) ∧
  (∀ l1 l2 e1 e2,
     heap st !! l1 = Some e1 → heap st !! l2 = Some e2 →
     e_cls e1 = k → e_cls e2 = k →
     e_attrs e1 !! key_attr k = Some key →
     e_attrs e2 !! key_attr k = Some key →
     l1 = l2).
Proof.
  intros [_ Hreg]%reachable_invariant. split.
  - destruct (construct_total k key st) as (l & st1 & H1).
    pose proof (construct_again _ _ _ _ _ H1) as H2.
    exists l, st1. split; [done|]. split; [done|]. intros attr v.
    unfold outcome. erewrite bind_ok by done. erewrite bind_ok by done.
    pose proof (construct_registry_ok k key st Hreg) as [Ha _].
    unfold after in Ha. rewrite H1 in Ha. simpl in Ha.
    destruct (Ha _ _ _ (construct_registered _ _ _ _ _ H1)) as (e & He & _).
    unfold bind, setattr. rewrite He. unfold getattr, set_entity. simpl.
    rewrite lookup_insert_eq. simpl. by rewrite lookup_insert_eq.
  - destruct Hreg as [Ha Hb]. intros l1 l2 e1 e2 H1 H2 Hc1 Hc2 Hk1 Hk2.
    destruct (Hb _ _ H1) as (key1 & Hr1). destruct (Hb _ _ H2) as (key2 & Hr2).
    destruct (Ha _ _ _ Hr1) as (x & Hx & _ & Hkx).
    rewrite H1 in Hx. injection Hx as <-.
    destruct (Ha _ _ _ Hr2) as (x & Hx & _ & Hkx').
    rewrite H2 in Hx. injection Hx as <-.
    rewrite Hc1, Hk1 in Hkx. injection Hkx as <-.
    rewrite Hc2, Hk2 in Hkx'. injection Hkx' as <-.
    rewrite Hc1 in Hr1. rewrite Hc2 in Hr2. congruence.
Qed.

(** C7, as the code has it: the constructors store whatever key they are
    given, so a construction request never fails (with [InvalidKey] or
    otherwise): it always returns a reference, registered under the
    requested kind and key. *)
Theorem construct_accepts_every_key k key st :
  ∃ l st1,
    construct k key st = (Ok l, st1) ∧
    registry st1 !! (k, key) = Some l ∧
    outcome (construct k key) st ≠ Raise InvalidKey.
Proof.
  destruct (construct_total k key st) as (l & st1 & H).
  exists l, st1. split; [done|]. split; [by eapply construct_registered|].
  unfold outcome. by rewrite H.
Qed.

End Registry.

(** ** Concrete runs on the sample site *)

Lemma sample_game_reachable : @reachable sample_site sample_game.
Proof.
  unfold reachable, sample_game.
  eapply rtc_r.
  - apply rtc_once. exists (New NFL_BoxScore (VStr "201502010sea")). by split.
  - exists (Call 0%nat m_get_doc). by split.
Qed.

Lemma sample_teams_reachable : @reachable sample_site sample_teams.
Proof.
  unfold reachable, sample_teams.
  eapply rtc_r.
  - apply rtc_once. exists (New NFL_Team (VStr "phi")). by split.
  - exists (New NBA_Team (VStr "phi")). by split.
Qed.

Lemma run_eq {A} (m : M A) st r :
  outcome m st = r → m st = (r, after m st).
Proof. unfold outcome, after. destruct (m st). simpl. by intros ->. Qed.

Lemma run_unchanged {A} (m : M A) st r :
  (m st).2 = st → outcome m st = r → m st = (r, st).
Proof. unfold outcome. destruct (m st). simpl. by intros -> ->. Qed.

Lemma bind_calls {A B} (m : M A) (f : A → M B) :
  (∀ s, calls (after m s) = calls s) →
  (∀ a s, calls (after (f a) s) = calls s) →
  ∀ s, calls (after (bind m f) s) = calls s.
Proof.
  intros Hm Hf s. unfold after, bind. specialize (Hm s). unfold after in Hm.
  destruct (m s) as [[a|e] s1]; simpl in *; [|done].
  rewrite <- Hm. apply Hf.
Qed.

Lemma getattr_calls o name s : calls (after (getattr o name) s) = calls s.
Proof. unfold after. by rewrite getattr_state. Qed.

Lemma fetch_calls `{C : Collaborators} url s :
  calls (after (fetch url) s) = calls s.
Proof. unfold after, fetch. by destruct (get_html _ _). Qed.

Lemma entity_eq_hash_consistent_witness :
  obj_eq 0%nat (Ref 0%nat) sample_game = (Ok true, sample_game) ∧
  @obj_hash sample_site 0%nat sample_game
    = @obj_hash sample_site 0%nat sample_game.
Proof.
  set (ea := Entity NFL_BoxScore {["boxscore_id" := VStr "201502010sea"]} ∅).
  assert (Ha : heap sample_game !! 0%nat = Some ea)
    by (vm_compute; reflexivity).
  assert (Hk : e_attrs ea !! key_attr (e_cls ea) = Some (VStr "201502010sea"))
    by (vm_compute; reflexivity).
  destruct (@entity_eq_hash_consistent sample_site sample_game 0%nat 0%nat
              ea ea _ _ Ha Ha eq_refl Hk Hk) as (Heq & _ & Hhash).
  assert (Htrue : py_eq (VStr "201502010sea") (VStr "201502010sea") = true)
    by (vm_compute; reflexivity).
  rewrite Htrue in Heq. split; [exact Heq|].
  apply Hhash. unfold outcome. by rewrite Heq.
Defined.

Lemma entity_eq_no_type_check_witness :
  obj_eq 0%nat (Ref 1%nat) sample_teams = (Ok true, sample_teams) ∧
  obj_eq 0%nat (Val (VStr "phi")) sample_teams
    = (Raise AttributeError, sample_teams).
Proof.
  set (ea := Entity NFL_Team {["teamID" := VStr "phi"]} ∅).
  set (eb := Entity NBA_Team {["teamID" := VStr "phi"]} ∅).
  assert (Ha : heap sample_teams !! 0%nat = Some ea)
    by (vm_compute; reflexivity).
  assert (Hb : heap sample_teams !! 1%nat = Some eb)
    by (vm_compute; reflexivity).
  assert (Hk : e_attrs ea !! key_attr (e_cls ea) = Some (VStr "phi"))
    by (vm_compute; reflexivity).
  assert (Hkb : e_attrs eb !! "teamID" = Some (VStr "phi"))
    by (vm_compute; reflexivity).
  destruct (@entity_eq_no_type_check sample_site sample_teams 0%nat ea
              (VStr "phi") Ha Hk) as (_ & Hteams & _ & _ & Hval).
  split.
  - exact (Hteams 1%nat eb "phi" eq_refl eq_refl Hb eq_refl Hkb).
  - exact (Hval (VStr "phi")).
Defined.

Lemma memoize_at_most_once_witness :
  let operation : M value :=
    (id <- getattr (Ref 0%nat) "boxscore_id" ;;
     html <- @fetch sample_site
               ("http://nfl/boxscores/" ++ @py_str sample_site id ++ ".htm") ;;
     ret (VDoc html)) in
  let m := decorators.memoize (Some 0%nat) "get_doc" []
             (count_call "get_doc" ;;; operation) in
  let r := VDoc "<html>http://nfl/boxscores/201502010sea.htm" in
  call_count "get_doc" (after m sample_game)
    = S (call_count "get_doc" sample_game) ∧
  call_times 3 m (after m sample_game) = (Ok [r; r; r], after m sample_game).
Proof.
  intros operation m r.
  assert (Hstable : ∀ s, stable s (after operation s)).
  { intros s. apply (only_adds_stable (λ _, True)). revert s.
    change (adds (λ _ : string, True) operation). unfold operation.
    repeat adds_step. }
  assert (Hcount : ∀ s, call_count "get_doc" (after operation s)
                        = call_count "get_doc" s).
  { intros s. unfold call_count. f_equal. f_equal. revert s.
    apply bind_calls; [apply getattr_calls|]. intros id.
    apply bind_calls; [apply fetch_calls | done]. }
  assert (Hrun : m sample_game = (Ok r, after m sample_game))
    by (apply run_eq; vm_compute; reflexivity).
  destruct (memoize_at_most_once (Some 0%nat) "get_doc" [] operation "get_doc"
              sample_game r (after m sample_game) Hstable Hcount Hrun)
    as (_ & Hone & _ & Hrep).
  split.
  - apply (Hone (VStr "201502010sea", "get_doc", [])).
    + apply run_unchanged; [apply call_key_state | vm_compute; reflexivity].
    + apply run_unchanged; [apply cache_lookup_state | vm_compute; reflexivity].
  - exact (Hrep 3%nat).
Defined.

Lemma entity_argument_by_natural_key_witness :
  let m (team : loc) := decorators.memoize None "matchups" [Ref team]
                          (count_call "matchups" ;;; ret (VInt 1)) in
  m 1%nat (after (m 0%nat) sample_teams)
    = (Ok (VInt 1), after (m 0%nat) sample_teams) ∧
  call_count "matchups" (after (m 0%nat) sample_teams)
    = S (call_count "matchups" sample_teams).
Proof.
  intros m.
  assert (Hstable : ∀ s, stable s (after (ret (VInt 1)) s))
    by (intros s; apply stable_refl).
  assert (Hcount : ∀ s, call_count "matchups" (after (ret (VInt 1)) s)
                        = call_count "matchups" s) by reflexivity.
  assert (Hne : 0%nat ≠ 1%nat) by discriminate.
  assert (Ha : decorators.natural_key 0%nat sample_teams
               = (Ok (VStr "phi"), sample_teams)).
  { apply run_unchanged; [apply natural_key_state | vm_compute; reflexivity]. }
  assert (Hb : decorators.natural_key 1%nat sample_teams
               = (Ok (VStr "phi"), sample_teams)).
  { apply run_unchanged; [apply natural_key_state | vm_compute; reflexivity]. }
  assert (Hrun : m 0%nat sample_teams
                 = (Ok (VInt 1), after (m 0%nat) sample_teams))
    by (apply run_eq; vm_compute; reflexivity).
  destruct (entity_argument_by_natural_key None "matchups" [] [] 0%nat 1%nat
              (ret (VInt 1)) "matchups" sample_teams (VStr "phi") (VInt 1)
              (after (m 0%nat) sample_teams)
              Hstable Hcount Hne Ha Hb Hrun) as (_ & Hhit & _ & Hone).
  split; [exact Hhit|].
  apply (Hone (VNone, "matchups", [VStr "phi"])).
  - apply run_unchanged; [apply call_key_state | vm_compute; reflexivity].
  - apply run_unchanged; [apply cache_lookup_state | vm_compute; reflexivity].
Defined.

Lemma winner_follows_scores_witness :
  let st1 := after (@nfl.BoxScore.home_score sample_site 0%nat) sample_game in
  let st2 := after (@nfl.BoxScore.away_score sample_site 0%nat) st1 in
  outcome (@nfl.BoxScore.winner sample_site 0%nat) st2
    = outcome (@nfl.BoxScore.home sample_site 0%nat) st2.
Proof.
  intros st1 st2.
  set (e := Entity NFL_BoxScore {["boxscore_id" := VStr "201502010sea"]} ∅).
  assert (He : heap sample_game !! 0%nat = Some e)
    by (vm_compute; reflexivity).
  assert (H1 : @nfl.BoxScore.home_score sample_site 0%nat sample_game
               = (Ok (VInt 28), st1))
    by (apply run_eq; vm_compute; reflexivity).
  assert (H2 : @nfl.BoxScore.away_score sample_site 0%nat st1
               = (Ok (VInt 24), st2))
    by (apply run_eq; vm_compute; reflexivity).
  destruct (@winner_follows_scores sample_site sample_game 0%nat e
              sample_game_reachable He eq_refl) as (Hscores & _).
  destruct (Hscores 28 24 st1 st2 H1 H2) as (Hgt & _ & _).
  apply Hgt. lia.
Defined.

Lemma date_and_season_witness :
  outcome (nfl.BoxScore.date 0%nat) sample_game = Ok (VDate 2015 2 1) ∧
  outcome (nfl.BoxScore.season 0%nat) sample_game = Ok (VInt 2014).
Proof.
  set (e := Entity NFL_BoxScore {["boxscore_id" := VStr "201502010sea"]} ∅).
  assert (He : heap sample_game !! 0%nat = Some e)
    by (vm_compute; reflexivity).
  assert (Hid : e_attrs e !! "boxscore_id" = Some (VStr "201502010sea"))
    by (vm_compute; reflexivity).
  destruct (@date_and_season sample_site sample_game 0%nat e "201502010sea"
              sample_game_reachable He eq_refl Hid) as (Hdate & _).
  apply (Hdate "2015" "02" "01" "0sea"); reflexivity.
Defined.

Lemma registry_identity_witness :
  outcome (r1 <- construct NFL_Team (VStr "nwe") ;;
           r2 <- construct NFL_Team (VStr "nwe") ;;
           setattr r1 "coach" (VStr "Belichick") ;;;
           getattr (Ref r2) "coach") init = Ok (VStr "Belichick").
Proof.
  assert (Hinit : @reachable sample_site init) by apply rtc_refl.
  destruct (@registry_identity sample_site init NFL_Team (VStr "nwe") Hinit)
    as ((l & st1 & _ & _ & Hmut) & _).
  exact (Hmut "coach" (VStr "Belichick")).
Defined.

Lemma fetch_failure_not_cached_witness :
  @fails_then_retries sample_site (@nfl.BoxScore.get_doc sample_site 0%nat)
    (@nfl_BASE_URL sample_site ++ "/boxscores/"
       ++ @py_str sample_site (VStr "201502010sea") ++ ".htm")
    (after (construct NFL_BoxScore (VStr "201502010sea")) init).
Proof.
  set (st := after (construct NFL_BoxScore (VStr "201502010sea")) init).
  set (e := Entity NFL_BoxScore {["boxscore_id" := VStr "201502010sea"]} ∅).
  assert (He : heap st !! 0%nat = Some e) by (vm_compute; reflexivity).
  assert (Hid : e_attrs e !! key_attr (e_cls e) = Some (VStr "201502010sea"))
    by (vm_compute; reflexivity).
  destruct (@fetch_failure_not_cached sample_site st 0%nat e
              (VStr "201502010sea") He Hid) as (Hdoc & _).
  apply Hdoc; vm_compute; reflexivity.
Defined.

Lemma absent_field_results_witness :
  let st1 := after (@nfl.BoxScore.get_doc sample_site 0%nat) sample_game in
  (∃ st2, @nfl.BoxScore.surface sample_site 0%nat st1 = (Ok VNaN, st2) ∧
          @nfl.BoxScore.surface sample_site 0%nat st2 = (Ok VNaN, st2)) ∧
  (∃ st2, @nfl.BoxScore.weather sample_site 0%nat st1
            = (Ok (VDict nfl.BoxScore.dome_weather), st2) ∧
          @nfl.BoxScore.weather sample_site 0%nat st2
            = (Ok (VDict nfl.BoxScore.dome_weather), st2)).
Proof.
  intros st1.
  set (e := Entity NFL_BoxScore {["boxscore_id" := VStr "201502010sea"]} ∅).
  assert (He : heap sample_game !! 0%nat = Some e)
    by (vm_compute; reflexivity).
  assert (Hdoc : @nfl.BoxScore.get_doc sample_site 0%nat sample_game
                 = (Ok (VDoc "<html>http://nfl/boxscores/201502010sea.htm"),
                    st1))
    by (apply run_eq; vm_compute; reflexivity).
  assert (Hgi : @parse_info_table sample_site
                  "<html>http://nfl/boxscores/201502010sea.htm" = Ok ∅)
    by reflexivity.
  destruct (@absent_field_results sample_site sample_game 0%nat e _ ∅ st1
              sample_game_reachable He eq_refl Hdoc Hgi) as (Hsu & Hwe).
  split; [apply Hsu | apply Hwe]; reflexivity.
Defined.

(** ** Where the code departs from the specification *)

(** C5 does not hold as stated: for a dome game (a page whose game-info
    table has no weather entry) [weather()] does not return the sentinel;
    it returns a dictionary with a temperature of 70 degrees. *)
Lemma dome_weather_is_a_default :
  let st1 := after (@nfl.BoxScore.get_doc sample_site 0%nat) sample_game in
  outcome (@nfl.BoxScore.get_doc sample_site 0%nat) sample_game
    = Ok (VDoc "<html>http://nfl/boxscores/201502010sea.htm") ∧
  (∃ gi, @parse_info_table sample_site
           "<html>http://nfl/boxscores/201502010sea.htm" = Ok gi ∧
         gi !! "weather" = None) ∧
  outcome (@nfl.BoxScore.weather sample_site 0%nat) st1 ≠ Ok VNaN ∧
  ∃ d, outcome (@nfl.BoxScore.weather sample_site 0%nat) st1 = Ok (VDict d) ∧
       d !! "temp" = Some (Some 70) ∧ d !! "windMPH" = Some (Some 0).
Proof.
  intros st1. split; [vm_compute; reflexivity|]. split.
  - exists ∅. by split.
  - split.
    + vm_compute. discriminate.
    + exists nfl.BoxScore.dome_weather. repeat split; vm_compute; reflexivity.
Qed.

(** C7 does not hold as stated: a box score identifier without a date,
    on which [date()] can only raise, is accepted by the constructor and
    registered. *)
Lemma malformed_key_is_accepted :
  nfl.BoxScore.date_of_id (VStr "next-sunday") = Raise AttributeError ∧
  outcome (construct NFL_BoxScore (VStr "next-sunday")) init = Ok 0%nat ∧
  outcome (construct NFL_BoxScore (VStr "next-sunday")) init
    ≠ Raise InvalidKey ∧
  registry (after (construct NFL_BoxScore (VStr "next-sunday")) init)
    !! (NFL_BoxScore, VStr "next-sunday") = Some 0%nat.
Proof.
  split; [reflexivity|]. split; [vm_compute; reflexivity|]. split.
  - vm_compute. discriminate.
  - vm_compute. reflexivity.
Qed.

(** * Further properties of the code *)

(** ** Decimal digits: [str] and [int] *)

Lemma int_digits_of_uint_acc d acc :
  int_digits (Z.pos acc) (NilEmpty.string_of_uint d)
    = Z.pos (Pos.of_uint_acc d acc).
Proof.
  revert acc. induction d; intros acc; simpl; try done;
    rewrite <- IHd; f_equal;
    match goal with
    | |- context [Z.of_nat (nat_of_ascii ?c)] =>
        let v := eval vm_compute in (Z.of_nat (nat_of_ascii c)) in
        change (Z.of_nat (nat_of_ascii c)) with v
    end; lia.
Qed.

Lemma int_digits_of_uint d :
  int_digits 0 (NilEmpty.string_of_uint d) = Z.of_N (Pos.of_uint d).
Proof.
  induction d; simpl; try done;
    apply (int_digits_of_uint_acc d).
Qed.

Lemma all_digits_of_uint d : all_digits (NilEmpty.string_of_uint d) = true.
Proof. induction d; simpl; done. Qed.

Lemma string_of_uint_nonnil d :
  d ≠ Decimal.Nil → NilZero.string_of_uint d = NilEmpty.string_of_uint d.
Proof. by destruct d. Qed.

Lemma str_int_pos p :
  str_int (Z.pos p) = NilEmpty.string_of_uint (Pos.to_uint p).
Proof.
  unfold str_int. simpl. apply string_of_uint_nonnil.
  apply DecimalPos.Unsigned.to_uint_nonnil.
Qed.

(** [int(str(n)) = n] for a natural number [n]. *)
Lemma py_int_str_int n : 0 ≤ n → py_int (str_int n) = n.
Proof.
  intros Hn. destruct n as [|p|p]; [done| |lia].
  rewrite str_int_pos. unfold py_int. rewrite int_digits_of_uint.
  by rewrite DecimalPos.Unsigned.of_to.
Qed.

Lemma all_digits_str_int n : 0 ≤ n → all_digits (str_int n) = true.
Proof.
  intros Hn. destruct n as [|p|p]; [done| |lia].
  rewrite str_int_pos. apply all_digits_of_uint.
Qed.

Lemma str_int_nonempty n : str_int n ≠ "".
Proof.
  destruct n as [|p|p]; [done| |done].
  rewrite str_int_pos. intros H.
  pose proof (DecimalPos.Unsigned.to_uint_nonnil p) as Hnn.
  by destruct (Pos.to_uint p).
Qed.

(** ** Scanning literals and digit runs *)

Lemma expect_string_app p r : expect_string p (p ++ r) = Some r.
Proof.
  induction p as [|c p IH]; [done|]. rewrite string_app_cons. simpl.
  rewrite bool_decide_eq_true_2 by done. apply IH.
Qed.

Lemma expect_string_inv p s r : expect_string p s = Some r → s = p ++ r.
Proof.
  revert s. induction p as [|c p IH]; intros s; simpl.
  - by intros [= ->].
  - destruct s as [|a s]; [done|]. simpl. case_bool_decide; [|done].
    subst a. intros H%IH. by rewrite H.
Qed.

Lemma span_digits_app ds r :
  all_digits ds = true → starts_nondigit r →
  span_digits (ds ++ r) = (ds, r).
Proof.
  intros Hds Hr. induction ds as [|a ds IH].
  - rewrite string_app_nil. destruct r as [|b r]; [done|]. simpl in *.
    by rewrite Hr.
  - rewrite string_app_cons. simpl in *.
    apply andb_prop in Hds as [Ha Hds]. rewrite Ha. by rewrite IH.
Qed.

Lemma span_digits_inv s ds r :
  span_digits s = (ds, r) →
  s = ds ++ r ∧ all_digits ds = true ∧ starts_nondigit r.
Proof.
  revert ds r. induction s as [|a s IH]; intros ds r; simpl.
  - by intros [= <- <-].
  - destruct (is_digit a) eqn:Ha.
    + destruct (span_digits s) as [ds' r'] eqn:Hs. intros [= <- <-].
      destruct (IH _ _ eq_refl) as (-> & Hds & Hr).
      rewrite string_app_cons. simpl. by rewrite Ha, Hds.
    + intros [= <- <-]. simpl. by rewrite Ha.
Qed.

Lemma digits1_app ds r :
  ds ≠ "" → all_digits ds = true → starts_nondigit r →
  digits1 (ds ++ r) = Some (ds, r).
Proof.
  intros Hne Hds Hr. unfold digits1. rewrite span_digits_app by done.
  by rewrite bool_decide_eq_false_2.
Qed.

Lemma digits1_inv s ds r :
  digits1 s = Some (ds, r) →
  s = ds ++ r ∧ ds ≠ "" ∧ all_digits ds = true ∧ starts_nondigit r.
Proof.
  unfold digits1. destruct (span_digits s) as [ds' r'] eqn:Hs.
  case_bool_decide; [done|]. intros [= <- <-].
  by destruct (span_digits_inv _ _ _ Hs) as (-> & ? & ?).
Qed.

(** The week pattern matches exactly the links that start with
    [/years/<season>/week_<digits>.htm]. *)
Lemma match_week_spec season raw g :
  match_week season raw = Some g ↔
  g ≠ "" ∧ all_digits g = true ∧
  ∃ rest, raw = ("/years/" ++ str_int season ++ "/week_") ++ g ++ ".htm" ++ rest.
Proof.
  unfold match_week. split.
  - destruct (expect_string _ raw) as [r1|] eqn:H1; [|done].
    destruct (digits1 r1) as [[ds r2]|] eqn:H2; [|done].
    destruct (expect_string ".htm" r2) as [r3|] eqn:H3; [|done].
    intros [= <-]. apply expect_string_inv in H1 as ->.
    apply digits1_inv in H2 as (-> & Hne & Hds & _).
    apply expect_string_inv in H3 as ->. eauto.
  - intros (Hne & Hds & rest & ->). rewrite expect_string_app.
    rewrite digits1_app by done.
    by rewrite (expect_string_app ".htm" rest).
Qed.

(** ** [BoxScore.week] *)

Section Week.
Context `{C : Collaborators} `{L : LinkParsers}.

(** The first call of [week()] on a box score whose document can be had
    and whose identifier gives the date [y-m-d]. *)
Lemma week_run st self e id h st1 y m d :
  cache_sound st →
  heap st !! self = Some e → e_cls e = NFL_BoxScore →
  e_attrs e !! "boxscore_id" = Some id →
  e_cache e !! (id, "week", []) = None →
  nfl.BoxScore.get_doc self st = (Ok (VDoc h), st1) →
  nfl.BoxScore.date_of_id id = Ok (VDate y m d) →
  outcome (nfl.BoxScore.week self) st =
    match other_scores_href h with
    | Some raw =>
        match match_week (if m <=? 3 then y - 1 else y) raw with
        | Some g => Ok (VInt (py_int g))
        | None => Ok (VInt 21)
        end
    | None => Raise TypeError
    end.
Proof.
  intros Hs He Hc Hid Hnone Hdoc Hdate.
  assert (Hid' : e_attrs e !! key_attr (e_cls e) = Some id) by by rewrite Hc.
  pose proof (get_doc_sound self st (conj Hs (ex_intro _ e (conj He Hc))))
    as [Hs1 _].
  pose proof (get_doc_adds (λ _, True) self I st) as (_ & _ & H1).
  specialize (H1 self). unfold after in Hs1, H1. rewrite Hdoc in Hs1, H1.
  rewrite He in H1. simpl in Hs1, H1.
  destruct H1 as (e1 & He1 & Hc1 & Ha1 & _).
  pose proof (season_run self st1 e1 id y m d Hs1 He1
    ltac:(by rewrite Hc1) ltac:(by rewrite Ha1) Hdate) as Hse.
  unfold outcome in Hse.
  destruct (nfl.BoxScore.season self st1) as [res st2] eqn:Hseason.
  simpl in Hse. subst res.
  unfold outcome, nfl.BoxScore.week.
  match goal with
  | |- context [decorators.memoize _ _ _ ?b] =>
      pose proof (method_run self "week" b st e id) as Hrun
  end.
  specialize (Hrun
    ltac:(repeat first [ by apply get_doc_adds | by apply season_adds
                       | adds_step ]) He Hid').
  rewrite Hnone in Hrun.
  erewrite bind_ok in Hrun by exact Hdoc.
  erewrite bind_ok in Hrun by reflexivity.
  erewrite bind_ok in Hrun by exact Hseason.
  erewrite bind_ok in Hrun by reflexivity.
  destruct (other_scores_href h) as [raw|]; simpl in Hrun.
  - destruct (match_week _ raw); simpl in Hrun;
      by destruct Hrun as (? & ? & ->).
  - by rewrite Hrun.
Qed.

(** X1: [week()] reads the week off the link under the other scores: on a
    box score whose identifier gives the date [y-m-d], the first call on a
    page whose link is [/years/<season>/week_<n>.htm...], with the season
    of that date, returns [n]. *)
Theorem week_reads_link st self e id h st1 y m d n rest :
  cache_sound st →
  heap st !! self = Some e → e_cls e = NFL_BoxScore →
  e_attrs e !! "boxscore_id" = Some id →
  e_cache e !! (id, "week", []) = None →
  nfl.BoxScore.get_doc self st = (Ok (VDoc h), st1) →
  nfl.BoxScore.date_of_id id = Ok (VDate y m d) →
  0 ≤ n →
  other_scores_href h =
    Some ("/years/" ++ str_int (if m <=? 3 then y - 1 else y) ++ "/week_"
          ++ str_int n ++ ".htm" ++ rest) →
  outcome (nfl.BoxScore.week self) st = Ok (VInt n).
Proof.
  intros Hs He Hc Hid Hnone Hdoc Hdate Hn Hraw.
  rewrite (week_run st self e id h st1 y m d) by done. rewrite Hraw.
  assert (Hm : match_week (if m <=? 3 then y - 1 else y)
                 ("/years/" ++ str_int (if m <=? 3 then y - 1 else y)
                  ++ "/week_" ++ str_int n ++ ".htm" ++ rest)
               = Some (str_int n)).
  { apply match_week_spec. split; [by apply str_int_nonempty|].
    split; [by apply all_digits_str_int|]. exists rest.
    by rewrite <- !string_app_assoc. }
  rewrite Hm. by rewrite py_int_str_int.
Qed.

(** X2: any other link makes [week()] return 21: a link that is not
    [/years/<season>/week_<digits>.htm...] for the season of the game, be
    it the week of another season. *)
Theorem week_defaults_to_21 st self e id h st1 y m d raw :
  cache_sound st →
  heap st !! self = Some e → e_cls e = NFL_BoxScore →
  e_attrs e !! "boxscore_id" = Some id →
  e_cache e !! (id, "week", []) = None →
  nfl.BoxScore.get_doc self st = (Ok (VDoc h), st1) →
  nfl.BoxScore.date_of_id id = Ok (VDate y m d) →
  other_scores_href h = Some raw →
  (∀ g rest,
     g ≠ "" → all_digits g = true →
     raw ≠ "/years/" ++ str_int (if m <=? 3 then y - 1 else y) ++ "/week_"
           ++ g ++ ".htm" ++ rest) →
  outcome (nfl.BoxScore.week self) st = Ok (VInt 21).
Proof.
  intros Hs He Hc Hid Hnone Hdoc Hdate Hraw Hno.
  rewrite (week_run st self e id h st1 y m d) by done. rewrite Hraw.
  destruct (match_week _ raw) as [g|] eqn:Hm; [|done].
  apply match_week_spec in Hm as (Hg & Hd & rest & ->).
  destruct (Hno g rest Hg Hd). by rewrite <- !string_app_assoc.
Qed.

(** X3: on a page without the link, [week()] raises [TypeError]
    ([re.match] on [None]). *)
Theorem week_without_link st self e id h st1 y m d :
  cache_sound st →
  heap st !! self = Some e → e_cls e = NFL_BoxScore →
  e_attrs e !! "boxscore_id" = Some id →
  e_cache e !! (id, "week", []) = None →
  nfl.BoxScore.get_doc self st = (Ok (VDoc h), st1) →
  nfl.BoxScore.date_of_id id = Ok (VDate y m d) →
  other_scores_href h = None →
  outcome (nfl.BoxScore.week self) st = Raise TypeError.
Proof.
  intros Hs He Hc Hid Hnone Hdoc Hdate Hraw.
  rewrite (week_run st self e id h st1 y m d) by done. by rewrite Hraw.
Qed.

End Week.

(** ** Methods that read one field off the fetched page *)

Section PageMethods.
Context `{C : Collaborators}.

(** A memoized method whose body gets a document through [getter] and
    computes its result from the document alone, called when its entry is
    not there: a result is returned and stored, and the next call is a hit;
    an exception is raised again by the next call, which finds the document
    in the store and makes no request. *)
Lemma memo_after_getter self op (getter : M value) (tail : string → M value)
    (g : string → result value) st e id h st1 :
  adds (λ o, o ≠ op) getter →
  (∀ h' s, tail h' s = (g h', s)) →
  heap st !! self = Some e →
  e_attrs e !! key_attr (e_cls e) = Some id →
  e_cache e !! (id, op, []) = None →
  getter st = (Ok (VDoc h), st1) →
  getter st1 = (Ok (VDoc h), st1) →
  match g h with
  | Ok v =>
      ∃ st2,
        decorators.memoize (Some self) op []
          (doc <- getter ;; h <- as_doc doc ;; tail h) st = (Ok v, st2) ∧
        decorators.memoize (Some self) op []
          (doc <- getter ;; h <- as_doc doc ;; tail h) st2 = (Ok v, st2) ∧
        fetches st2 = fetches st1
  | Raise err =>
      decorators.memoize (Some self) op []
        (doc <- getter ;; h <- as_doc doc ;; tail h) st = (Raise err, st1) ∧
      decorators.memoize (Some self) op []
        (doc <- getter ;; h <- as_doc doc ;; tail h) st1 = (Raise err, st1)
  end.
Proof.
  intros Hget Htail He Hk Hnone Hrun Hrun1.
  set (body := (doc <- getter ;; h <- as_doc doc ;; tail h)).
  assert (Hadds : adds (λ _, True) body).
  { unfold body. apply adds_bind.
    - eapply adds_weaken; [|exact Hget]. done.
    - intros doc. apply adds_bind; [apply adds_as_doc|]. intros h'.
      apply adds_unchanged. intros s. by rewrite Htail. }
  assert (Hb : ∀ s, getter s = (Ok (VDoc h), st1) → body s = (g h, st1)).
  { intros s Hs. unfold body. erewrite bind_ok by done.
    erewrite bind_ok by done. apply Htail. }
  pose proof (method_run self op body st e id Hadds He Hk) as Hm.
  rewrite Hnone, (Hb st Hrun) in Hm.
  destruct (g h) as [v|err] eqn:Hg.
  - destruct Hm as (e' & He' & Hm). eexists. split; [exact Hm|].
    split; [by eapply method_again|done].
  - split; [done|].
    pose proof (Hget st) as (_ & _ & H). specialize (H self).
    unfold after in H. rewrite Hrun, He in H. simpl in H.
    destruct H as (e1 & He1 & Hc1 & Ha1 & Hk1).
    pose proof (method_run self op body st1 e1 id Hadds He1) as Hm1.
    rewrite Hc1, Ha1 in Hm1. specialize (Hm1 Hk).
    destruct (Hk1 (id, op, [])) as [E|[_ E]]; [|done].
    rewrite E, Hnone, (Hb st1 Hrun1) in Hm1. try rewrite Hg in Hm1. done.
Qed.

Lemma get_doc_again self st h st1 :
  nfl.BoxScore.get_doc self st = (Ok (VDoc h), st1) →
  nfl.BoxScore.get_doc self st1 = (Ok (VDoc h), st1).
Proof. apply method_again. repeat adds_step. Qed.

(** X4: [coin_toss()] never reports the toss.  On a page whose game-info
    table could be parsed, its first call returns [None] when the table has
    a [Won Toss] entry and NaN when it has none, and the result is stored. *)
Theorem coin_toss_reports_nothing st self e id h gi st1 :
  heap st !! self = Some e → e_cls e = NFL_BoxScore →
  e_attrs e !! "boxscore_id" = Some id →
  e_cache e !! (id, "coin_toss", []) = None →
  nfl.BoxScore.get_doc self st = (Ok (VDoc h), st1) →
  parse_info_table h = Ok gi →
  ∃ st2,
    nfl.BoxScore.coin_toss self st
      = (Ok (match gi !! "Won Toss" with Some _ => VNone | None => VNaN end), st2) ∧
    nfl.BoxScore.coin_toss self st2
      = (Ok (match gi !! "Won Toss" with Some _ => VNone | None => VNaN end), st2).
Proof.
  intros He Hc Hid Hnone Hdoc Hgi.
  pose proof (memo_after_getter self "coin_toss" (nfl.BoxScore.get_doc self)
    (λ h, giTable <- lift (parse_info_table h) ;;
          match giTable !! "Won Toss" with
          | Some _ => ret VNone
          | None => ret VNaN
          end)
    (λ h, match parse_info_table h with
          | Ok gi => Ok (match gi !! "Won Toss" with Some _ => VNone | None => VNaN end)
          | Raise err => Raise err
          end) st e id h st1) as H.
  cbv beta in H. rewrite Hgi in H. destruct H as (st2 & H1 & H2 & _); try done.
  - by apply get_doc_adds.
  - intros h' s. unfold bind, lift.
    destruct (parse_info_table h') as [gi'|err]; [|done].
    by destruct (gi' !! "Won Toss").
  - by rewrite Hc.
  - by eapply get_doc_again.
  - by exists st2.
Qed.

(** X5: the first call of [roof()] on a page whose game-info table could
    be parsed returns the table's [roof] entry, or NaN when there is none,
    and stores it. *)
Theorem roof_entry_or_nan st self e id h gi st1 :
  heap st !! self = Some e → e_cls e = NFL_BoxScore →
  e_attrs e !! "boxscore_id" = Some id →
  e_cache e !! (id, "roof", []) = None →
  nfl.BoxScore.get_doc self st = (Ok (VDoc h), st1) →
  parse_info_table h = Ok gi →
  ∃ st2,
    nfl.BoxScore.roof self st
      = (Ok (from_option VStr VNaN (gi !! "roof")), st2) ∧
    nfl.BoxScore.roof self st2
      = (Ok (from_option VStr VNaN (gi !! "roof")), st2).
Proof.
  intros He Hc Hid Hnone Hdoc Hgi.
  pose proof (memo_after_getter self "roof" (nfl.BoxScore.get_doc self)
    (λ h, giTable <- lift (parse_info_table h) ;;
          ret (match giTable !! "roof" with
               | Some s => VStr s
               | None => VNaN
               end))
    (λ h, match parse_info_table h with
          | Ok gi => Ok (from_option VStr VNaN (gi !! "roof"))
          | Raise err => Raise err
          end) st e id h st1) as H.
  cbv beta in H. rewrite Hgi in H. destruct H as (st2 & H1 & H2 & _); try done.
  - by apply get_doc_adds.
  - intros h' s. unfold bind, lift.
    destruct (parse_info_table h') as [gi'|err]; [|done].
    by destruct (gi' !! "roof").
  - by rewrite Hc.
  - by eapply get_doc_again.
  - by exists st2.
Qed.

(** The dictionary [weather()] builds from the groups of the weather
    text. *)
Lemma weather_dict_lookups (d : weather_match) :
  let windChill := match wm_windChill d with
                   | Some c => Some c
                   | None => wm_temp d
                   end in
  let windMPH := match wm_windMPH d with
                 | Some x => Some x
                 | None => Some 0
                 end in
  let dict : gmap string (option Z) :=
    list_to_map [("temp", wm_temp d); ("relHumidity", wm_relHumidity d);
                 ("windMPH", windMPH); ("windChill", windChill)] in
  dict !! "temp" = Some (wm_temp d) ∧
  dict !! "relHumidity" = Some (wm_relHumidity d) ∧
  dict !! "windMPH" = Some (Some (default 0 (wm_windMPH d))) ∧
  dict !! "windChill" = Some (match wm_windChill d with
                              | Some c => Some c
                              | None => wm_temp d
                              end) ∧
  dom dict = {["temp"; "relHumidity"; "windMPH"; "windChill"]}.
Proof.
  intros windChill windMPH dict. unfold dict. simpl.
  repeat split; try (by simplify_map_eq);
    try (subst windMPH; simplify_map_eq; by destruct (wm_windMPH d));
    try (rewrite !dom_insert_L, dom_empty_L; set_solver).
Qed.

(** X6: when the game-info table has a weather entry, the first call of
    [weather()] returns a dictionary with exactly the keys [temp],
    [relHumidity], [windMPH] and [windChill]; the wind speed is never
    [None] (0 when the text has none) and the wind chill falls back to the
    temperature; the dictionary is stored. *)
Theorem weather_fills_wind st self e id h gi w st1 :
  heap st !! self = Some e → e_cls e = NFL_BoxScore →
  e_attrs e !! "boxscore_id" = Some id →
  e_cache e !! (id, "weather", []) = None →
  nfl.BoxScore.get_doc self st = (Ok (VDoc h), st1) →
  parse_info_table h = Ok gi →
  gi !! "weather" = Some w →
  ∃ dict st2,
    nfl.BoxScore.weather self st = (Ok (VDict dict), st2) ∧
    nfl.BoxScore.weather self st2 = (Ok (VDict dict), st2) ∧
    dom dict = {["temp"; "relHumidity"; "windMPH"; "windChill"]} ∧
    dict !! "temp" = Some (wm_temp (weather_regex w)) ∧
    dict !! "relHumidity" = Some (wm_relHumidity (weather_regex w)) ∧
    dict !! "windMPH" = Some (Some (default 0 (wm_windMPH (weather_regex w)))) ∧
    dict !! "windChill" = Some (match wm_windChill (weather_regex w) with
                                | Some c => Some c
                                | None => wm_temp (weather_regex w)
                                end).
Proof.
  intros He Hc Hid Hnone Hdoc Hgi Hw.
  set (mk := λ d : weather_match,
    (list_to_map [("temp", wm_temp d); ("relHumidity", wm_relHumidity d);
                  ("windMPH", match wm_windMPH d with
                              | Some x => Some x
                              | None => Some 0
                              end);
                  ("windChill", match wm_windChill d with
                                | Some c => Some c
                                | None => wm_temp d
                                end)] : gmap string (option Z))).
  pose proof (memo_after_getter self "weather" (nfl.BoxScore.get_doc self)
    (λ h, giTable <- lift (parse_info_table h) ;;
          match giTable !! "weather" with
          | Some w => ret (VDict (mk (weather_regex w)))
          | None => ret (VDict nfl.BoxScore.dome_weather)
          end)
    (λ h, match parse_info_table h with
          | Ok gi => Ok (match gi !! "weather" with
                         | Some w => VDict (mk (weather_regex w))
                         | None => VDict nfl.BoxScore.dome_weather
                         end)
          | Raise err => Raise err
          end) st e id h st1) as H.
  cbv beta in H. rewrite Hgi, Hw in H. destruct H as (st2 & H1 & H2 & _); try done.
  - by apply get_doc_adds.
  - intros h' s. unfold bind, lift.
    destruct (parse_info_table h') as [gi'|err]; [|done].
    by destruct (gi' !! "weather").
  - by rewrite Hc.
  - by eapply get_doc_again.
  - destruct (weather_dict_lookups (weather_regex w)) as (? & ? & ? & ? & ?).
    exists (mk (weather_regex w)), st2. by repeat split.
Qed.

End PageMethods.

(** ** The weather text *)

Lemma str_int_neg p :
  str_int (Z.neg p) = String "-" (NilEmpty.string_of_uint (Pos.to_uint p)).
Proof.
  unfold str_int. simpl. f_equal. apply string_of_uint_nonnil.
  apply DecimalPos.Unsigned.to_uint_nonnil.
Qed.

Lemma string_app_nil_r (s : string) : s ++ "" = s.
Proof. induction s as [|a s IH]; [done|]. rewrite string_app_cons. by f_equal. Qed.

Lemma expect_minus_digits ds r :
  ds ≠ "" → all_digits ds = true → expect "-" (ds ++ r) = None.
Proof.
  destruct ds as [|a ds]; [done|]. intros _ Hd. simpl in Hd.
  apply andb_prop in Hd as [Ha _]. rewrite string_app_cons. simpl.
  case_bool_decide; [|done]. by subst a.
Qed.

Lemma signed_digits_str_int n r :
  starts_nondigit r → signed_digits (str_int n ++ r) = Some (str_int n, r).
Proof.
  intros Hr. unfold signed_digits. destruct n as [|p|p].
  - change (str_int 0) with "0". rewrite string_app_cons, string_app_nil.
    simpl. apply (digits1_app "0"); done.
  - rewrite expect_minus_digits;
      [|apply str_int_nonempty|by apply all_digits_str_int].
    apply digits1_app; [apply str_int_nonempty| |done].
    by apply all_digits_str_int.
  - rewrite str_int_neg, string_app_cons. simpl.
    rewrite digits1_app; [done| | |done].
    + pose proof (str_int_nonempty (Z.pos p)) as H. by rewrite str_int_pos in H.
    + apply all_digits_of_uint.
Qed.

(** [int(str(n)) = n] for every integer [n]. *)
Lemma py_int_signed_str_int n : py_int_signed (str_int n) = n.
Proof.
  unfold py_int_signed. destruct n as [|p|p]; [done| |].
  - pose proof (expect_minus_digits (str_int (Z.pos p)) ""
      (str_int_nonempty _) (all_digits_str_int (Z.pos p) ltac:(lia))) as H.
    rewrite string_app_nil_r in H. rewrite H. by apply py_int_str_int.
  - rewrite str_int_neg. simpl.
    pose proof (py_int_str_int (Z.pos p) ltac:(lia)) as H.
    rewrite str_int_pos in H. rewrite H. done.
Qed.

(** An optional group on the text of its own piece, if there is one,
    followed by text on which it does not match. *)
Lemma opt_group_piece {A} pre num post (x : option A) (render : A → string) R :
  (∀ v, x = Some v →
        num (render v ++ post ++ R) = Some (render v, post ++ R)) →
  opt_group pre num post R = (None, R) →
  opt_group pre num post
    (from_option (λ v, pre ++ render v ++ post) "" x ++ R)
    = (render <$> x, R).
Proof.
  intros Hhit Hmiss. destruct x as [v|]; simpl; [|by rewrite string_app_nil].
  unfold opt_group. rewrite !string_app_assoc, expect_string_app.
  rewrite (Hhit v eq_refl). by rewrite expect_string_app.
Qed.

(** X7: the regular expression of [weather()] reads back a weather text
    made of its four parts, each of which may be missing: the temperature
    and the wind chill, which may be negative, the relative humidity and
    the wind speed.  A part that is missing gives [None]. *)
Theorem weather_text_round_trip (t h w c : option Z) :
  (∀ x, h = Some x → 0 ≤ x) →
  (∀ x, w = Some x → 0 ≤ x) →
  weather_groups
    (from_option (λ t, str_int t ++ " degrees ") "" t ++
     from_option (λ h, "relative humidity " ++ str_int h ++ "%, ") "" h ++
     from_option (λ w, "wind " ++ str_int w ++ " mph, ") "" w ++
     from_option (λ c, "wind chill " ++ str_int c) "" c)
  = WeatherMatch t h w c.
Proof.
  intros Hh Hw. unfold weather_groups.
  set (pc := from_option (λ c, "wind chill " ++ str_int c) "" c).
  set (pw := from_option (λ w, "wind " ++ str_int w ++ " mph, ") "" w).
  set (ph := from_option (λ h, "relative humidity " ++ str_int h ++ "%, ")
               "" h).
  assert (H1 : opt_group "" signed_digits " degrees "
                 (from_option (λ t, str_int t ++ " degrees ") "" t
                  ++ ph ++ pw ++ pc)
               = (str_int <$> t, ph ++ pw ++ pc)).
  { apply (opt_group_piece "" signed_digits " degrees " t str_int).
    - intros v _. by apply signed_digits_str_int.
    - unfold ph, pw, pc. by destruct h, w, c. }
  assert (H2 : opt_group "relative humidity " digits1 "%, " (ph ++ pw ++ pc)
               = (str_int <$> h, pw ++ pc)).
  { apply (opt_group_piece "relative humidity " digits1 "%, " h str_int).
    - intros v Hv. apply digits1_app; [apply str_int_nonempty| |done].
      apply all_digits_str_int. by apply Hh.
    - unfold pw, pc. by destruct w, c. }
  assert (H3 : opt_group "wind " digits1 " mph, " (pw ++ pc)
               = (str_int <$> w, pc)).
  { apply (opt_group_piece "wind " digits1 " mph, " w str_int).
    - intros v Hv. apply digits1_app; [apply str_int_nonempty| |done].
      apply all_digits_str_int. by apply Hw.
    - unfold pc. by destruct c. }
  assert (H4 : (opt_group "wind chill " signed_digits "" pc).1
               = str_int <$> c).
  { unfold pc. destruct c as [v|]; [|done]. simpl.
    unfold opt_group. rewrite expect_string_app.
    pose proof (signed_digits_str_int v "" I) as H.
    rewrite string_app_nil_r in H. by rewrite H. }
  rewrite H1, H2, H3.
  destruct (opt_group "wind chill " signed_digits "" pc) as [g4 r4].
  simpl in H4. subst g4.
  f_equal.
  - destruct t as [v|]; [|done]. simpl. by rewrite py_int_signed_str_int.
  - destruct h as [v|]; [|done]. simpl. rewrite py_int_str_int; [done|].
    by apply Hh.
  - destruct w as [v|]; [|done]. simpl. rewrite py_int_str_int; [done|].
    by apply Hw.
  - destruct c as [v|]; [|done]. simpl. by rewrite py_int_signed_str_int.
Qed.

(** ** [Team.name] *)

Lemma list_index_first w (pre post : list string) :
  w ∉ pre → list_index w (pre ++ w :: post) = Some (length pre).
Proof.
  induction pre as [|x pre IH]; intros Hpre; simpl.
  - by rewrite bool_decide_eq_true_2.
  - apply not_elem_of_cons in Hpre as [Hx Hpre].
    rewrite bool_decide_eq_false_2 by done. by rewrite IH.
Qed.

Lemma list_index_none w (ws : list string) :
  w ∉ ws → list_index w ws = None.
Proof.
  induction ws as [|x ws IH]; intros Hws; simpl; [done|].
  apply not_elem_of_cons in Hws as [Hx Hws].
  rewrite bool_decide_eq_false_2 by done. by rewrite IH.
Qed.

Section TeamName.
Context `{C : Collaborators}.

(** The two [name] methods differ by the class's page and by the selector
    of the header. *)
Lemma name_run self (getter : M value) (sel : string) st e id h ws st1 :
  adds (λ o, o ≠ "name") getter →
  heap st !! self = Some e →
  e_attrs e !! key_attr (e_cls e) = Some id →
  e_cache e !! (id, "name", []) = None →
  getter st = (Ok (VDoc h), st1) →
  getter st1 = (Ok (VDoc h), st1) →
  header_words sel h = Ok ws →
  let name :=
    decorators.memoize (Some self) "name" []
      (doc <- getter ;;
       h <- as_doc doc ;;
       headerwords <- lift (header_words sel h) ;;
       match list_index "Franchise" headerwords with
       | Some lastIdx => ret (VStr (str_join " " (take lastIdx headerwords)))
       | None => raise ValueError
       end) in
  (∀ pre post,
     ws = (pre ++ "Franchise" :: post)%list → "Franchise" ∉ pre →
     ∃ st2, name st = (Ok (VStr (str_join " " pre)), st2) ∧
            name st2 = (Ok (VStr (str_join " " pre)), st2)) ∧
  ("Franchise" ∉ ws →
   name st = (Raise ValueError, st1) ∧ name st1 = (Raise ValueError, st1)).
Proof.
  intros Hget He Hk Hnone Hrun Hrun1 Hws name.
  pose proof (memo_after_getter self "name" getter
    (λ h, headerwords <- lift (header_words sel h) ;;
          match list_index "Franchise" headerwords with
          | Some lastIdx =>
              ret (VStr (str_join " " (take lastIdx headerwords)))
          | None => raise ValueError
          end)
    (λ h, match header_words sel h with
          | Ok ws => match list_index "Franchise" ws with
                     | Some i => Ok (VStr (str_join " " (take i ws)))
                     | None => Raise ValueError
                     end
          | Raise err => Raise err
          end) st e id h st1 Hget) as H.
  cbv beta in H. rewrite Hws in H.
  assert (Htail : ∀ h' s,
    (headerwords <- lift (header_words sel h') ;;
     match list_index "Franchise" headerwords with
     | Some lastIdx => ret (VStr (str_join " " (take lastIdx headerwords)))
     | None => raise ValueError
     end) s
    = (match header_words sel h' with
       | Ok ws => match list_index "Franchise" ws with
                  | Some i => Ok (VStr (str_join " " (take i ws)))
                  | None => Raise ValueError
                  end
       | Raise err => Raise err
       end, s)).
  { intros h' s. unfold bind, lift.
    destruct (header_words sel h') as [ws'|err]; [|done].
    by destruct (list_index "Franchise" ws'). }
  specialize (H Htail He Hk Hnone Hrun Hrun1).
  split.
  - intros pre post -> Hpre.
    rewrite (list_index_first _ _ _ Hpre), take_app_length in H.
    destruct H as (st2 & H1 & H2 & _). by exists st2.
  - intros Hno. by rewrite (list_index_none _ _ Hno) in H.
Qed.

(** X8: the first call of the NFL [Team.name()] on a main page that could
    be fetched: when the header has the word [Franchise], the name is the
    words before its first occurrence joined by single spaces, and it is
    stored; when the header has no such word the call raises [ValueError]
    and stores nothing, and a second call raises it again from the stored
    page, making no request. *)
Theorem nfl_name_before_franchise st self e id h ws st1 :
  heap st !! self = Some e → e_cls e = NFL_Team →
  e_attrs e !! "teamID" = Some id →
  e_cache e !! (id, "name", []) = None →
  nfl.Team.get_main_doc self st = (Ok (VDoc h), st1) →
  header_words "div#meta h1" h = Ok ws →
  (∀ pre post,
     ws = (pre ++ "Franchise" :: post)%list → "Franchise" ∉ pre →
     ∃ st2,
       nfl.Team.name self st = (Ok (VStr (str_join " " pre)), st2) ∧
       nfl.Team.name self st2 = (Ok (VStr (str_join " " pre)), st2)) ∧
  ("Franchise" ∉ ws →
   nfl.Team.name self st = (Raise ValueError, st1) ∧
   nfl.Team.name self st1 = (Raise ValueError, st1)).
Proof.
  intros He Hc Hid Hnone Hdoc Hws.
  apply (name_run self (nfl.Team.get_main_doc self) "div#meta h1"
           st e id h ws st1); try done.
  - by apply nfl_get_main_doc_adds.
  - by rewrite Hc.
  - eapply method_again; [|exact Hdoc]. repeat adds_step.
Qed.

(** X9: the first call of the NBA [Team.name()] on a main page that could
    be fetched, whose header is selected by [div#info_box h1]: when the
    header has the word [Franchise], the name is the words before its
    first occurrence joined by single spaces, and it is stored; when the
    header has no such word the call raises [ValueError] and stores
    nothing, and a second call raises it again from the stored page,
    making no request. *)
Theorem nba_name_before_franchise st self e id h ws st1 :
  heap st !! self = Some e → e_cls e = NBA_Team →
  e_attrs e !! "teamID" = Some id →
  e_cache e !! (id, "name", []) = None →
  nba.Team.get_main_doc self st = (Ok (VDoc h), st1) →
  header_words "div#info_box h1" h = Ok ws →
  (∀ pre post,
     ws = (pre ++ "Franchise" :: post)%list → "Franchise" ∉ pre →
     ∃ st2,
       nba.Team.name self st = (Ok (VStr (str_join " " pre)), st2) ∧
       nba.Team.name self st2 = (Ok (VStr (str_join " " pre)), st2)) ∧
  ("Franchise" ∉ ws →
   nba.Team.name self st = (Raise ValueError, st1) ∧
   nba.Team.name self st1 = (Raise ValueError, st1)).
Proof.
  intros He Hc Hid Hnone Hdoc Hws.
  apply (name_run self (nba.Team.get_main_doc self) "div#info_box h1"
           st e id h ws st1); try done.
  - by apply nba_get_main_doc_adds.
  - by rewrite Hc.
  - eapply method_again; [|exact Hdoc]. repeat adds_step.
Qed.

End TeamName.

(** ** [BoxScore.surface] with an entry *)

Section Surface.
Context `{C : Collaborators}.

(** X10: in every state with sound stores, and so in every reachable one,
    once the document has been returned [surface()] returns the [surface]
    entry of its game-info table when there is one, whether the result was
    stored before or not, and the call after it is a hit. *)
Theorem surface_entry st self e h gi s st1 :
  cache_sound st →
  heap st !! self = Some e → e_cls e = NFL_BoxScore →
  nfl.BoxScore.get_doc self st = (Ok (VDoc h), st1) →
  parse_info_table h = Ok gi →
  gi !! "surface" = Some s →
  ∃ st2, nfl.BoxScore.surface self st1 = (Ok (VStr s), st2) ∧
         nfl.BoxScore.surface self st2 = (Ok (VStr s), st2).
Proof.
  intros Hs He Hc Hdoc Hgi Hsome.
  assert (HJ : sound_at self NFL_BoxScore st) by (split; [done | by exists e]).
  pose proof (get_doc_sound self st HJ) as [Hs1 _]. unfold after in Hs1.
  rewrite Hdoc in Hs1. simpl in Hs1.
  destruct (memoize_ok_entry _ _ _ _ _ _ _ Hdoc) as (k & Hk & _).
  apply call_key_nil_inv in Hk as (id & _ & Hid).
  eapply method_call_facts in Hdoc as (_ & Hid1 & e1 & He1 & Hd1); [|..|done].
  2:{ repeat adds_step. }
  apply natural_key_inv in Hid1 as (_ & x & Hx & Hk1).
  rewrite He1 in Hx. injection Hx as <-.
  assert (Hget : nfl.BoxScore.get_doc self st1 = (Ok (VDoc h), st1)).
  { unfold nfl.BoxScore.get_doc. by eapply method_hit. }
  unfold nfl.BoxScore.surface.
  match goal with
  | |- context [decorators.memoize (Some self) "surface" [] ?b] =>
      pose proof (method_run self "surface" b st1 e1 id) as Hrun;
      assert (Hbody : b st1 = (Ok (VStr s), st1));
      [|assert (Hadds : adds (λ _, True) b)]
  end.
  { erewrite bind_ok by done. erewrite bind_ok by done.
    unfold bind, lift, ret. by rewrite Hgi, Hsome. }
  { repeat first [by apply get_doc_adds | adds_step]. }
  rewrite Hbody in Hrun. specialize (Hrun Hadds He1 Hk1).
  destruct (e_cache e1 !! (id, "surface", [])) as [r|] eqn:Hr.
  - pose proof (Hs1 self e1 _ _ He1 Hr) as (_ & _ & _ & Hsu & _).
    destruct (Hsu eq_refl) as (_ & h' & gi' & Hd' & Hgi' & ->).
    rewrite Hd1 in Hd'. injection Hd' as <-.
    rewrite Hgi in Hgi'. injection Hgi' as <-. rewrite Hsome in Hrun.
    by exists st1.
  - destruct Hrun as (e' & He' & Hrun). eexists. split; [exact Hrun|].
    by eapply method_again.
Qed.

End Surface.

(** ** [__reduce__] *)

Section Reduce.
Context `{C : Collaborators}.

(** X11: [__reduce__] gives back the object itself.  In a state whose
    registry holds the live entities, as every reachable state does,
    calling the class that [__reduce__] returns on the arguments it returns
    yields the very same object, and neither call changes the state. *)
Theorem reduce_rebuilds_same_object st self e :
  registry_ok st →
  heap st !! self = Some e →
  (e_cls e = NFL_Team →
   ∃ r, nfl.Team.__reduce__ self st = (Ok r, st) ∧
        rebuild r st = (Ok self, st)) ∧
  (e_cls e = NFL_BoxScore →
   ∃ r, nfl.BoxScore.__reduce__ self st = (Ok r, st) ∧
        rebuild r st = (Ok self, st)).
Proof.
  intros [Hreg Hlive] He.
  destruct (Hlive self e He) as (key & Hkey).
  destruct (Hreg _ _ _ Hkey) as (e' & He' & _ & Hattr).
  rewrite He in He'. injection He' as <-.
  split; intros Hc; rewrite Hc in *; simpl in Hattr.
  - exists (NFL_Team, [key]). split.
    + unfold nfl.Team.__reduce__. by erewrite bind_ok by by eapply getattr_ref.
    + unfold rebuild. by rewrite construct_run, Hkey.
  - exists (NFL_BoxScore, [key]). split.
    + unfold nfl.BoxScore.__reduce__.
      by erewrite bind_ok by by eapply getattr_ref.
    + unfold rebuild. by rewrite construct_run, Hkey.
Qed.

End Reduce.

(** ** Dates, seasons and [__str__] *)

Lemma take_digits_prefix n (p r : string) :
  (n ≤ String.length p)%nat →
  take_digits n (p ++ r) =
    match take_digits n p with
    | Some (g, r') => Some (g, r' ++ r)
    | None => None
    end.
Proof.
  revert p. induction n as [|n IH]; intros p Hn; [done|].
  destruct p as [|a p]; simpl in Hn; [lia|].
  rewrite string_app_cons. simpl. destruct (is_digit a); [|done].
  rewrite IH by lia. by destruct (take_digits n p) as [[g r']|].
Qed.

Lemma take_digits_length n s g r :
  take_digits n s = Some (g, r) →
  String.length s = (n + String.length r)%nat.
Proof.
  revert s g r. induction n as [|n IH]; intros s g r; simpl.
  - by intros [= <- <-].
  - destruct s as [|a s]; [done|]. destruct (is_digit a); [|done].
    destruct (take_digits n s) as [[g' r']|] eqn:Ht; [|done].
    intros [= <- <-]. simpl. by rewrite (IH _ _ _ Ht).
Qed.

Lemma match_date_prefix (p r : string) :
  (8 ≤ String.length p)%nat → match_date (p ++ r) = match_date p.
Proof.
  intros Hp. unfold match_date. rewrite take_digits_prefix by lia.
  destruct (take_digits 4 p) as [[y r1]|] eqn:H1; [|done].
  apply take_digits_length in H1 as L1.
  rewrite take_digits_prefix by lia.
  destruct (take_digits 2 r1) as [[m r2]|] eqn:H2; [|done].
  apply take_digits_length in H2 as L2.
  rewrite take_digits_prefix by lia.
  by destruct (take_digits 2 r2) as [[d r3]|].
Qed.

Section Dates.
Context `{C : Collaborators}.

Lemma date_of_id_calendar id v :
  nfl.BoxScore.date_of_id id = Ok v →
  ∃ y m d, v = VDate y m d ∧ valid_date y m d = true.
Proof.
  unfold nfl.BoxScore.date_of_id, datetime_date.
  destruct id; try done. destruct (match_date _) as [[[y m] d]|]; [|done].
  destruct (valid_date _ _ _) eqn:Hv; [|done]. intros [= <-]. eauto.
Qed.

(** A call of [season()] that raises leaves the state as it was. *)
Lemma season_raise self st e id err :
  cache_sound st →
  heap st !! self = Some e → e_cls e = NFL_BoxScore →
  e_attrs e !! "boxscore_id" = Some id →
  nfl.BoxScore.date_of_id id = Raise err →
  nfl.BoxScore.season self st = (Raise err, st).
Proof.
  intros Hs He Hc Hid Hdate.
  assert (Hid' : e_attrs e !! key_attr (e_cls e) = Some id) by by rewrite Hc.
  pose proof (method_run self "season"
    (date <- nfl.BoxScore.date self ;; nfl.BoxScore.season_of date)
    st e id) as Hrun.
  specialize (Hrun ltac:(unfold nfl.BoxScore.season_of;
                         repeat first [by apply date_adds | adds_step])
                   He Hid').
  destruct (e_cache e !! (id, "season", [])) as [r|] eqn:Hr.
  - pose proof (Hs self e _ _ He Hr) as (_ & Hse & _).
    destruct (Hse eq_refl) as (y' & m' & d' & Hd' & _). congruence.
  - destruct (date_run self st e id Hs He Hc Hid) as [_ Hraise].
    erewrite bind_raise in Hrun by by apply Hraise. done.
Qed.

(** X12: whatever [season()] returns, computed or from the store, is the
    year of a calendar date that [date()] returns, or the year before it:
    an integer from 0 to 9999, never negative. *)
Theorem season_of_a_calendar_date st self e id v :
  cache_sound st →
  heap st !! self = Some e → e_cls e = NFL_BoxScore →
  e_attrs e !! "boxscore_id" = Some id →
  outcome (nfl.BoxScore.season self) st = Ok v →
  ∃ y m d,
    outcome (nfl.BoxScore.date self) st = Ok (VDate y m d) ∧
    valid_date y m d = true ∧
    v = VInt (if m <=? 3 then y - 1 else y) ∧
    0 ≤ (if m <=? 3 then y - 1 else y) ≤ 9999.
Proof.
  intros Hs He Hc Hid Hout.
  destruct (date_run self st e id Hs He Hc Hid) as [Hd _].
  destruct (nfl.BoxScore.date_of_id id) as [dv|err] eqn:Hdate.
  - destruct (date_of_id_calendar _ _ Hdate) as (y & m & d & -> & Hv).
    exists y, m, d. split; [done|]. split; [done|].
    rewrite (season_run self st e id y m d Hs He Hc Hid Hdate) in Hout.
    injection Hout as <-. split; [done|].
    unfold valid_date in Hv. destruct (m <=? 3); lia.
  - unfold outcome in Hout.
    by rewrite (season_raise self st e id err Hs He Hc Hid Hdate) in Hout.
Qed.

(** X13: [date()] looks at the first eight characters of the identifier
    only: two box scores whose identifiers agree on them (two games of one
    day) have the same outcome of [date()]. *)
Theorem date_of_first_eight_characters st a b ea eb p ra rb :
  cache_sound st →
  heap st !! a = Some ea → e_cls ea = NFL_BoxScore →
  heap st !! b = Some eb → e_cls eb = NFL_BoxScore →
  e_attrs ea !! "boxscore_id" = Some (VStr (p ++ ra)) →
  e_attrs eb !! "boxscore_id" = Some (VStr (p ++ rb)) →
  String.length p = 8%nat →
  outcome (nfl.BoxScore.date a) st = outcome (nfl.BoxScore.date b) st.
Proof.
  intros Hs Ha Hca Hb Hcb Hida Hidb Hp.
  destruct (date_run a st ea _ Hs Ha Hca Hida) as [-> _].
  destruct (date_run b st eb _ Hs Hb Hcb Hidb) as [-> _].
  unfold nfl.BoxScore.date_of_id.
  by rewrite !match_date_prefix by lia.
Qed.

Context `{L : LinkParsers}.

(** X14: [str()] of a box score asks for the season first.  When the
    identifier gives no date (no eight leading digits, or digits that are
    no calendar date), [__str__] raises what [date()] raises and leaves
    the state as it was: no request is made and nothing is stored. *)
Theorem str_raises_before_any_request st self e id err :
  cache_sound st →
  heap st !! self = Some e → e_cls e = NFL_BoxScore →
  e_attrs e !! "boxscore_id" = Some id →
  nfl.BoxScore.date_of_id id = Raise err →
  nfl.BoxScore.__str__ self st = (Raise err, st).
Proof.
  intros Hs He Hc Hid Hdate. unfold nfl.BoxScore.__str__.
  erewrite bind_raise; [done|]. by eapply season_raise.
Qed.

End Dates.

(** ** The loop of [head_coaches_by_game] *)

Lemma expect_length c s r :
  expect c s = Some r → String.length s = S (String.length r).
Proof.
  destruct s as [|a s]; simpl; [done|]. case_bool_decide; [|done].
  by intros [= ->].
Qed.

Lemma digits1_length s ds r :
  digits1 s = Some (ds, r) → (String.length r ≤ String.length s)%nat.
Proof.
  intros (-> & _)%digits1_inv. rewrite string_app_length. lia.
Qed.

Lemma span_nonspace_length s w r :
  span_nonspace s = (w, r) → (String.length r ≤ String.length s)%nat.
Proof.
  revert w r. induction s as [|a s IH]; intros w r; simpl.
  - by intros [= <- <-].
  - destruct (is_space a); [by intros [= <- <-]|].
    destruct (span_nonspace s) as [w' r'] eqn:Hs. intros [= <- <-].
    specialize (IH _ _ eq_refl). lia.
Qed.

Lemma match_record_tail_length s wins losses ties r :
  match_record_tail s = Some (wins, losses, ties, r) →
  (String.length r < String.length s)%nat.
Proof.
  unfold match_record_tail.
  destruct (expect " " s) as [s1|] eqn:H1; [|done].
  destruct (expect "(" s1) as [s2|] eqn:H2; [|done].
  destruct (digits1 s2) as [[gw s3]|] eqn:H3; [|done].
  destruct (expect "-" s3) as [s4|] eqn:H4; [|done].
  destruct (digits1 s4) as [[gl s5]|] eqn:H5; [|done].
  destruct (expect "-" s5) as [s6|] eqn:H6; [|done].
  destruct (digits1 s6) as [[gt s7]|] eqn:H7; [|done].
  destruct (expect ")" s7) as [s8|] eqn:H8; [|done].
  intros [= <- <- <- <-].
  apply expect_length in H1, H2, H4, H6, H8.
  apply digits1_length in H3, H5, H7. lia.
Qed.

(** What is left after a record is shorter than the text searched. *)
Lemma search_record_length s coachID wins losses ties r :
  search_record s = Some (coachID, wins, losses, ties, r) →
  (String.length r < String.length s)%nat.
Proof.
  induction s as [|a s IH]; simpl; [done|].
  destruct (is_space a).
  { intros H. specialize (IH H). lia. }
  destruct (span_nonspace s) as [w rest] eqn:Hs.
  destruct (match_record_tail rest) as [[[[gw gl] gt] after]|] eqn:Ht.
  - intros [= <- <- <- <- <-].
    apply match_record_tail_length in Ht.
    apply span_nonspace_length in Hs. lia.
  - intros H. specialize (IH H). lia.
Qed.

Lemma coach_loop_fuel_enough fuel s :
  (String.length s ≤ fuel)%nat →
  is_Some (nfl.Team.coach_loop fuel s) ∧
  ∀ fuel', (String.length s ≤ fuel')%nat →
           nfl.Team.coach_loop fuel' s = nfl.Team.coach_loop fuel s.
Proof.
  revert s. induction fuel as [|fuel IH]; intros s Hlen.
  - destruct s; simpl in Hlen; [|lia]. split; [by eexists|].
    by intros [|fuel'] _.
  - destruct s as [|a s]; [split; [by eexists | by intros [|fuel'] _]|].
    split.
    + cbn [nfl.Team.coach_loop].
      destruct (search_record (String a s))
        as [[[[[coachID wins] losses] ties] rest]|] eqn:Hsr; [|by eexists].
      apply search_record_length in Hsr. simpl in Hlen, Hsr.
      destruct (IH rest ltac:(lia)) as [[[cs|err] ->] _]; by eexists.
    + intros [|fuel'] Hlen'; [simpl in Hlen'; lia|].
      cbn [nfl.Team.coach_loop].
      destruct (search_record (String a s))
        as [[[[[coachID wins] losses] ties] rest]|] eqn:Hsr; [|done].
      apply search_record_length in Hsr. simpl in Hlen, Hlen', Hsr.
      destruct (IH rest ltac:(lia)) as [_ Heq].
      by rewrite (Heq fuel' ltac:(lia)).
Qed.

(** X15: the loop of [head_coaches_by_game] ends on every text: the text
    left after a record is shorter than the text searched, so as many
    turns as the text has characters are enough, and more turns change
    nothing. *)
Theorem coach_loop_terminates s fuel :
  (String.length s ≤ fuel)%nat →
  ∃ r, nfl.Team.coach_loop fuel s = Some r ∧
       nfl.Team.coach_loop (String.length s) s = Some r.
Proof.
  intros Hlen. destruct (coach_loop_fuel_enough fuel s Hlen) as [[r Hr] Heq].
  exists r. split; [done|]. by rewrite (Heq (String.length s)).
Qed.

(** *** Text without a record *)

Lemma expect_paren_none s :
  Forall (λ a, a ≠ "("%char) (list_ascii_of_string s) →
  expect "(" s = None.
Proof.
  destruct s as [|a s]; simpl; [done|]. intros [Ha _]%Forall_cons.
  by rewrite bool_decide_eq_false_2.
Qed.

Lemma span_nonspace_forall (P : ascii → Prop) s w r :
  span_nonspace s = (w, r) →
  Forall P (list_ascii_of_string s) → Forall P (list_ascii_of_string r).
Proof.
  revert w r. induction s as [|a s IH]; intros w r; simpl.
  - by intros [= <- <-].
  - destruct (is_space a); [by intros [= <- <-]|].
    destruct (span_nonspace s) as [w' r'] eqn:Hs. intros [= <- <-].
    intros [_ H]%Forall_cons. by eapply IH.
Qed.

Lemma match_record_tail_no_paren s :
  Forall (λ a, a ≠ "("%char) (list_ascii_of_string s) →
  match_record_tail s = None.
Proof.
  intros H. unfold match_record_tail.
  destruct s as [|a s]; [done|]. simpl. case_bool_decide; [|done].
  apply Forall_cons in H as [_ H]. by rewrite expect_paren_none.
Qed.

Lemma search_record_no_paren s :
  Forall (λ a, a ≠ "("%char) (list_ascii_of_string s) →
  search_record s = None.
Proof.
  induction s as [|a s IH]; [done|]. intros H.
  pose proof H as [_ Hs]%Forall_cons. cbn [search_record].
  destruct (is_space a); [by apply IH|].
  destruct (span_nonspace (String a s)) as [w rest] eqn:Hsp.
  rewrite match_record_tail_no_paren; [by apply IH|].
  by eapply span_nonspace_forall.
Qed.

(** X16: text that is left without a record makes the loop raise
    [AttributeError] ([m.groups()] on a failed search): any non-empty text
    without an opening parenthesis does, be it a single space after the
    last record; only the empty text ends the loop. *)
Theorem coach_loop_leftover_text_raises fuel s :
  s ≠ "" →
  Forall (λ a, a ≠ "("%char) (list_ascii_of_string s) →
  nfl.Team.coach_loop (S fuel) s = Some (Raise AttributeError).
Proof.
  intros Hne H. destruct s as [|a s]; [done|]. cbn [nfl.Team.coach_loop].
  by rewrite search_record_no_paren.
Qed.

(** *** A leading record *)

Lemma span_nonspace_word w r :
  Forall (λ a, is_space a = false) (list_ascii_of_string w) →
  match r with String a _ => is_space a = true | EmptyString => True end →
  span_nonspace (w ++ r) = (w, r).
Proof.
  intros Hw Hr. induction w as [|a w IH].
  - rewrite string_app_nil. destruct r as [|b r]; [done|]. simpl.
    by rewrite Hr.
  - simpl in Hw. apply Forall_cons in Hw as [Ha Hw].
    rewrite string_app_cons. simpl. rewrite Ha. by rewrite IH.
Qed.

Lemma match_record_tail_record gw gl gt rest :
  gw ≠ "" → all_digits gw = true →
  gl ≠ "" → all_digits gl = true →
  gt ≠ "" → all_digits gt = true →
  match_record_tail (" (" ++ gw ++ "-" ++ gl ++ "-" ++ gt ++ ")" ++ rest)
    = Some (gw, gl, gt, rest).
Proof.
  intros Hw1 Hw2 Hl1 Hl2 Ht1 Ht2. unfold match_record_tail.
  rewrite ?string_app_cons, ?string_app_nil. simpl.
  rewrite (digits1_app gw) by done. simpl.
  rewrite (digits1_app gl) by done. simpl.
  by rewrite (digits1_app gt) by done.
Qed.

(** A start of the search inside text that has no opening parenthesis and
    is followed by text that does not begin with one. *)
Lemma search_record_skip sep t :
  Forall (λ a, a ≠ "("%char) (list_ascii_of_string sep) →
  (∀ a, last (list_ascii_of_string sep) = Some a → is_space a = true) →
  match t with String a _ => a ≠ "("%char | EmptyString => True end →
  search_record (sep ++ t) = search_record t.
Proof.
  intros Hno Hlast Ht. induction sep as [|a sep IH].
  { by rewrite string_app_nil. }
  simpl in Hno. apply Forall_cons in Hno as [Ha Hno].
  assert (IH' : search_record (sep ++ t) = search_record t).
  { apply IH; [done|]. intros b Hb. apply Hlast. simpl.
    destruct (list_ascii_of_string sep); [done|]. by rewrite last_cons, Hb. }
  rewrite string_app_cons. cbn [search_record].
  destruct (is_space a) eqn:Hsp; [done|].
  destruct (span_nonspace (String a (sep ++ t))) as [w rest] eqn:Hspan.
  enough (match_record_tail rest = None) as -> by done.
  clear IH IH'. revert a w Ha Hsp Hlast Hspan.
  induction sep as [|b sep IH]; intros a w Ha Hsp Hlast Hspan.
  { specialize (Hlast a eq_refl). congruence. }
  simpl in Hno. apply Forall_cons in Hno as [Hb Hno].
  rewrite string_app_cons in Hspan. simpl in Hspan. rewrite Hsp in Hspan.
  destruct (is_space b) eqn:Hspb.
  - injection Hspan as <- <-. unfold match_record_tail. simpl.
    case_bool_decide; [|done].
    destruct sep as [|c sep].
    + rewrite string_app_nil. destruct t as [|c t]; [done|]. simpl.
      by rewrite bool_decide_eq_false_2.
    + rewrite string_app_cons. simpl. simpl in Hno.
      apply Forall_cons in Hno as [Hc _]. by rewrite bool_decide_eq_false_2.
  - destruct (span_nonspace (sep ++ t)) as [w' r'] eqn:Hs'.
    injection Hspan as <- <-.
    apply (IH Hno b (String b w') Hb Hspb).
    + intros c Hc. apply Hlast. simpl. simpl in Hc.
      destruct (list_ascii_of_string sep); [done|]. done.
    + simpl. by rewrite Hspb, Hs'.
Qed.

Lemma search_record_leading sep id gw gl gt rest :
  Forall (λ a, a ≠ "("%char) (list_ascii_of_string sep) →
  (∀ a, last (list_ascii_of_string sep) = Some a → is_space a = true) →
  id ≠ "" →
  Forall (λ a, is_space a = false ∧ a ≠ "("%char) (list_ascii_of_string id) →
  gw ≠ "" → all_digits gw = true →
  gl ≠ "" → all_digits gl = true →
  gt ≠ "" → all_digits gt = true →
  search_record
    (sep ++ id ++ " (" ++ gw ++ "-" ++ gl ++ "-" ++ gt ++ ")" ++ rest)
    = Some (id, gw, gl, gt, rest).
Proof.
  intros Hsep Hlast Hid Hchars Hw1 Hw2 Hl1 Hl2 Ht1 Ht2.
  destruct id as [|a id]; [done|].
  simpl in Hchars. apply Forall_cons in Hchars as [[Ha Hp] Hchars].
  rewrite search_record_skip; [|done|done|by rewrite string_app_cons].
  rewrite string_app_cons. cbn [search_record]. rewrite Ha.
  rewrite <- string_app_cons.
  rewrite span_nonspace_word.
  - by rewrite match_record_tail_record.
  - simpl. apply Forall_cons. split; [done|].
    eapply Forall_impl; [exact Hchars|]. by intros ? [? _].
  - by rewrite !string_app_cons.
Qed.

(** X17: one turn of the loop of [head_coaches_by_game].  When the text
    starts, after words without an opening parenthesis, with a record
    [<id> (<wins>-<losses>-<ties>)], the loop keeps the pair of [id] and
    [wins + losses + ties] (ties count as games) and goes on with the text
    after the closing parenthesis. *)
Theorem coach_loop_leading_record fuel sep id wins losses ties rest :
  Forall (λ a, a ≠ "("%char) (list_ascii_of_string sep) →
  (∀ a, last (list_ascii_of_string sep) = Some a → is_space a = true) →
  id ≠ "" →
  Forall (λ a, is_space a = false ∧ a ≠ "("%char) (list_ascii_of_string id) →
  0 ≤ wins → 0 ≤ losses → 0 ≤ ties →
  nfl.Team.coach_loop (S fuel)
    (sep ++ id ++ " (" ++ str_int wins ++ "-" ++ str_int losses ++ "-"
     ++ str_int ties ++ ")" ++ rest)
  = match nfl.Team.coach_loop fuel rest with
    | Some (Ok coachAndTenure) =>
        Some (Ok ((id, wins + losses + ties) :: coachAndTenure))
    | other => other
    end.
Proof.
  intros Hsep Hlast Hid Hchars Hw Hl Ht.
  pose proof (search_record_leading sep id (str_int wins) (str_int losses)
    (str_int ties) rest Hsep Hlast Hid Hchars
    (str_int_nonempty _) (all_digits_str_int _ Hw)
    (str_int_nonempty _) (all_digits_str_int _ Hl)
    (str_int_nonempty _) (all_digits_str_int _ Ht)) as Hsr.
  destruct (sep ++ id ++ " (" ++ str_int wins ++ "-" ++ str_int losses ++ "-"
            ++ str_int ties ++ ")" ++ rest) as [|a s] eqn:Htext.
  { done. }
  cbn [nfl.Team.coach_loop]. rewrite Hsr.
  by rewrite !py_int_str_int by done.
Qed.

(** *** The array of coach identifiers *)

Lemma rev_replicate {A} n (x : A) : rev (replicate n x) = replicate n x.
Proof.
  induction n as [|n IH]; [done|]. simpl. rewrite IH.
  change [x] with (replicate 1 x). rewrite <- replicate_add.
  by replace (n + 1)%nat with (S n) by lia.
Qed.

(** X18: the list [head_coaches_by_game] returns has one entry per game:
    every coach as many times as the tenure says, the coach listed last
    first; its length is the sum of the tenures. *)
Theorem coach_ids_one_entry_per_game (c : string) (n : Z)
    (coachAndTenure : list (string * Z)) :
  nfl.Team.coach_ids ((c, n) :: coachAndTenure)
    = (nfl.Team.coach_ids coachAndTenure ++ replicate (Z.to_nat n) c)%list ∧
  length (nfl.Team.coach_ids coachAndTenure)
    = sum_list (map (λ ct, Z.to_nat ct.2) coachAndTenure).
Proof.
  unfold nfl.Team.coach_ids. split.
  - simpl. by rewrite rev_app_distr, rev_replicate.
  - rewrite length_rev. induction coachAndTenure as [|[c' n'] l IH]; [done|].
    simpl. by rewrite length_app, length_replicate, IH.
Qed.

(** ** [team_ids] *)

Lemma team_ids_of_snoc items kv :
  nfl.team_ids_of (items ++ [kv]) = <[kv.2 := kv.1]> (nfl.team_ids_of items).
Proof. unfold nfl.team_ids_of. by rewrite fold_left_app. Qed.

Lemma team_ids_of_sound items name id :
  nfl.team_ids_of items !! name = Some id → (id, name) ∈ items.
Proof.
  induction items as [|[id' name'] items IH] using rev_ind.
  { unfold nfl.team_ids_of. simpl. by rewrite lookup_empty. }
  rewrite team_ids_of_snoc. simpl.
  destruct (decide (name' = name)) as [->|Hne].
  - rewrite lookup_insert_eq. intros [= ->]. set_solver.
  - rewrite lookup_insert_ne by done. set_solver.
Qed.

(** X19: [team_ids] inverts [team_names].  Every entry of the result is an
    item of [team_names] turned around; when no two teams have the same
    name every item is found that way; of several teams with one name the
    one that the dictionary yields last is kept. *)
Theorem team_ids_inverts_names (items : list (string * string)) :
  (∀ name id, nfl.team_ids_of items !! name = Some id → (id, name) ∈ items) ∧
  (NoDup items.*2 →
   ∀ name id, (id, name) ∈ items → nfl.team_ids_of items !! name = Some id) ∧
  (∀ id name, nfl.team_ids_of (items ++ [(id, name)]) !! name = Some id).
Proof.
  split; [apply team_ids_of_sound|]. split.
  - induction items as [|[id' name'] items IH] using rev_ind.
    { intros _ name id H. by apply elem_of_nil in H. }
    rewrite fmap_app. simpl. intros Hnd name id Hin.
    apply NoDup_app in Hnd as (Hnd & Hdis & _).
    rewrite team_ids_of_snoc. simpl.
    apply elem_of_app in Hin as [Hin|Hin].
    + assert (name ≠ name').
      { intros ->. apply (Hdis name'); [|set_solver].
        apply list_elem_of_fmap. by exists (id, name'). }
      rewrite lookup_insert_ne by done. by apply IH.
    + apply list_elem_of_singleton in Hin as [= -> ->].
      by rewrite lookup_insert_eq.
  - intros id name. rewrite team_ids_of_snoc. simpl.
    by rewrite lookup_insert_eq.
Qed.

(** ** Season pages of a team *)

Section YearDoc.
Context `{C : Collaborators}.

Lemma mapM_reduce_vals vs st :
  mapM decorators.reduce_arg (map Val vs) st = (Ok vs, st).
Proof.
  induction vs as [|v vs IH]; [done|]. simpl.
  erewrite bind_ok by reflexivity. by erewrite bind_ok by exact IH.
Qed.

Lemma call_key_vals self op vs st id :
  decorators.natural_key self st = (Ok id, st) →
  decorators.call_key (Some self) op (map Val vs) st = (Ok (id, op, vs), st).
Proof.
  intros Hid. unfold decorators.call_key. erewrite bind_ok by done.
  by erewrite bind_ok by apply mapM_reduce_vals.
Qed.

(** A method called with plain values as arguments. *)
Lemma method_run_vals self op vs body st e id :
  heap st !! self = Some e →
  e_attrs e !! key_attr (e_cls e) = Some id →
  match e_cache e !! (id, op, vs) with
  | Some r =>
      decorators.memoize (Some self) op (map Val vs) body st = (Ok r, st)
  | None =>
      match body st with
      | (Ok r, st') =>
          ∀ e', heap st' !! self = Some e' →
                decorators.memoize (Some self) op (map Val vs) body st =
                  (Ok r, set_entity self
                           (Entity (e_cls e') (e_attrs e')
                                   (<[(id, op, vs) := r]> (e_cache e'))) st')
      | (Raise err, st') =>
          decorators.memoize (Some self) op (map Val vs) body st
            = (Raise err, st')
      end
  end.
Proof.
  intros He Hid.
  pose proof (natural_key_intro _ _ _ _ He Hid) as Hnk.
  pose proof (call_key_vals self op vs st id Hnk) as Hk.
  pose proof (cache_lookup_self self (id, op, vs) st e He) as Hl.
  unfold decorators.memoize.
  erewrite bind_ok by done. erewrite bind_ok by done.
  destruct (e_cache e !! (id, op, vs)) as [r|]; [done|].
  destruct (body st) as [[r|err] st'] eqn:Hb.
  - intros e' He'. erewrite bind_ok by done.
    by erewrite bind_ok by by apply cache_store_ok.
  - by erewrite bind_raise by done.
Qed.

(** X20: [get_year_doc(yr_str)] of an NFL team keeps one page per year.
    The first call for a year requests
    [BASE_URL/teams/<teamID>/<yr_str>.htm] once; when the request succeeds
    the page is returned and stored together with the address, so that the
    next call for that year makes no request; what is stored for other
    years is left as it was. *)
Theorem get_year_doc_one_request_per_year st self e id y html :
  heap st !! self = Some e → e_cls e = NFL_Team →
  e_attrs e !! "teamID" = Some id →
  e_cache e !! (id, "get_year_doc", [y]) = None →
  e_cache e !! (id, "team_year_url", [y]) = None →
  get_html (length (fetches st))
    (nfl_BASE_URL ++ "/teams/" ++ py_str id ++ "/" ++ py_str y ++ ".htm")
    = Some html →
  ∃ st1 e1,
    nfl.Team.get_year_doc self y st = (Ok (VDoc html), st1) ∧
    fetches st1 =
      (fetches st ++ [(nfl_BASE_URL ++ "/teams/" ++ py_str id ++ "/"
                       ++ py_str y ++ ".htm")%string])%list ∧
    nfl.Team.get_year_doc self y st1 = (Ok (VDoc html), st1) ∧
    nfl.Team.team_year_url self y st1
      = (Ok (VStr (nfl_BASE_URL ++ "/teams/" ++ py_str id ++ "/"
                   ++ py_str y ++ ".htm")), st1) ∧
    heap st1 !! self = Some e1 ∧
    ∀ y', y' ≠ y →
          e_cache e1 !! (id, "get_year_doc", [y'])
            = e_cache e !! (id, "get_year_doc", [y']) ∧
          e_cache e1 !! (id, "team_year_url", [y'])
            = e_cache e !! (id, "team_year_url", [y']).
Proof.
  intros He Hc Hid Hnone Hnone' Hfetch.
  assert (Hk : e_attrs e !! key_attr (e_cls e) = Some id) by by rewrite Hc.
  set (url := nfl_BASE_URL ++ "/teams/" ++ py_str id ++ "/" ++ py_str y
              ++ ".htm") in *.
  set (ku := (id, "team_year_url", [y]) : callkey).
  set (kd := (id, "get_year_doc", [y]) : callkey).
  set (ea := Entity (e_cls e) (e_attrs e) (<[ku := VStr url]> (e_cache e))).
  set (sa := set_entity self ea st).
  set (sb := State (registry sa) (heap sa) (fcache sa) (calls sa)
                   (fetches st ++ [url])%list).
  set (e1 := Entity (e_cls e) (e_attrs e)
                    (<[kd := VDoc html]> (<[ku := VStr url]> (e_cache e)))).
  set (st1 := set_entity self e1 sb).
  assert (Hurl : nfl.Team.team_year_url self y st = (Ok (VStr url), sa)).
  { pose proof (method_run_vals self "team_year_url" [y]
      (id <- getattr (Ref self) "teamID" ;;
       ret (VStr (nfl_BASE_URL ++ "/teams/" ++ py_str id ++ "/"
                  ++ py_str y ++ ".htm"))) st e id He Hk) as H.
    rewrite Hnone' in H.
    erewrite bind_ok in H by by eapply getattr_ref.
    exact (H e He). }
  assert (Hea : heap sb !! self = Some ea) by apply lookup_insert_eq.
  assert (Hdoc : nfl.Team.get_year_doc self y st = (Ok (VDoc html), st1)).
  { pose proof (method_run_vals self "get_year_doc" [y]
      (url <- nfl.Team.team_year_url self y ;;
       u <- as_str url ;;
       html <- fetch u ;;
       ret (VDoc html)) st e id He Hk) as H.
    rewrite Hnone in H.
    erewrite bind_ok in H by exact Hurl.
    erewrite bind_ok in H by reflexivity.
    assert (Hf : fetch url sa = (Ok html, sb)).
    { unfold fetch. simpl. by rewrite Hfetch. }
    erewrite bind_ok in H by exact Hf.
    exact (H ea Hea). }
  assert (He1 : heap st1 !! self = Some e1) by apply lookup_insert_eq.
  assert (Hnk1 : decorators.natural_key self st1 = (Ok id, st1)).
  { by eapply natural_key_intro. }
  exists st1, e1. split; [done|]. split; [done|]. split; [|split; [|split]].
  - eapply memoize_hit; [by apply (call_key_vals self _ [y])|].
    erewrite cache_lookup_self by done. simpl. fold kd.
    by rewrite lookup_insert_eq.
  - eapply memoize_hit; [by apply (call_key_vals self _ [y])|].
    erewrite cache_lookup_self by done. simpl. fold ku.
    rewrite lookup_insert_ne by done. by rewrite lookup_insert_eq.
  - done.
  - intros y' Hy. simpl. unfold ku, kd.
    split; rewrite !lookup_insert_ne; first [done | by intros [= ->]].
Qed.

End YearDoc.

(** ** Failed requests of the team pages *)

Section TeamFetchFailure.
Context `{C : Collaborators}.

(** X21: a failed request for the main page of an NBA team is not stored
    either: [get_main_doc] raises [FetchFailed] and leaves the stores as
    they were; the next call makes the request again, and when that one
    succeeds the page is returned and stored. *)
Theorem nba_fetch_failure_not_cached st self e id :
  heap st !! self = Some e → e_cls e = NBA_Team →
  e_attrs e !! "teamID" = Some id →
  e_cache e !! (id, "get_main_doc", []) = None →
  get_html (length (fetches st)) (nba_BASE_URL ++ "/teams/" ++ py_str id)
    = None →
  fails_then_retries (nba.Team.get_main_doc self)
    (nba_BASE_URL ++ "/teams/" ++ py_str id) st.
Proof.
  intros He Hc Hid Hnone Hfail.
  by apply (memoized_fetch_retry self "get_main_doc" "teamID"
    (λ id, nba_BASE_URL ++ "/teams/" ++ py_str id) st e id
    He ltac:(by rewrite Hc) Hid Hnone Hfail).
Qed.

(** X22: a failed request of [get_year_doc] leaves the address behind.
    On the first call for a year whose request fails, [get_year_doc]
    raises [FetchFailed] and stores no page, but the address that
    [team_year_url] built on the way stays stored; the next call takes it
    from the store and makes the request again. *)
Theorem get_year_doc_failure_keeps_address st self e id y :
  heap st !! self = Some e → e_cls e = NFL_Team →
  e_attrs e !! "teamID" = Some id →
  e_cache e !! (id, "get_year_doc", [y]) = None →
  e_cache e !! (id, "team_year_url", [y]) = None →
  get_html (length (fetches st))
    (nfl_BASE_URL ++ "/teams/" ++ py_str id ++ "/" ++ py_str y ++ ".htm")
    = None →
  ∃ st1 e1,
    nfl.Team.get_year_doc self y st = (Raise FetchFailed, st1) ∧
    heap st1 !! self = Some e1 ∧
    e_cache e1 !! (id, "get_year_doc", [y]) = None ∧
    e_cache e1 !! (id, "team_year_url", [y])
      = Some (VStr (nfl_BASE_URL ++ "/teams/" ++ py_str id ++ "/"
                    ++ py_str y ++ ".htm")) ∧
    fetches st1 =
      (fetches st ++ [(nfl_BASE_URL ++ "/teams/" ++ py_str id ++ "/"
                       ++ py_str y ++ ".htm")%string])%list ∧
    ∀ html,
      get_html (length (fetches st1))
        (nfl_BASE_URL ++ "/teams/" ++ py_str id ++ "/" ++ py_str y ++ ".htm")
        = Some html →
      ∃ st2,
        nfl.Team.get_year_doc self y st1 = (Ok (VDoc html), st2) ∧
        fetches st2 =
          (fetches st1 ++ [(nfl_BASE_URL ++ "/teams/" ++ py_str id ++ "/"
                            ++ py_str y ++ ".htm")%string])%list.
Proof.
  intros He Hc Hid Hnone Hnone' Hfail.
  assert (Hk : e_attrs e !! key_attr (e_cls e) = Some id) by by rewrite Hc.
  set (url := nfl_BASE_URL ++ "/teams/" ++ py_str id ++ "/" ++ py_str y
              ++ ".htm") in *.
  set (ku := (id, "team_year_url", [y]) : callkey).
  set (kd := (id, "get_year_doc", [y]) : callkey).
  set (ea := Entity (e_cls e) (e_attrs e) (<[ku := VStr url]> (e_cache e))).
  set (sa := set_entity self ea st).
  set (sb := State (registry sa) (heap sa) (fcache sa) (calls sa)
                   (fetches st ++ [url])%list).
  assert (Hurl : nfl.Team.team_year_url self y st = (Ok (VStr url), sa)).
  { pose proof (method_run_vals self "team_year_url" [y]
      (id <- getattr (Ref self) "teamID" ;;
       ret (VStr (nfl_BASE_URL ++ "/teams/" ++ py_str id ++ "/"
                  ++ py_str y ++ ".htm"))) st e id He Hk) as H.
    rewrite Hnone' in H.
    erewrite bind_ok in H by by eapply getattr_ref.
    exact (H e He). }
  assert (Hea : heap sb !! self = Some ea) by apply lookup_insert_eq.
  assert (Hka : e_attrs ea !! key_attr (e_cls ea) = Some id) by done.
  assert (Hda : e_cache ea !! kd = None).
  { simpl. by rewrite lookup_insert_ne. }
  assert (Hua : e_cache ea !! ku = Some (VStr url)).
  { simpl. by rewrite lookup_insert_eq. }
  exists sb, ea. split; [|split; [done|split; [done|split; [done|split]]]].
  - pose proof (method_run_vals self "get_year_doc" [y]
      (url <- nfl.Team.team_year_url self y ;;
       u <- as_str url ;;
       html <- fetch u ;;
       ret (VDoc html)) st e id He Hk) as H.
    rewrite Hnone in H.
    erewrite bind_ok in H by exact Hurl.
    erewrite bind_ok in H by reflexivity.
    assert (Hf : fetch url sa = (Raise FetchFailed, sb)).
    { unfold fetch. simpl. by rewrite Hfail. }
    erewrite bind_raise in H by exact Hf.
    exact H.
  - done.
  - intros html Hok.
    set (sc := State (registry sb) (heap sb) (fcache sb) (calls sb)
                     (fetches sb ++ [url])%list).
    assert (Hurl' : nfl.Team.team_year_url self y sb = (Ok (VStr url), sb)).
    { eapply memoize_hit.
      - apply (call_key_vals self _ [y]). by eapply natural_key_intro.
      - erewrite cache_lookup_self by done. fold ku. by rewrite Hua. }
    pose proof (method_run_vals self "get_year_doc" [y]
      (url <- nfl.Team.team_year_url self y ;;
       u <- as_str url ;;
       html <- fetch u ;;
       ret (VDoc html)) sb ea id Hea Hka) as H.
    fold kd in H. rewrite Hda in H.
    erewrite bind_ok in H by exact Hurl'.
    erewrite bind_ok in H by reflexivity.
    assert (Hf : fetch url sb = (Ok html, sc)).
    { unfold fetch. by rewrite Hok. }
    erewrite bind_ok in H by exact Hf.
    eexists. split; [exact (H ea Hea)|done].
Qed.

End TeamFetchFailure.

(** ** Further runs on the sample sites *)

Lemma sample_new_game_sound `{C : Collaborators} : cache_sound sample_new_game.
Proof. apply (construct_sound NFL_BoxScore), init_invariant. Qed.

Lemma sample_two_games_sound `{C : Collaborators} :
  cache_sound sample_two_games.
Proof. apply (construct_sound NFL_BoxScore), sample_new_game_sound. Qed.

Lemma sample_undated_game_sound `{C : Collaborators} :
  cache_sound sample_undated_game.
Proof. apply (construct_sound NFL_BoxScore), init_invariant. Qed.

Lemma sample_teams_sound `{C : Collaborators} : cache_sound sample_teams.
Proof.
  apply (construct_sound NBA_Team), (construct_sound NFL_Team), init_invariant.
Qed.

Lemma week_reads_link_witness :
  outcome (@nfl.BoxScore.week sample_site sample_links 0%nat) sample_game
    = Ok (VInt 17).
Proof.
  set (e := Entity NFL_BoxScore {["boxscore_id" := VStr "201502010sea"]} ∅).
  assert (He : heap sample_game !! 0%nat = Some e)
    by (vm_compute; reflexivity).
  assert (Hid : e_attrs e !! "boxscore_id" = Some (VStr "201502010sea"))
    by (vm_compute; reflexivity).
  assert (Hnone : e_cache e !! (VStr "201502010sea", "week", []) = None)
    by reflexivity.
  assert (Hdoc : @nfl.BoxScore.get_doc sample_site 0%nat sample_game
                 = (Ok (VDoc "<html>http://nfl/boxscores/201502010sea.htm"),
                    after (@nfl.BoxScore.get_doc sample_site 0%nat)
                      sample_game))
    by (apply run_eq; vm_compute; reflexivity).
  apply (@week_reads_link sample_site sample_links sample_game 0%nat e
           (VStr "201502010sea") _ _ 2015 2 1 17 ""
           (proj1 (reachable_invariant _ sample_game_reachable))
           He eq_refl Hid Hnone Hdoc eq_refl); [lia | reflexivity].
Defined.

Lemma week_defaults_to_21_witness :
  outcome (@nfl.BoxScore.week sample_site sample_links_other_season 0%nat)
    sample_game = Ok (VInt 21).
Proof.
  set (e := Entity NFL_BoxScore {["boxscore_id" := VStr "201502010sea"]} ∅).
  assert (He : heap sample_game !! 0%nat = Some e)
    by (vm_compute; reflexivity).
  assert (Hid : e_attrs e !! "boxscore_id" = Some (VStr "201502010sea"))
    by (vm_compute; reflexivity).
  assert (Hnone : e_cache e !! (VStr "201502010sea", "week", []) = None)
    by reflexivity.
  assert (Hdoc : @nfl.BoxScore.get_doc sample_site 0%nat sample_game
                 = (Ok (VDoc "<html>http://nfl/boxscores/201502010sea.htm"),
                    after (@nfl.BoxScore.get_doc sample_site 0%nat)
                      sample_game))
    by (apply run_eq; vm_compute; reflexivity).
  apply (@week_defaults_to_21 sample_site sample_links_other_season
           sample_game 0%nat e (VStr "201502010sea") _ _ 2015 2 1
           "/years/2013/week_17.htm"
           (proj1 (reachable_invariant _ sample_game_reachable))
           He eq_refl Hid Hnone Hdoc eq_refl eq_refl).
  intros g rest _ _ H. vm_compute in H. discriminate H.
Defined.

Lemma week_without_link_witness :
  outcome (@nfl.BoxScore.week sample_site sample_no_link 0%nat) sample_game
    = Raise TypeError.
Proof.
  set (e := Entity NFL_BoxScore {["boxscore_id" := VStr "201502010sea"]} ∅).
  assert (He : heap sample_game !! 0%nat = Some e)
    by (vm_compute; reflexivity).
  assert (Hid : e_attrs e !! "boxscore_id" = Some (VStr "201502010sea"))
    by (vm_compute; reflexivity).
  assert (Hnone : e_cache e !! (VStr "201502010sea", "week", []) = None)
    by reflexivity.
  assert (Hdoc : @nfl.BoxScore.get_doc sample_site 0%nat sample_game
                 = (Ok (VDoc "<html>http://nfl/boxscores/201502010sea.htm"),
                    after (@nfl.BoxScore.get_doc sample_site 0%nat)
                      sample_game))
    by (apply run_eq; vm_compute; reflexivity).
  exact (@week_without_link sample_site sample_no_link sample_game 0%nat e
           (VStr "201502010sea") _ _ 2015 2 1
           (proj1 (reachable_invariant _ sample_game_reachable))
           He eq_refl Hid Hnone Hdoc eq_refl eq_refl).
Defined.

Lemma coin_toss_reports_nothing_witness :
  ∃ st2,
    @nfl.BoxScore.coin_toss sample_outdoor_site 0%nat sample_new_game
      = (Ok VNone, st2) ∧
    @nfl.BoxScore.coin_toss sample_outdoor_site 0%nat st2 = (Ok VNone, st2).
Proof.
  set (e := Entity NFL_BoxScore {["boxscore_id" := VStr "201502010sea"]} ∅).
  assert (He : heap sample_new_game !! 0%nat = Some e)
    by (vm_compute; reflexivity).
  assert (Hid : e_attrs e !! "boxscore_id" = Some (VStr "201502010sea"))
    by (vm_compute; reflexivity).
  assert (Hnone : e_cache e !! (VStr "201502010sea", "coin_toss", []) = None)
    by reflexivity.
  assert (Hdoc : @nfl.BoxScore.get_doc sample_outdoor_site 0%nat
                   sample_new_game
                 = (Ok (VDoc "<html>http://nfl/boxscores/201502010sea.htm"),
                    after (@nfl.BoxScore.get_doc sample_outdoor_site 0%nat)
                      sample_new_game))
    by (apply run_eq; vm_compute; reflexivity).
  exact (@coin_toss_reports_nothing sample_outdoor_site sample_new_game
           0%nat e (VStr "201502010sea") _ _ _ He eq_refl Hid Hnone Hdoc
           eq_refl).
Defined.

Lemma roof_entry_or_nan_witness :
  ∃ st2,
    @nfl.BoxScore.roof sample_outdoor_site 0%nat sample_new_game
      = (Ok (VStr "outdoors"), st2) ∧
    @nfl.BoxScore.roof sample_outdoor_site 0%nat st2
      = (Ok (VStr "outdoors"), st2).
Proof.
  set (e := Entity NFL_BoxScore {["boxscore_id" := VStr "201502010sea"]} ∅).
  assert (He : heap sample_new_game !! 0%nat = Some e)
    by (vm_compute; reflexivity).
  assert (Hid : e_attrs e !! "boxscore_id" = Some (VStr "201502010sea"))
    by (vm_compute; reflexivity).
  assert (Hnone : e_cache e !! (VStr "201502010sea", "roof", []) = None)
    by reflexivity.
  assert (Hdoc : @nfl.BoxScore.get_doc sample_outdoor_site 0%nat
                   sample_new_game
                 = (Ok (VDoc "<html>http://nfl/boxscores/201502010sea.htm"),
                    after (@nfl.BoxScore.get_doc sample_outdoor_site 0%nat)
                      sample_new_game))
    by (apply run_eq; vm_compute; reflexivity).
  exact (@roof_entry_or_nan sample_outdoor_site sample_new_game
           0%nat e (VStr "201502010sea") _ _ _ He eq_refl Hid Hnone Hdoc
           eq_refl).
Defined.

Lemma weather_fills_wind_witness :
  ∃ dict,
    outcome (@nfl.BoxScore.weather sample_outdoor_site 0%nat) sample_new_game
      = Ok (VDict dict) ∧
    dict !! "temp" = Some (Some 36) ∧
    dict !! "relHumidity" = Some None ∧
    dict !! "windMPH" = Some (Some 11) ∧
    dict !! "windChill" = Some (Some 36).
Proof.
  set (e := Entity NFL_BoxScore {["boxscore_id" := VStr "201502010sea"]} ∅).
  assert (He : heap sample_new_game !! 0%nat = Some e)
    by (vm_compute; reflexivity).
  assert (Hid : e_attrs e !! "boxscore_id" = Some (VStr "201502010sea"))
    by (vm_compute; reflexivity).
  assert (Hnone : e_cache e !! (VStr "201502010sea", "weather", []) = None)
    by reflexivity.
  assert (Hdoc : @nfl.BoxScore.get_doc sample_outdoor_site 0%nat
                   sample_new_game
                 = (Ok (VDoc "<html>http://nfl/boxscores/201502010sea.htm"),
                    after (@nfl.BoxScore.get_doc sample_outdoor_site 0%nat)
                      sample_new_game))
    by (apply run_eq; vm_compute; reflexivity).
  destruct (@weather_fills_wind sample_outdoor_site sample_new_game
              0%nat e (VStr "201502010sea") _ _ "36 degrees wind 11 mph, " _
              He eq_refl Hid Hnone Hdoc eq_refl eq_refl)
    as (dict & st2 & H1 & _ & _ & Ht & Hh & Hw & Hc).
  exists dict. unfold outcome. rewrite H1. repeat split; assumption.
Defined.

Lemma surface_entry_witness :
  let st1 := after (@nfl.BoxScore.get_doc sample_outdoor_site 0%nat)
               sample_new_game in
  ∃ st2,
    @nfl.BoxScore.surface sample_outdoor_site 0%nat st1
      = (Ok (VStr "grass"), st2) ∧
    @nfl.BoxScore.surface sample_outdoor_site 0%nat st2
      = (Ok (VStr "grass"), st2).
Proof.
  intros st1.
  set (e := Entity NFL_BoxScore {["boxscore_id" := VStr "201502010sea"]} ∅).
  assert (He : heap sample_new_game !! 0%nat = Some e)
    by (vm_compute; reflexivity).
  assert (Hdoc : @nfl.BoxScore.get_doc sample_outdoor_site 0%nat
                   sample_new_game
                 = (Ok (VDoc "<html>http://nfl/boxscores/201502010sea.htm"),
                    st1))
    by (apply run_eq; vm_compute; reflexivity).
  exact (@surface_entry sample_outdoor_site sample_new_game 0%nat e _ _
           "grass" st1 sample_new_game_sound He eq_refl Hdoc eq_refl eq_refl).
Defined.

Lemma nfl_name_before_franchise_witness :
  ∃ st2,
    @nfl.Team.name sample_outdoor_site 0%nat sample_teams
      = (Ok (VStr "New England Patriots"), st2) ∧
    @nfl.Team.name sample_outdoor_site 0%nat st2
      = (Ok (VStr "New England Patriots"), st2).
Proof.
  set (e := Entity NFL_Team {["teamID" := VStr "phi"]} ∅).
  assert (He : heap sample_teams !! 0%nat = Some e)
    by (vm_compute; reflexivity).
  assert (Hid : e_attrs e !! "teamID" = Some (VStr "phi"))
    by (vm_compute; reflexivity).
  assert (Hnone : e_cache e !! (VStr "phi", "name", []) = None)
    by reflexivity.
  assert (Hdoc : @nfl.Team.get_main_doc sample_outdoor_site 0%nat sample_teams
                 = (Ok (VDoc "<html>http://nfl/teams/phi"),
                    after (@nfl.Team.get_main_doc sample_outdoor_site 0%nat)
                      sample_teams))
    by (apply run_eq; vm_compute; reflexivity).
  destruct (@nfl_name_before_franchise sample_outdoor_site sample_teams
              0%nat e (VStr "phi") _ _ _ He eq_refl Hid Hnone Hdoc eq_refl)
    as (Hname & _).
  apply (Hname ["New"; "England"; "Patriots"] ["Encyclopedia"]);
    [reflexivity|].
  intros Hin. repeat (apply elem_of_cons in Hin as [Hin|Hin];
                      [discriminate Hin|]).
  by apply elem_of_nil in Hin.
Defined.

Lemma nba_name_before_franchise_witness :
  let st1 := after (@nba.Team.get_main_doc sample_outdoor_site 1%nat)
               sample_teams in
  @nba.Team.name sample_outdoor_site 1%nat sample_teams
    = (Raise ValueError, st1) ∧
  @nba.Team.name sample_outdoor_site 1%nat st1 = (Raise ValueError, st1).
Proof.
  intros st1.
  set (e := Entity NBA_Team {["teamID" := VStr "phi"]} ∅).
  assert (He : heap sample_teams !! 1%nat = Some e)
    by (vm_compute; reflexivity).
  assert (Hid : e_attrs e !! "teamID" = Some (VStr "phi"))
    by (vm_compute; reflexivity).
  assert (Hnone : e_cache e !! (VStr "phi", "name", []) = None)
    by reflexivity.
  assert (Hdoc : @nba.Team.get_main_doc sample_outdoor_site 1%nat sample_teams
                 = (Ok (VDoc "<html>http://nba/teams/phi"), st1))
    by (apply run_eq; vm_compute; reflexivity).
  destruct (@nba_name_before_franchise sample_outdoor_site sample_teams
              1%nat e (VStr "phi") _ _ _ He eq_refl Hid Hnone Hdoc eq_refl)
    as (_ & Hname).
  apply Hname.
  intros Hin. repeat (apply elem_of_cons in Hin as [Hin|Hin];
                      [discriminate Hin|]).
  by apply elem_of_nil in Hin.
Defined.

Lemma reduce_rebuilds_same_object_witness :
  ∃ r, nfl.BoxScore.__reduce__ 0%nat sample_game = (Ok r, sample_game) ∧
       rebuild r sample_game = (Ok 0%nat, sample_game).
Proof.
  set (e := Entity NFL_BoxScore {["boxscore_id" := VStr "201502010sea"]} ∅).
  assert (He : heap sample_game !! 0%nat = Some e)
    by (vm_compute; reflexivity).
  destruct (reduce_rebuilds_same_object sample_game 0%nat e
              (proj2 (reachable_invariant _ sample_game_reachable)) He)
    as (_ & H).
  apply H. reflexivity.
Defined.

Lemma season_of_a_calendar_date_witness :
  ∃ y m d,
    outcome (nfl.BoxScore.date 0%nat) sample_game = Ok (VDate y m d) ∧
    valid_date y m d = true ∧
    VInt 2014 = VInt (if m <=? 3 then y - 1 else y) ∧
    0 ≤ (if m <=? 3 then y - 1 else y) ≤ 9999.
Proof.
  set (e := Entity NFL_BoxScore {["boxscore_id" := VStr "201502010sea"]} ∅).
  assert (He : heap sample_game !! 0%nat = Some e)
    by (vm_compute; reflexivity).
  assert (Hid : e_attrs e !! "boxscore_id" = Some (VStr "201502010sea"))
    by (vm_compute; reflexivity).
  apply (@season_of_a_calendar_date sample_site sample_game 0%nat e
           (VStr "201502010sea") (VInt 2014)
           (proj1 (reachable_invariant _ sample_game_reachable))
           He eq_refl Hid).
  vm_compute. reflexivity.
Defined.

Lemma date_of_first_eight_characters_witness :
  outcome (nfl.BoxScore.date 0%nat) sample_two_games
    = outcome (nfl.BoxScore.date 1%nat) sample_two_games.
Proof.
  set (ea := Entity NFL_BoxScore {["boxscore_id" := VStr "201502010sea"]} ∅).
  set (eb := Entity NFL_BoxScore {["boxscore_id" := VStr "201502010nwe"]} ∅).
  assert (Ha : heap sample_two_games !! 0%nat = Some ea)
    by (vm_compute; reflexivity).
  assert (Hb : heap sample_two_games !! 1%nat = Some eb)
    by (vm_compute; reflexivity).
  assert (Hida : e_attrs ea !! "boxscore_id"
                 = Some (VStr ("20150201" ++ "0sea")))
    by (vm_compute; reflexivity).
  assert (Hidb : e_attrs eb !! "boxscore_id"
                 = Some (VStr ("20150201" ++ "0nwe")))
    by (vm_compute; reflexivity).
  exact (@date_of_first_eight_characters sample_site sample_two_games
           0%nat 1%nat ea eb "20150201" "0sea" "0nwe"
           sample_two_games_sound Ha eq_refl Hb eq_refl Hida Hidb eq_refl).
Defined.

Lemma str_raises_before_any_request_witness :
  @nfl.BoxScore.__str__ sample_site sample_links 0%nat sample_undated_game
    = (Raise AttributeError, sample_undated_game).
Proof.
  set (e := Entity NFL_BoxScore {["boxscore_id" := VStr "next-sunday"]} ∅).
  assert (He : heap sample_undated_game !! 0%nat = Some e)
    by (vm_compute; reflexivity).
  assert (Hid : e_attrs e !! "boxscore_id" = Some (VStr "next-sunday"))
    by (vm_compute; reflexivity).
  exact (@str_raises_before_any_request sample_site sample_links
           sample_undated_game 0%nat e (VStr "next-sunday") AttributeError
           sample_undated_game_sound He eq_refl Hid eq_refl).
Defined.

Lemma coach_loop_terminates_witness :
  ∃ r, nfl.Team.coach_loop 100 "Coach: BeliBi0 (12-4-0)" = Some r ∧
       nfl.Team.coach_loop 23 "Coach: BeliBi0 (12-4-0)" = Some r.
Proof.
  apply (coach_loop_terminates "Coach: BeliBi0 (12-4-0)" 100).
  simpl. lia.
Defined.

Lemma coach_loop_leftover_text_raises_witness :
  nfl.Team.coach_loop 1 " " = Some (Raise AttributeError).
Proof.
  apply (coach_loop_leftover_text_raises 0 " "); [discriminate|].
  simpl. repeat constructor. discriminate.
Defined.

Lemma coach_loop_leading_record_witness :
  nfl.Team.coach_loop 1 "Coach: BeliBi0 (12-4-0)"
    = Some (Ok [("BeliBi0", 16)]).
Proof.
  apply (coach_loop_leading_record 0 "Coach: " "BeliBi0" 12 4 0 "").
  - simpl. repeat (constructor; [discriminate|]). constructor.
  - simpl. intros a [= <-]. reflexivity.
  - discriminate.
  - simpl. repeat (constructor; [split; [reflexivity|discriminate]|]).
    constructor.
  - lia.
  - lia.
  - lia.
Defined.

Lemma team_ids_inverts_names_witness :
  nfl.team_ids_of [("nwe", "New England Patriots"); ("sea", "Seattle Seahawks")]
    !! "Seattle Seahawks" = Some "sea".
Proof.
  destruct (team_ids_inverts_names
              [("nwe", "New England Patriots"); ("sea", "Seattle Seahawks")])
    as (_ & H & _).
  apply H.
  - apply (bool_decide_unpack _). vm_compute. exact I.
  - apply elem_of_cons. right. apply elem_of_cons. by left.
Defined.

Lemma get_year_doc_one_request_per_year_witness :
  ∃ st1,
    @nfl.Team.get_year_doc sample_outdoor_site 0%nat (VStr "2014") sample_teams
      = (Ok (VDoc "<html>http://nfl/teams/phi/2014.htm"), st1) ∧
    fetches st1 = ["http://nfl/teams/phi/2014.htm"] ∧
    @nfl.Team.get_year_doc sample_outdoor_site 0%nat (VStr "2014") st1
      = (Ok (VDoc "<html>http://nfl/teams/phi/2014.htm"), st1).
Proof.
  set (e := Entity NFL_Team {["teamID" := VStr "phi"]} ∅).
  assert (He : heap sample_teams !! 0%nat = Some e)
    by (vm_compute; reflexivity).
  assert (Hid : e_attrs e !! "teamID" = Some (VStr "phi"))
    by (vm_compute; reflexivity).
  destruct (@get_year_doc_one_request_per_year sample_outdoor_site
              sample_teams 0%nat e (VStr "phi") (VStr "2014")
              "<html>http://nfl/teams/phi/2014.htm"
              He eq_refl Hid eq_refl eq_refl eq_refl)
    as (st1 & e1 & H1 & H2 & H3 & _).
  exists st1. split; [exact H1|]. split; [exact H2|exact H3].
Defined.

Lemma nba_fetch_failure_not_cached_witness :
  @fails_then_retries sample_site (@nba.Team.get_main_doc sample_site 1%nat)
    "http://nba/teams/phi" sample_teams.
Proof.
  set (e := Entity NBA_Team {["teamID" := VStr "phi"]} ∅).
  assert (He : heap sample_teams !! 1%nat = Some e)
    by (vm_compute; reflexivity).
  assert (Hid : e_attrs e !! "teamID" = Some (VStr "phi"))
    by (vm_compute; reflexivity).
  exact (@nba_fetch_failure_not_cached sample_site sample_teams 1%nat e
           (VStr "phi") He eq_refl Hid eq_refl eq_refl).
Defined.

Lemma get_year_doc_failure_keeps_address_witness :
  ∃ st1 e1,
    @nfl.Team.get_year_doc sample_site 0%nat (VStr "2014") sample_teams
      = (Raise FetchFailed, st1) ∧
    heap st1 !! 0%nat = Some e1 ∧
    e_cache e1 !! (VStr "phi", "get_year_doc", [VStr "2014"]) = None ∧
    e_cache e1 !! (VStr "phi", "team_year_url", [VStr "2014"])
      = Some (VStr "http://nfl/teams/phi/2014.htm").
Proof.
  set (e := Entity NFL_Team {["teamID" := VStr "phi"]} ∅).
  assert (He : heap sample_teams !! 0%nat = Some e)
    by (vm_compute; reflexivity).
  assert (Hid : e_attrs e !! "teamID" = Some (VStr "phi"))
    by (vm_compute; reflexivity).
  destruct (@get_year_doc_failure_keeps_address sample_site
              sample_teams 0%nat e (VStr "phi") (VStr "2014")
              He eq_refl Hid eq_refl eq_refl eq_refl)
    as (st1 & e1 & H1 & H2 & H3 & H4 & _).
  exists st1, e1. split; [exact H1|]. split; [exact H2|].
  split; [exact H3|exact H4].
Defined.

Lemma weather_text_round_trip_witness :
  weather_groups "-3 degrees relative humidity 70%, wind chill -12"
    = WeatherMatch (Some (-3)) (Some 70) None (Some (-12)).
Proof.
  apply (weather_text_round_trip (Some (-3)) (Some 70) None (Some (-12))).
  - intros x [= <-]. lia.
  - intros x H. discriminate H.
Defined.
